(** * ChatTTS: the batched generation loop of [GPT_warpper.generate]

    A shallow embedding of [ChatTTS/model/gpt.py], method
    [GPT_warpper.generate], and the properties of its loop: per-row
    completion, the emitted-length counter, the logits pipeline, the
    attention mask buffer, streaming snapshots and the final payload.
    Around the loop: [prepare_inputs_for_generation], [get_emb] and the
    device chosen by [__init__] of the same class, [encode] of
    [utils/model.py], and [on_voice_change], [load_chat] and [reload_chat]
    of [examples/web/funcs.py].

    Conventions of the embedding.
    - A tensor of shape (B, L, W) of token ids is a [list (list (list Z))]:
      one sequence per batch row, one token row per position.  A prompt
      whose token rows do not have width [num_vq] makes [torch.cat] raise
      at the end of the first step; [shape[1]] is read off the first
      sequence.
    - [eos_token] is an integer (a tensor of one element behaves alike).
    - Floating point values keep the IEEE special values that the code
      relies on ([-inf], [nan]); finite values are rationals, so rounding
      and overflow are not modelled.
    - The transformer backbone with its heads, and the random draw of
      [torch.multinomial], are library code: they are the fields of a
      [Backend].  Everything the method itself does (shapes, the pipeline
      order, the counters, the slicing, the yields) is written out.
    - Exceptions are the [Raise] results of an error monad; a generator is
      the list of the payloads it yields together with the way it ended.
    - Counters ([max_new_token], [min_new_token], [end_idx]) are natural
      numbers. *)

From Stdlib Require Import String.
From Stdlib Require Import List ZArith QArith Bool Arith Lia.
Import ListNotations.

Local Open Scope nat_scope.

(** ** Errors and the error monad *)

Inductive error : Type :=
| ShapeError      (* RuntimeError: sizes do not match / cannot broadcast *)
| IndexError      (* index out of range *)
| SamplingError   (* multinomial: invalid probability row *)
| AmbiguousTruth  (* Boolean value of Tensor with (no or) more than one value *)
| StackEmpty      (* torch.stack expects a non-empty list *)
| OperandError.   (* TypeError: operands of [+] that cannot be added *)

Inductive result (A : Type) : Type :=
| Ok (a : A)
| Raise (e : error).
Arguments Ok {A} a.
Arguments Raise {A} e.

Definition bind {A B : Type} (r : result A) (k : A -> result B) : result B :=
  match r with
  | Ok a => k a
  | Raise e => Raise e
  end.

Notation "x <- c ;; k" := (bind c (fun x => k))
  (at level 61, c at next level, right associativity).

Fixpoint mapM {A B : Type} (f : A -> result B) (l : list A) : result (list B) :=
  match l with
  | [] => Ok []
  | x :: xs => y <- f x ;; ys <- mapM f xs ;; Ok (y :: ys)
  end.

(** ** Floating point values *)

Inductive fval : Type :=
| NaN
| NegInf
| Fin (q : Q)
| PosInf.

Definition qsign (q : Q) : comparison := (Qnum q ?= 0)%Z.

(** [x / t] on floats; a zero divisor is taken as [+0.0].  A finite
    quotient is exact: a quotient too large for a float stays finite here
    where the code gets an infinity. *)
Definition fdiv (x t : fval) : fval :=
  match x, t with
  | NaN, _ | _, NaN => NaN
  | Fin a, Fin b =>
      match qsign b with
      | Eq => match qsign a with Eq => NaN | Lt => NegInf | Gt => PosInf end
      | _ => Fin (a / b)
      end
  | Fin _, _ => Fin 0
  | NegInf, Fin b => match qsign b with Lt => PosInf | _ => NegInf end
  | PosInf, Fin b => match qsign b with Lt => NegInf | _ => PosInf end
  | _, _ => NaN
  end.

Definition is_nan (x : fval) : bool :=
  match x with NaN => true | _ => false end.
Definition is_posinf (x : fval) : bool :=
  match x with PosInf => true | _ => false end.
(** The largest finite entry of a row, if there is one. *)
Fixpoint fmax (row : list fval) : option Q :=
  match row with
  | [] => None
  | Fin q :: r =>
      match fmax r with
      | Some m => Some (if Qle_bool m q then q else m)
      | None => Some q
      end
  | _ :: r => fmax r
  end.

Definition qsum (l : list Q) : Q := fold_right Qplus 0%Q l.

(** [F.softmax(logits, dim=-1)] on one row.  [fexp] is the exponential.
    A row holding [nan] or [+inf], or nothing but [-inf], comes out as
    [nan] everywhere; otherwise [-inf] gets weight 0. *)
Definition softmax_row (fexp : Q -> Q) (row : list fval) : list fval :=
  if existsb is_nan row || existsb is_posinf row then map (fun _ => NaN) row
  else
    match fmax row with
    | None => map (fun _ => NaN) row
    | Some m =>
        let w := map (fun x => match x with
                               | Fin q => fexp (q - m)%Q
                               | _ => 0%Q
                               end) row in
        let s := qsum w in
        map (fun e => fdiv (Fin e) (Fin s)) w
    end.

Definition softmax (fexp : Q -> Q) (logits : list (list fval)) : list (list fval) :=
  map (softmax_row fexp) logits.

(** A probability that a draw may return: finite and strictly positive. *)
Definition positive (x : fval) : bool :=
  match x with
  | Fin p => match qsign p with Gt => true | _ => false end
  | _ => false
  end.

Definition positive_at (row : list fval) (j : nat) : Prop :=
  exists x, nth_error row j = Some x /\ positive x = true.

(** ** Tensors with a shape: the temperature argument *)

Record tensor : Type := { shape : list nat; data : list fval }.

(** [t.unsqueeze_(0)]: in place, on the caller's object. *)
Definition unsqueeze_0 (t : tensor) : tensor :=
  {| shape := 1 :: shape t; data := data t |}.

(** [.expand(B, -1).contiguous().view(-1, 1)] on the unsqueezed tensor:
    [expand] takes two sizes, so the tensor has at most two dimensions. *)
Definition expand_view (B : nat) (t : tensor) : result (list fval) :=
  match shape t with
  | [1] | [1; _] => Ok (concat (repeat (data t) B))
  | _ => Raise ShapeError
  end.

(** ** The external collaborators *)

Record fwd_out (cache attn hidden : Type) : Type := {
  out_past_key_values : cache;
  out_attentions : attn;
  out_hidden_last : nat -> hidden;            (* hidden_states[b, -1] *)
  out_head : nat -> nat -> nat -> fval        (* head n applied at row b, entry c *)
}.
Arguments out_past_key_values {cache attn hidden} f.
Arguments out_attentions {cache attn hidden} f.
Arguments out_hidden_last {cache attn hidden} f.
Arguments out_head {cache attn hidden} f.

Record Backend : Type := {
  cache : Type;
  attn : Type;
  hidden : Type;
  embedding : Type;
  rng : Type;
  (* exp, for the softmax *)
  fexp : Q -> Q;
  (* prepare_inputs_for_generation, the embedding of the newest row,
     self.gpt.forward and the heads: infer_text, return_attn, the step
     index, emb, the cache, the token rows, the attention mask slice *)
  gpt_forward : bool -> bool -> nat -> embedding -> option cache ->
                list (list (list Z)) -> list (list bool) ->
                fwd_out cache attn hidden;
  (* one draw of torch.multinomial(row, num_samples=1) *)
  draw : rng -> list fval -> option (nat * rng)
}.

(** The contract of [torch.multinomial]: it only returns an index whose
    probability is finite and strictly positive. *)
Definition draw_sound (T : Backend) : Prop :=
  forall g row j g', draw T g row = Some (j, g') -> positive_at row j.

(** [torch.multinomial(scores, num_samples=1)]: one draw per row. *)
Fixpoint multinomial (T : Backend) (g : rng T) (scores : list (list fval))
  : result (list nat * rng T) :=
  match scores with
  | [] => Ok ([], g)
  | row :: rest =>
      match draw T g row with
      | None => Raise SamplingError
      | Some (j, g1) =>
          r <- multinomial T g1 rest ;;
          Ok (j :: fst r, snd r)
      end
  end.

(** ** Small tensor operations on lists *)

Fixpoint zip_with {A B C : Type} (f : A -> B -> C) (l : list A) (l' : list B)
  : list C :=
  match l, l' with
  | x :: r, y :: r' => f x y :: zip_with f r r'
  | _, _ => []
  end.

(** [t.shape[1]] of a batch of sequences. *)
Definition seq_len {A : Type} (t : list (list A)) : nat :=
  match t with
  | [] => 0
  | s :: _ => length s
  end.

(** [t.all()] on a boolean vector. *)
Definition all (v : list bool) : bool := forallb (fun b => b) v.

(** Column [n] of a sequence of token rows: [rows[:, n]]. *)
Definition column (n : nat) (rows : list (list Z)) : list Z :=
  map (fun r => nth n r 0%Z) rows.

(** [idx.view(B, w)]: row [b] is [idx[b*w : (b+1)*w]]. *)
Definition view_rows {A : Type} (B w : nat) (idx : list A) : list (list A) :=
  map (fun b => firstn w (skipn (b * w) idx)) (seq 0 B).

(** [bool(t)] of an integer tensor: defined for exactly one element. *)
Definition tensor_bool (t : list nat) : result bool :=
  match t with
  | [x] => Ok (negb (x =? 0))
  | _ => Raise AmbiguousTruth
  end.

(** [logits / temperature] with [logits] of shape (R, V) and [temperature]
    of shape (T, 1), under the broadcasting rules. *)
Definition div_temperature (logits : list (list fval)) (temperature : list fval)
  : result (list (list fval)) :=
  if length temperature =? length logits then
    Ok (zip_with (fun row t => map (fun x => fdiv x t) row) logits temperature)
  else
    match temperature, logits with
    | [t], _ => Ok (map (fun row => map (fun x => fdiv x t) row) logits)
    | _, [row] => Ok (map (fun t => map (fun x => fdiv x t) row) temperature)
    | _, _ => Raise ShapeError
    end.

Fixpoint set_nth {A : Type} (n : nat) (v : A) (l : list A) : list A :=
  match l, n with
  | [], _ => []
  | _ :: r, 0 => v :: r
  | x :: r, S n' => x :: set_nth n' v r
  end.

(** [row[eos_token] = -inf], with Python's negative indices. *)
Definition set_neg_inf (eos_token : Z) (row : list fval) : result (list fval) :=
  let V := Z.of_nat (length row) in
  if ((0 <=? eos_token) && (eos_token <? V))%Z then
    Ok (set_nth (Z.to_nat eos_token) NegInf row)
  else if ((- V <=? eos_token) && (eos_token <? 0))%Z then
    Ok (set_nth (Z.to_nat (eos_token + V)) NegInf row)
  else Raise IndexError.

(** [logits[:, eos_token] = -torch.inf] *)
Definition suppress_eos (eos_token : Z) (logits : list (list fval))
  : result (list (list fval)) :=
  mapM (set_neg_inf eos_token) logits.

(** [dst[:len(src)] = src] on one row of the mask buffer. *)
Definition assign_prefix (dst src : list bool) : result (list bool) :=
  if length src <=? length dst then Ok (src ++ skipn (length src) dst)
  else if (length dst =? 0) && (length src =? 1) then Ok dst
  else Raise ShapeError.

(** ** The model object, the arguments and the local state of [generate] *)

Record GPT_warpper : Type := {
  num_vq : nat;
  num_audio_tokens : nat;
  num_text_tokens : nat
}.

(** A logits processor or warper: [(token_history, logits) -> logits]. *)
Definition logits_fn : Type :=
  list (list Z) -> list (list fval) -> list (list fval).

Record Args (T : Backend) : Type := {
  emb : embedding T;
  arg_inputs_ids : list (list (list Z));
  temperature : tensor;
  eos_token : Z;
  attention_mask : option (list (list bool));
  max_new_token : nat;
  min_new_token : nat;
  LogitsWarpers : list logits_fn;
  LogitsProcessors : list logits_fn;
  infer_text : bool;
  return_attn : bool;
  return_hidden : bool;
  stream : bool
}.
Arguments emb {T} a.
Arguments arg_inputs_ids {T} a.
Arguments temperature {T} a.
Arguments eos_token {T} a.
Arguments attention_mask {T} a.
Arguments max_new_token {T} a.
Arguments min_new_token {T} a.
Arguments LogitsWarpers {T} a.
Arguments LogitsProcessors {T} a.
Arguments infer_text {T} a.
Arguments return_attn {T} a.
Arguments return_hidden {T} a.
Arguments stream {T} a.

(** The local variables that live across the iterations of the loop,
    and the state of the random generator. *)
Record LoopState (T : Backend) : Type := {
  start_idx : nat;
  temperature_col : list fval;
  attention_mask_cache : list (list bool);
  inputs_ids : list (list (list Z));
  end_idx : list nat;
  finish : list bool;
  past_key_values : option (cache T);
  attentions : list (attn T);
  hiddens : list (list (hidden T));
  generator : rng T
}.
Arguments start_idx {T} l.
Arguments temperature_col {T} l.
Arguments attention_mask_cache {T} l.
Arguments inputs_ids {T} l.
Arguments end_idx {T} l.
Arguments finish {T} l.
Arguments past_key_values {T} l.
Arguments attentions {T} l.
Arguments hiddens {T} l.
Arguments generator {T} l.

(** The ['ids'] entry of a payload: per row a (length, num_vq) block in
    audio mode, and its column 0 in text mode. *)
Inductive ids_t : Type :=
| Codes (rows : list (list (list Z)))
| Text (rows : list (list Z)).

(** A payload is taken as it is when it is yielded (the ['attentions']
    entry is the list the loop keeps appending to). *)
Record Payload (T : Backend) : Type := {
  ids : ids_t;
  p_attentions : list (attn T);
  p_hiddens : list (list (hidden T))
}.
Arguments ids {T} p.
Arguments p_attentions {T} p.
Arguments p_hiddens {T} p.

(** The length of row [r] of an ['ids'] entry. *)
Definition ids_lengths (i : ids_t) : list nat :=
  match i with
  | Codes rows => map (@length _) rows
  | Text rows => map (@length _) rows
  end.

(** [self.logger.warn(f'Incomplete result. hit max_new_token: {n}')] *)
Inductive LogRecord : Type :=
| WARNING (msg : string) (n : nat).

Definition incomplete_msg : string := "Incomplete result. hit max_new_token: ".

(** ** The body of [generate] *)

Section Generate.

Context {T : Backend} (self : GPT_warpper).

(** Lines 257-263 and 265-268: the head bank at the newest position, as
    rows of logits; in audio mode the rows are ordered "(b n)". *)
Definition head_logits (a : Args T) (B : nat)
  (o : fwd_out (cache T) (attn T) (hidden T)) : list (list fval) :=
  if infer_text a then
    map (fun b => map (out_head o b 0) (seq 0 (num_text_tokens self))) (seq 0 B)
  else
    flat_map (fun b =>
                map (fun n => map (out_head o b n) (seq 0 (num_audio_tokens self)))
                    (seq 0 (num_vq self)))
             (seq 0 B).

(** Lines 269-275: the generated history handed to the processors. *)
Definition logits_token (a : Args T) (s : LoopState T) : list (list Z) :=
  if infer_text a then
    map (fun sq => column 0 (skipn (start_idx s) sq)) (inputs_ids s)
  else
    flat_map (fun sq => map (fun n => column n (skipn (start_idx s) sq))
                            (seq 0 (num_vq self)))
             (inputs_ids s).

(** Lines 277-290: from the logits of the heads to the scores. *)
Definition scores_of (a : Args T) (i : nat) (tok : list (list Z))
  (temp : list fval) (logits : list (list fval)) : result (list (list fval)) :=
  logits <- div_temperature logits temp ;;
  let logits := fold_left (fun lg logitsProcessors => logitsProcessors tok lg)
                          (LogitsProcessors a) logits in
  let logits := fold_left (fun lg logitsWarpers => logitsWarpers tok lg)
                          (LogitsWarpers a) logits in
  logits <- (if i <? min_new_token a then suppress_eos (eos_token a) logits
             else Ok logits) ;;
  Ok (softmax (fexp T) logits).

(** The forward pass of one step (lines 222-256). *)
Definition forward_step (a : Args T) (i : nat) (s : LoopState T)
  : fwd_out (cache T) (attn T) (hidden T) :=
  gpt_forward T (infer_text a) (return_attn a) i (emb a) (past_key_values s)
    (inputs_ids s)
    (map (firstn (seq_len (inputs_ids s))) (attention_mask_cache s)).

(** Lines 222-294: the indices drawn at step [i], one per row of logits,
    and the generator after the draw. *)
Definition sample_step (a : Args T) (i : nat) (s : LoopState T)
  : result (list nat * rng T) :=
  let o := forward_step a i s in
  let logits := head_logits a (length (inputs_ids s)) o in
  scores <- scores_of a i (logits_token a s) (temperature_col s) logits ;;
  multinomial T (generator s) scores.

(** Lines 296-307: the sampled indices as one token row per batch row;
    [view] and [torch.cat] need exactly B rows. *)
Definition sampled_rows (a : Args T) (B : nat) (idx_next : list nat)
  : result (list (list Z)) :=
  if infer_text a then
    if length idx_next =? B then Ok (map (fun j => [Z.of_nat j]) idx_next)
    else Raise ShapeError
  else
    if (num_vq self =? 0) || negb (length idx_next =? B * num_vq self)
    then Raise ShapeError
    else Ok (view_rows B (num_vq self) (map Z.of_nat idx_next)).

(** [(idx_next == eos_token).any(1)] on one row. *)
Definition hits_eos (a : Args T) (row : list Z) : bool :=
  existsb (Z.eqb (eos_token a)) row.

(** The row appended to a sequence: the sampled row in audio mode, the
    sampled value expanded to width [num_vq] in text mode. *)
Definition appended_row (a : Args T) (row : list Z) : list Z :=
  if infer_text a then repeat (hd 0%Z row) (num_vq self) else row.

(** [[inputs_ids[idx, start_idx: start_idx+i] for idx, i in
    enumerate(end_idx.int())]], and column 0 of it in text mode. *)
Definition slice_ids (a : Args T) (start : nat) (ids : list (list (list Z)))
  (ends : list nat) : ids_t :=
  let rows := zip_with (fun sq e => firstn e (skipn start sq)) ids ends in
  if infer_text a then Text (map (column 0) rows) else Codes rows.

(** [torch.stack(hiddens, 1)[idx]] *)
Definition stacked_row (hs : list (list (hidden T))) (idx : nat)
  : list (hidden T) :=
  flat_map (fun h => match nth_error h idx with
                     | Some x => [x]
                     | None => []
                     end) hs.

(** [torch.stack(hiddens, 1)] then [[hiddens[idx, :i] for idx, i in
    enumerate(end_idx.int())]] *)
Definition slice_hiddens (hs : list (list (hidden T))) (ends : list nat)
  : result (list (list (hidden T))) :=
  match hs with
  | [] => Raise StackEmpty
  | _ => Ok (map (fun p => firstn (snd p) (stacked_row hs (fst p)))
                 (combine (seq 0 (length ends)) ends))
  end.

(** Lines 312-325: the snapshot of a streaming call, if this step yields
    one.  [Ok None] is the [continue]. *)
Definition stream_snapshot (a : Args T) (s : LoopState T)
  : result (option (Payload T)) :=
  c <- tensor_bool (map (fun e => e mod 24) (end_idx s)) ;;
  if c && negb (all (finish s)) then Ok None
  else
    y_hiddens <- (if return_hidden a then slice_hiddens (hiddens s) (end_idx s)
                  else Ok [[]]) ;;
    Ok (Some {| ids := slice_ids a (start_idx s) (inputs_ids s) (end_idx s);
                p_attentions := attentions s;
                p_hiddens := y_hiddens |}).

(** [torch.cat([inputs_ids, ...], 1)] at lines 302 and 307: the rows to
    append have width [num_vq], and [torch.cat] raises unless the token
    rows already in the buffer have that width too.  (A buffer without a
    token row carries no width in this representation: it stands for the
    tensor whose last dimension is [num_vq].) *)
Definition cat_accepts (ids : list (list (list Z))) : bool :=
  forallb (forallb (fun row => length row =? num_vq self)) ids.

(** The state after the sampled rows are appended and the flags and
    counters updated. *)
Definition advanced (a : Args T) (s : LoopState T)
  (o : fwd_out (cache T) (attn T) (hidden T)) (g' : rng T)
  (rows : list (list Z)) : LoopState T :=
  let finish_or := map (hits_eos a) rows in
  let finish' := zip_with orb (finish s) finish_or in
  {| start_idx := start_idx s;
     temperature_col := temperature_col s;
     attention_mask_cache := attention_mask_cache s;
     inputs_ids := zip_with (fun sq row => sq ++ [appended_row a row])
                            (inputs_ids s) rows;
     end_idx := zip_with (fun e (f : bool) => e + (if f then 0 else 1))
                         (end_idx s) finish';
     finish := finish';
     past_key_values := Some (out_past_key_values o);
     attentions := attentions s ++ [out_attentions o];
     hiddens := if return_hidden a
                then hiddens s ++ [map (out_hidden_last o)
                                       (seq 0 (length (inputs_ids s)))]
                else hiddens s;
     generator := g' |}.

(** Lines 250-255 and 296-311: [torch.cat] raises, or the loop goes on in
    the state [advanced]. *)
Definition advance (a : Args T) (s : LoopState T)
  (o : fwd_out (cache T) (attn T) (hidden T)) (g' : rng T)
  (rows : list (list Z)) : result (LoopState T) :=
  if cat_accepts (inputs_ids s) then Ok (advanced a s o g' rows)
  else Raise ShapeError.

(** One iteration of the loop at index [i] (lines 222-330): the next
    state, the snapshot it yields if any, and whether it breaks. *)
Definition step (a : Args T) (i : nat) (s : LoopState T)
  : result (LoopState T * option (Payload T) * bool) :=
  r <- sample_step a i s ;;
  rows <- sampled_rows a (length (inputs_ids s)) (fst r) ;;
  s' <- advance a s (forward_step a i s) (snd r) rows ;;
  y <- (if stream a then stream_snapshot a s' else Ok None) ;;
  Ok (s', y, all (finish s')).

(** What the loop leaves behind: the payloads yielded, the states after
    each completed iteration, and the state the loop ended in or the
    exception that left it. *)
Record Run : Type := {
  yields : list (Payload T);
  visited : list (LoopState T);
  ended : result (LoopState T)
}.

Definition opt_list {A : Type} (o : option A) : list A :=
  match o with
  | Some x => [x]
  | None => []
  end.

(** [for i in range(max_new_token)], with [n] iterations left. *)
Fixpoint loop (a : Args T) (n i : nat) (s : LoopState T) : Run :=
  match n with
  | 0 => {| yields := []; visited := []; ended := Ok s |}
  | S n' =>
      match step a i s with
      | Raise e => {| yields := []; visited := []; ended := Raise e |}
      | Ok (s', y, brk) =>
          if brk then {| yields := opt_list y; visited := [s']; ended := Ok s' |}
          else
            let r := loop a n' (S i) s' in
            {| yields := opt_list y ++ yields r;
               visited := s' :: visited r;
               ended := ended r |}
      end
  end.

(** Lines 213-215: the attention mask buffer. *)
Definition init_attention_mask_cache (B width : nat)
  (mask : option (list (list bool))) : result (list (list bool)) :=
  let ones := repeat true width in
  match mask with
  | None => Ok (repeat ones B)
  | Some rows =>
      if length rows =? B then mapM (assign_prefix ones) rows
      else
        match rows with
        | [row] => r <- assign_prefix ones row ;; Ok (repeat r B)
        | _ => Raise ShapeError
        end
  end.

(** Lines 204-219: the state before the first iteration. *)
Definition init_state (a : Args T) (g : rng T) : result (LoopState T) :=
  let B := length (arg_inputs_ids a) in
  let start := seq_len (arg_inputs_ids a) in
  temp <- expand_view B (unsqueeze_0 (temperature a)) ;;
  mask <- init_attention_mask_cache B (start + max_new_token a)
            (attention_mask a) ;;
  Ok {| start_idx := start;
        temperature_col := temp;
        attention_mask_cache := mask;
        inputs_ids := arg_inputs_ids a;
        end_idx := repeat 0 B;
        finish := repeat false B;
        past_key_values := None;
        attentions := [];
        hiddens := [];
        generator := g |}.

(** Lines 332-348: the final payload and the warning. *)
Definition final_payload (a : Args T) (s : LoopState T)
  : result (Payload T * list LogRecord) :=
  let ids := slice_ids a (start_idx s) (inputs_ids s) (end_idx s) in
  hs <- (if return_hidden a then slice_hiddens (hiddens s) (end_idx s)
         else Ok (hiddens s)) ;;
  let log := if all (finish s) then []
             else [WARNING incomplete_msg (max_new_token a)] in
  Ok ({| ids := ids; p_attentions := attentions s; p_hiddens := hs |}, log).

(** A whole call of the generator, run to its end. *)
Record Outcome : Type := {
  yielded : list (Payload T);          (* the payloads, in the order yielded *)
  raised : option error;               (* the exception that ended it, if any *)
  log : list LogRecord;
  temperature_after : tensor;          (* the caller's temperature object *)
  trace : list (LoopState T)           (* the state after each completed step *)
}.

Definition generate (a : Args T) (g : rng T) : Outcome :=
  let t' := unsqueeze_0 (temperature a) in
  match init_state a g with
  | Raise e =>
      {| yielded := []; raised := Some e; log := [];
         temperature_after := t'; trace := [] |}
  | Ok s0 =>
      let r := loop a (max_new_token a) 0 s0 in
      match ended r with
      | Raise e =>
          {| yielded := yields r; raised := Some e; log := [];
             temperature_after := t'; trace := visited r |}
      | Ok s =>
          match final_payload a s with
          | Raise e =>
              {| yielded := yields r; raised := Some e; log := [];
                 temperature_after := t'; trace := visited r |}
          | Ok (p, lg) =>
              {| yielded := yields r ++ [p]; raised := None; log := lg;
                 temperature_after := t'; trace := visited r |}
          end
      end
  end.

End Generate.

(** ** What is observed of a call

    The notions in which the properties below are stated: the states a
    call goes through, the rows it samples, the pipeline in the words of
    the specification, the supplied prompt mask, the last payload. *)

(** The last payload that a generator yields. *)
Definition final_yield {A : Type} (l : list A) : option A :=
  last (map Some l) None.

(** The same call with the [stream] flag set to [b]. *)
Definition with_stream {T : Backend} (b : bool) (a : Args T) : Args T :=
  {| emb := emb a;
     arg_inputs_ids := arg_inputs_ids a;
     temperature := temperature a;
     eos_token := eos_token a;
     attention_mask := attention_mask a;
     max_new_token := max_new_token a;
     min_new_token := min_new_token a;
     LogitsWarpers := LogitsWarpers a;
     LogitsProcessors := LogitsProcessors a;
     infer_text := infer_text a;
     return_attn := return_attn a;
     return_hidden := return_hidden a;
     stream := b |}.

(** The pipeline as the specification words it: a list of stages applied
    from left to right. *)
Definition stage : Type := list (list fval) -> result (list (list fval)).

Fixpoint run_stages (st : list stage) (lg : list (list fval))
  : result (list (list fval)) :=
  match st with
  | [] => Ok lg
  | f :: rest => lg' <- f lg ;; run_stages rest lg'
  end.

Section Observe.

Context {T : Backend} (self : GPT_warpper) (a : Args T) (g : rng T).

(** The token rows sampled at step [i] from state [s], one per batch row,
    when the step gets as far as line 307. *)
Definition sampled_at (i : nat) (s : LoopState T) : option (list (list Z)) :=
  match sample_step self a i s with
  | Ok r =>
      match sampled_rows self a (length (inputs_ids s)) (fst r) with
      | Ok rows => Some rows
      | Raise _ => None
      end
  | Raise _ => None
  end.

(** The lengths that the vectors of a state share. *)
Definition shaped (s : LoopState T) : Prop :=
  length (end_idx s) = length (inputs_ids s) /\
  length (finish s) = length (inputs_ids s).

(** The state before the first iteration followed by the states after
    each completed iteration. *)
Definition history : list (LoopState T) :=
  match init_state a g with
  | Ok s0 => s0 :: trace (generate self a g)
  | Raise _ => []
  end.

(** Row [r] samples the end marker at step [j] of the call. *)
Definition marker_sampled (r j : nat) : Prop :=
  exists s rows row,
    nth_error history j = Some s /\
    sampled_at j s = Some rows /\
    nth_error rows r = Some row /\
    hits_eos a row = true.

(** The stages in the order of the specification: temperature, the
    processors, the warpers, the suppression of the end marker below the
    minimum length, the softmax. *)
Definition spec_stages (i : nat) (tok : list (list Z)) (temp : list fval)
  : list stage :=
  [fun lg => div_temperature lg temp]
  ++ map (fun p lg => Ok (p tok lg)) (LogitsProcessors a)
  ++ map (fun w lg => Ok (w tok lg)) (LogitsWarpers a)
  ++ (if i <? min_new_token a then [suppress_eos (eos_token a)] else [])
  ++ [fun lg => Ok (softmax (fexp T) lg)].

Definition spec_sample (i : nat) (s : LoopState T) : result (list nat * rng T) :=
  scores <- run_stages (spec_stages i (logits_token self a s) (temperature_col s))
                       (head_logits self a (length (inputs_ids s))
                                    (forward_step a i s)) ;;
  multinomial T (generator s) scores.

(** The row of the supplied prompt mask that applies to batch row [r]
    (a mask of one row is broadcast over the batch). *)
Definition mask_row (r : nat) : option (list bool) :=
  match attention_mask a with
  | None => None
  | Some rows =>
      if length rows =? length (arg_inputs_ids a) then nth_error rows r
      else match rows with
           | [row] => Some row
           | _ => None
           end
  end.

(** What the buffer holds at position [p] of row [r]: the supplied value
    where the prompt mask has one, [True] elsewhere. *)
Definition expected_mask (r p : nat) : bool :=
  match mask_row r with
  | Some m => match nth_error m p with
              | Some b => b
              | None => true
              end
  | None => true
  end.

(** The supplied mask covers prompt positions only. *)
Definition mask_within_prompt : Prop :=
  forall rows, attention_mask a = Some rows ->
    Forall (fun row => length row <= seq_len (arg_inputs_ids a)) rows.

(** Step 0 is run and samples the end marker in every row. *)
Definition marker_at_step0 : Prop :=
  0 < max_new_token a /\
  exists s0 rows,
    init_state a g = Ok s0 /\
    sampled_at 0 s0 = Some rows /\
    Forall (fun row => hits_eos a row = true) rows.

(** The call returns, and every row of its final payload has [n] token
    rows. *)
Definition returns_rows_of_length (n : nat) : Prop :=
  raised (generate self a g) = None /\
  exists p, final_yield (yielded (generate self a g)) = Some p /\
            ids_lengths (ids p) = repeat n (length (arg_inputs_ids a)).

(** The reading of the specification: the marker is part of the result,
    so each row comes back with one token row. *)
Definition first_step_marker_counted : Prop :=
  marker_at_step0 ->
  length (trace (generate self a g)) = 1 /\ returns_rows_of_length 1.

(** A streaming call ends normally only on a batch of one row. *)
Definition streaming_needs_single_row : Prop :=
  stream a = true ->
  raised (generate self a g) = None ->
  length (arg_inputs_ids a) = 1.

End Observe.

(** ** A concrete backend, to run the loop on examples

    The generator is a tape of numbers; a draw reads one number [k] and
    returns the [k]-th index of positive probability (modulo their count).
    The backbone answers the same logit everywhere, so with V tokens the
    tape entry [k] draws token [k mod V]. *)

Definition valid_prob (x : fval) : bool :=
  match x with
  | Fin p => match qsign p with Lt => false | _ => true end
  | _ => false
  end.

Fixpoint positive_indices (i : nat) (row : list fval) : list nat :=
  match row with
  | [] => []
  | x :: r => if positive x then i :: positive_indices (S i) r
              else positive_indices (S i) r
  end.

Definition tape_draw (g : list nat) (row : list fval) : option (nat * list nat) :=
  if forallb valid_prob row then
    match positive_indices 0 row with
    | [] => None
    | j :: js => Some (nth (hd 0 g mod length (j :: js)) (j :: js) j, tl g)
    end
  else None.

(** A rational stand-in for the exponential: positive and increasing. *)
Definition rat_exp (q : Q) : Q :=
  match qsign q with
  | Lt => (1 / (1 - q))%Q
  | _ => (1 + q)%Q
  end.

Definition flat_forward (infer_text return_attn : bool) (i : nat) (e : unit)
  (c : option nat) (ids : list (list (list Z))) (mask : list (list bool))
  : fwd_out nat nat nat :=
  {| out_past_key_values := S i;
     out_attentions := i;
     out_hidden_last := fun b => 10 * i + b;
     out_head := fun _ _ _ => Fin 0 |}.

Definition tape_backend : Backend :=
  {| cache := nat; attn := nat; hidden := nat; embedding := unit;
     rng := list nat;
     fexp := rat_exp;
     gpt_forward := flat_forward;
     draw := tape_draw |}.

(** Four codebooks would do as well; two keep the examples readable. *)
Definition small_gpt : GPT_warpper :=
  {| num_vq := 2; num_audio_tokens := 3; num_text_tokens := 4 |}.

(** A call in audio mode on a batch of [B] rows with a prompt of one
    position; the end marker is token 2. *)
Definition audio_args (B max_new min_new : nat) (hid str : bool)
  : Args tape_backend :=
  {| emb := (tt : embedding tape_backend);
     arg_inputs_ids := repeat [[0; 0]%Z] B;
     temperature := {| shape := [2]; data := [Fin 1; Fin 1] |};
     eos_token := 2%Z;
     attention_mask := None;
     max_new_token := max_new;
     min_new_token := min_new;
     LogitsWarpers := [];
     LogitsProcessors := [];
     infer_text := false;
     return_attn := false;
     return_hidden := hid;
     stream := str |}.

(** A call in audio mode on two rows with a prompt of two positions and a
    prompt mask that hides the first position of row 0. *)
Definition masked_args : Args tape_backend :=
  {| emb := (tt : embedding tape_backend);
     arg_inputs_ids := [[[0; 0]; [1; 1]]; [[1; 0]; [0; 1]]]%Z;
     temperature := {| shape := [2]; data := [Fin 1; Fin 1] |};
     eos_token := 2%Z;
     attention_mask := Some [[false; true]; [true; true]];
     max_new_token := 3;
     min_new_token := 0;
     LogitsWarpers := [];
     LogitsProcessors := [];
     infer_text := false;
     return_attn := false;
     return_hidden := false;
     stream := false |}.

(** Tapes: the marker for every codebook at once; a run of two rows in
    which row 1 draws the marker at step 1 and row 0 never does. *)
Definition tape_marker : list nat := [2; 2; 2; 2].
Definition tape_staggered : list nat :=
  [0; 1; 0; 0;  1; 1; 0; 2;  0; 0; 1; 1;  1; 0; 0; 0;  0; 1; 1; 1].

(** The state in which a call on one row with the tape [tape_marker]
    enters its first step. *)
Definition first_state : LoopState tape_backend :=
  {| start_idx := 1;
     temperature_col := [Fin 1; Fin 1];
     attention_mask_cache := [[true; true; true; true]];
     inputs_ids := [[[0; 0]%Z]];
     end_idx := [0];
     finish := [false];
     past_key_values := (None : option (cache tape_backend));
     attentions := [];
     hiddens := [];
     generator := (tape_marker : rng tape_backend) |}.

(** ** [prepare_inputs_for_generation] (lines 103-183)

    What the method reads of a cache: a legacy cache is a non-empty tuple
    of per-layer pairs, of which only [past_key_values[0][0].shape[2]] is
    used; of a [Cache] object its truth value, [get_seq_length()], which
    is an int or a tensor of one element as the class of the cache has
    it, and [get_max_length()]. *)

Inductive past_t : Type :=
| LegacyCache (past_len : nat)
| CacheObject (truthy : bool) (seq_length : nat) (seq_length_is_tensor : bool)
              (max_length : option nat).

(** [if past_key_values:] *)
Definition past_truthy (p : option past_t) : bool :=
  match p with
  | None => false
  | Some (LegacyCache _) => true
  | Some (CacheObject b _ _ _) => b
  end.

(** Python's [l[s:]]: a negative [s] counts from the end, and both ends
    are clamped. *)
Definition py_from {A : Type} (s : Z) (l : list A) : list A :=
  let n := Z.of_nat (length l) in
  let start := if (s <? 0)%Z then Z.max (n + s) 0 else Z.min s n in
  skipn (Z.to_nat start) l.

(** [t.shape[-1]] of a batch of sequences of token rows. *)
Definition last_dim {A : Type} (t : list (list (list A))) : nat :=
  match t with
  | (row :: _) :: _ => length row
  | _ => 0
  end.

(** [mask.long().cumsum(-1)] on one row, from the running sum [acc]. *)
Fixpoint cumsum (acc : Z) (m : list bool) : list Z :=
  match m with
  | [] => []
  | b :: r => let acc' := (acc + (if b then 1 else 0))%Z in
              acc' :: cumsum acc' r
  end.

(** Lines 151-152 on one row: [cumsum(-1) - 1], then
    [masked_fill_(attention_mask == 0, 1)]. *)
Definition position_row (m : list bool) : list Z :=
  zip_with (fun (b : bool) c => if b then (c - 1)%Z else 1%Z) m (cumsum 0 m).

Record PrepareArgs (E : Type) : Type := {
  pi_input_ids : list (list (list Z));
  pi_past_key_values : option past_t;
  pi_attention_mask : option (list (list bool));
  pi_inputs_embeds : option E;
  pi_cache_position : option (list nat);
  pi_kw_position_ids : option (list (list Z));   (* kwargs.get("position_ids") *)
  pi_kw_use_cache : option bool                  (* kwargs.get("use_cache") *)
}.
Arguments pi_input_ids {E} p.
Arguments pi_past_key_values {E} p.
Arguments pi_attention_mask {E} p.
Arguments pi_inputs_embeds {E} p.
Arguments pi_cache_position {E} p.
Arguments pi_kw_position_ids {E} p.
Arguments pi_kw_use_cache {E} p.

(** The dictionary [model_inputs]; of the keys ["inputs_embeds"] and
    ["input_ids"] exactly one is present. *)
Record ModelInputs (E : Type) : Type := {
  mi_inputs_embeds : option E;
  mi_input_ids : option (list (list (list Z)));
  mi_position_ids : option (list (list Z));
  mi_cache_position : list nat;
  mi_past_key_values : option past_t;
  mi_use_cache : option bool;
  mi_attention_mask : option (list (list bool))
}.
Arguments mi_inputs_embeds {E} m.
Arguments mi_input_ids {E} m.
Arguments mi_position_ids {E} m.
Arguments mi_cache_position {E} m.
Arguments mi_past_key_values {E} m.
Arguments mi_use_cache {E} m.
Arguments mi_attention_mask {E} m.

(** Lines 115-126: [past_length], [cache_length] and [max_cache_length]
    of a cache.  [cache_position[0]] is a tensor.  At line 122
    [torch.min(max_cache_length, past_length)] is the smaller of two
    tensors; with an int [past_length] it is the minimum along the
    dimension of that number: a tensor without dimensions has dimension 0
    only, and the result is then a pair (values, indices), for which
    [cache_length] is [None] here. *)
Definition cache_lengths (c : past_t) (cache_position : option (list nat))
  : result (nat * option nat * option nat) :=
  match c with
  | CacheObject _ sl sl_is_tensor mx =>
      pl <- match cache_position with
            | Some [] => Raise IndexError
            | Some (p :: _) => Ok (p, true)
            | None => Ok (sl, sl_is_tensor)
            end ;;
      let past_length := fst pl in
      cache_length <- match mx with
                      | None => Ok (Some past_length)
                      | Some m =>
                          if snd pl then Ok (Some (Nat.min m past_length))
                          else if past_length =? 0 then Ok None
                          else Raise IndexError
                      end ;;
      Ok (past_length, cache_length, mx)
  | LegacyCache n => Ok (n, Some n, None)
  end.

(** Lines 132-138: keep only the unprocessed tokens. *)
Definition keep_unprocessed (past_length : nat)
  (attention_mask : option (list (list bool)))
  (input_ids : list (list (list Z))) : list (list (list Z)) :=
  let by_past :=
    if past_length <? seq_len input_ids then map (skipn past_length) input_ids
    else input_ids in
  match attention_mask with
  | Some m =>
      if seq_len input_ids <? seq_len m then
        map (py_from (- (Z.of_nat (seq_len m) - Z.of_nat past_length))) input_ids
      else by_past
  | None => by_past
  end.

(** Lines 141-146: crop the mask when the cache is about to overflow.
    The sum of line 144 is evaluated only when there are a maximum length
    and a mask; a pair cannot be added to a number. *)
Definition crop_mask (cache_length : option nat) (max_cache_length : option nat)
  (input_ids : list (list (list Z)))
  (attention_mask : option (list (list bool)))
  : result (option (list (list bool))) :=
  match max_cache_length, attention_mask with
  | Some mx, Some m =>
      match cache_length with
      | None => Raise OperandError
      | Some cl =>
          Ok (if mx <? cl + seq_len input_ids
              then Some (map (py_from (- Z.of_nat mx)) m)
              else Some m)
      end
  | _, _ => Ok attention_mask
  end.

(** The method; [static_cache] is the attribute [past_key_value] of the
    first attention layer, if it has one. *)
Definition prepare_inputs_for_generation {E : Type}
  (static_cache : option past_t) (x : PrepareArgs E) : result (ModelInputs E) :=
  let has_static_cache :=
    match pi_past_key_values x, static_cache with
    | None, Some _ => true
    | _, _ => false
    end in
  let past_key_values :=
    match pi_past_key_values x with
    | None => static_cache
    | Some c => Some c
    end in
  r <- match past_key_values with
       | None => Ok (0, pi_input_ids x, pi_attention_mask x)
       | Some c =>
           l <- cache_lengths c (pi_cache_position x) ;;
           let input_ids :=
             keep_unprocessed (fst (fst l)) (pi_attention_mask x)
                              (pi_input_ids x) in
           mask <- crop_mask (snd (fst l)) (snd l) input_ids
                             (pi_attention_mask x) ;;
           Ok (fst (fst l), input_ids, mask)
       end ;;
  let past_length := fst (fst r) in
  let input_ids := snd (fst r) in
  let attention_mask := snd r in
  let position_ids :=
    match pi_kw_position_ids x, attention_mask with
    | Some p, _ => Some p
    | None, Some m =>
        let p := map position_row m in
        Some (if past_truthy past_key_values
              then map (py_from (- Z.of_nat (seq_len input_ids))) p
              else p)
    | None, None => None
    end in
  let embeds_only :=
    match pi_inputs_embeds x, past_key_values with
    | Some _, None => true
    | _, _ => false
    end in
  let input_length :=
    match position_ids with
    | Some p => seq_len p
    | None => last_dim input_ids
    end in
  let cache_position :=
    match pi_cache_position x with
    | None => seq past_length input_length
    | Some cp => py_from (- Z.of_nat input_length) cp
    end in
  Ok {| mi_inputs_embeds := if embeds_only then pi_inputs_embeds x else None;
        mi_input_ids := if embeds_only then None else Some input_ids;
        mi_position_ids := position_ids;
        mi_cache_position := cache_position;
        mi_past_key_values := if has_static_cache then None else past_key_values;
        mi_use_cache := pi_kw_use_cache x;
        mi_attention_mask := attention_mask |}.

(** The number of unmasked positions of a mask row. *)
Definition count_true (m : list bool) : nat := length (filter (fun b => b) m).

(** ** [get_emb] (lines 84-101) and the embedding of the newest token
    rows inside the loop (lines 232-237)

    The embedding tables are lists of vectors, one per token; the vectors
    themselves and the sum over the stacked codebook axis are those of the
    tensor library.  [emb_code_w] has [num_vq] tables, as [__init__]
    builds it.  [W] stands for [input_ids.shape[-1]]. *)

Record Embeddings (V : Type) : Type := {
  emb_text_w : list V;
  emb_code_w : list (list V);
  vsum : list V -> V;
  vzero : V
}.
Arguments emb_text_w {V} e.
Arguments emb_code_w {V} e.
Arguments vsum {V} e l.
Arguments vzero {V} e.

(** [nn.Embedding]: an index outside the table raises. *)
Definition embed_lookup {V : Type} (tbl : list V) (idx : Z) : result V :=
  if (idx <? 0)%Z then Raise IndexError
  else match nth_error tbl (Z.to_nat idx) with
       | Some v => Ok v
       | None => Raise IndexError
       end.

(** The mask and the tensor agree on their first two dimensions. *)
Definition same_shape {A B : Type} (x : list (list A)) (y : list (list B))
  : bool :=
  (length x =? length y)
  && forallb (fun b => b) (zip_with (fun r r' => length r =? length r') x y).

(** [t[mask]] (for [keep = true]) and [t[~mask]] (for [keep = false]):
    the selected positions in row-major order. *)
Definition select_row {A : Type} (keep : bool) (mrow : list bool)
  (trow : list A) : list A :=
  map snd (filter (fun p => Bool.eqb (fst p) keep) (combine mrow trow)).

Definition select {A : Type} (keep : bool) (mask : list (list bool))
  (t : list (list A)) : list A :=
  concat (zip_with (select_row keep) mask t).

(** [t[mask] = vals] (or [t[~mask] = vals]) on one row: the new row and
    the values left for the rows below. *)
Fixpoint assign_row {V : Type} (keep : bool) (mrow : list bool)
  (cur vals : list V) : list V * list V :=
  match mrow, cur with
  | b :: mr, c :: cr =>
      if Bool.eqb b keep then
        match vals with
        | v :: vs => let r := assign_row keep mr cr vs in (v :: fst r, snd r)
        | [] => (cur, [])
        end
      else let r := assign_row keep mr cr vals in (c :: fst r, snd r)
  | _, _ => (cur, vals)
  end.

Fixpoint assign_where {V : Type} (keep : bool) (mask : list (list bool))
  (cur : list (list V)) (vals : list V) : list (list V) :=
  match mask, cur with
  | mrow :: mr, crow :: cr =>
      let r := assign_row keep mrow crow vals in
      fst r :: assign_where keep mr cr (snd r)
  | _, _ => cur
  end.

(** A mask that is [b] at every position of [t]. *)
Definition const_mask {A : Type} (b : bool) (t : list (list A))
  : list (list bool) :=
  map (map (fun _ => b)) t.

Section Embedding.

Context {V : Type} (w : Embeddings V) (W : nat).

(** The codebook tables with their indices: [enumerate(self.emb_code)]. *)
Definition code_tables : list (nat * list V) :=
  combine (seq 0 (length (emb_code_w w))) (emb_code_w w).

(** Lines 84-101. *)
Definition get_emb (input_ids : list (list (list Z)))
  (text_mask : list (list bool)) : result (list (list V)) :=
  if negb (same_shape text_mask input_ids) then Raise IndexError
  else if W =? 0 then Raise IndexError
  else
    emb_text <- mapM (fun row => embed_lookup (emb_text_w w) (nth 0 row 0%Z))
                     (select true text_mask input_ids) ;;
    let masked_input_ids := select false text_mask input_ids in
    emb_code <- mapM (fun it =>
                        if fst it <? W then
                          mapM (fun row => embed_lookup (snd it)
                                             (nth (fst it) row 0%Z))
                               masked_input_ids
                        else Raise IndexError)
                     code_tables ;;
    summed <- match emb_code with
              | [] => Raise StackEmpty
              | _ => Ok (map (fun k => vsum w (map (fun col => nth k col (vzero w))
                                                   emb_code))
                             (seq 0 (length masked_input_ids)))
              end ;;
    let emb := map (map (fun _ => vzero w)) input_ids in
    let emb := assign_where true text_mask emb emb_text in
    Ok (assign_where false text_mask emb summed).

(** Lines 232-237: the embedding of the token rows fed to a decode step,
    in text mode or in audio mode. *)
Definition embed_rows (infer_text : bool) (ids : list (list (list Z)))
  : result (list (list V)) :=
  if infer_text then
    if W =? 0 then Raise IndexError
    else mapM (mapM (fun row => embed_lookup (emb_text_w w) (nth 0 row 0%Z))) ids
  else
    code_emb <- mapM (fun it =>
                        if fst it <? W then
                          mapM (mapM (fun row => embed_lookup (snd it)
                                                   (nth (fst it) row 0%Z)))
                               ids
                        else Raise IndexError)
                     code_tables ;;
    match code_emb with
    | [] => Raise StackEmpty
    | _ => Ok (map (fun b =>
                      map (fun p => vsum w (map (fun e => nth p (nth b e [])
                                                              (vzero w))
                                                code_emb))
                          (seq 0 (length (nth b ids []))))
                   (seq 0 (length ids)))
    end.

(** A lookup that is inside its table, as a total function. *)
Definition lookup_total (tbl : list V) (idx : Z) : V :=
  nth (Z.to_nat idx) tbl (vzero w).

(** The vector of one position: the text vector of column 0, or the sum
    over the codebooks of the vector of each column. *)
Definition embed_total (is_text : bool) (row : list Z) : V :=
  if is_text then lookup_total (emb_text_w w) (nth 0 row 0%Z)
  else vsum w (map (fun it => lookup_total (snd it) (nth (fst it) row 0%Z))
                   code_tables).

Definition emb_pointwise (input_ids : list (list (list Z)))
  (text_mask : list (list bool)) : list (list V) :=
  zip_with (fun mrow irow => zip_with embed_total mrow irow) text_mask input_ids.

(** The indices that a position looks up are inside their tables. *)
Definition in_vocab (is_text : bool) (row : list Z) : Prop :=
  if is_text then
    (0 <= nth 0 row 0 < Z.of_nat (length (emb_text_w w)))%Z
  else
    forall it, In it code_tables ->
      (0 <= nth (fst it) row 0 < Z.of_nat (length (snd it)))%Z.

Definition positions_in_vocab (input_ids : list (list (list Z)))
  (text_mask : list (list bool)) : Prop :=
  forall mrow irow b row,
    In (mrow, irow) (combine text_mask input_ids) ->
    In (b, row) (combine mrow irow) ->
    in_vocab b row.

End Embedding.

(** ** Further notions about a call *)

Section ObserveMore.

Context {T : Backend} (self : GPT_warpper) (a : Args T).

(** The prompt is a tensor: every sequence has the length [shape[1]]. *)
Definition rectangular_prompt : Prop :=
  Forall (fun sq => length sq = seq_len (arg_inputs_ids a)) (arg_inputs_ids a).

(** In text mode column 0 of a token row exists. *)
Definition text_column_exists : Prop :=
  infer_text a = true -> 0 < num_vq self.

(** A stored token row that does not hold the end marker: no codebook
    column in audio mode, column 0 in text mode. *)
Definition stored_clean (row : list Z) : Prop :=
  if infer_text a then nth 0 row 0%Z <> eos_token a
  else hits_eos a row = false.

(** An ['ids'] entry in which no token is the end marker. *)
Definition clean_ids (i : ids_t) : Prop :=
  match i with
  | Codes rows => Forall (Forall (fun row => hits_eos a row = false)) rows
  | Text rows => Forall (Forall (fun z => z <> eos_token a)) rows
  end.

(** What row [r] looks like after [t] completed steps: the prompt
    followed by [t] appended rows of width [num_vq], a counter that is [t]
    while the row is unfinished, and no marker among the counted rows. *)
Definition row_inv (t : nat) (s : LoopState T) (r : nat) : Prop :=
  exists sq0 gen e f,
    nth_error (arg_inputs_ids a) r = Some sq0 /\
    nth_error (inputs_ids s) r = Some (sq0 ++ gen) /\
    nth_error (end_idx s) r = Some e /\
    nth_error (finish s) r = Some f /\
    length gen = t /\
    e <= t /\
    (f = false -> e = t) /\
    Forall (fun row => length row = num_vq self) gen /\
    Forall stored_clean (firstn e gen).

End ObserveMore.

(** The snapshots of a call: the payloads yielded inside the loop (lines
    312-325).  A call that ends normally yields its final payload after
    them. *)
Definition snapshots {T : Backend} (o : @Outcome T)
  : list (Payload T) :=
  match raised o with
  | None => removelast (yielded o)
  | Some _ => yielded o
  end.

(** The test of line 313 lets a snapshot of the state through: every row
    is finished, or the counter is a multiple of 24. *)
Definition snapshot_due {T : Backend} (s : LoopState T) : Prop :=
  all (finish s) = true \/ Forall (fun e => e mod 24 = 0) (end_idx s).

(** The reading of the specification: the last snapshot that the
    streaming call emits is the payload of the plain call. *)
Definition final_snapshot_equals_plain {T : Backend} (self : GPT_warpper)
  (a : Args T) (g : rng T) : Prop :=
  forall y,
    final_yield (snapshots (generate self (with_stream true a) g)) = Some y ->
    yielded (generate self (with_stream false a) g) = [y].

(** ** [__init__] (lines 36-75): where the transformer is placed *)

(** [needle in hay] on strings. *)
Fixpoint contains (needle hay : string) : bool :=
  String.prefix needle hay
  || match hay with
     | EmptyString => false
     | String _ rest => contains needle rest
     end.

(** Line 49, on [str(device)]: the device of the transformer and of the
    embedding tables. *)
Definition device_gpt (device : string) : string :=
  if negb (contains "mps" device) then device else "cpu"%string.

(** ** [encode] of [utils/model.py]

    The DVAE and its quantiser belong to the [ChatTTS] package: the
    quantiser is a function of the latents it is given, and it may raise.
    A tensor is its shape and its values in row-major order, with its
    dtype and device beside it. *)

Record meta : Type := { dtype : string; device : string }.

Record itensor : Type := { ishape : list nat; idata : list Z }.

Inductive encode_error (X : Type) : Type :=
| KeyError_dvae                (* chat.pretrain_models['dvae'] *)
| TupleIndexError              (* audio_mel_specs.shape[k] *)
| QuantizerError (x : X)       (* raised inside vq.quantizer *)
| EinopsError.                 (* rearrange of a tensor that is not 4-D *)
Arguments KeyError_dvae {X}.
Arguments TupleIndexError {X}.
Arguments QuantizerError {X} x.
Arguments EinopsError {X}.

(** [torch.zeros(shape)] *)
Definition zeros (sh : list nat) : tensor :=
  {| shape := sh; data := repeat (Fin 0) (fold_right Nat.mul 1 sh) |}.

(** [rearrange(ind, "g b t r ->b t (g r)")] *)
Definition rearrange_gbtr (ind : itensor) : option itensor :=
  match ishape ind with
  | [G; B; T; R] =>
      Some {| ishape := [B; T; G * R];
              idata :=
                flat_map (fun b =>
                  flat_map (fun t =>
                    flat_map (fun g =>
                      firstn R (skipn (((g * B + b) * T + t) * R) (idata ind)))
                      (seq 0 G))
                    (seq 0 T))
                  (seq 0 B) |}
  | _ => None
  end.

(** Lines 9-32.  [dvae] is the ['dvae'] entry of [chat.pretrain_models],
    if there is one, seen through its quantiser. *)
Definition encode {F X : Type}
  (dvae : option (tensor -> meta -> X + F * itensor))
  (audio_mel_specs : tensor) (m : meta) : encode_error X + F * itensor :=
  match dvae with
  | None => inl KeyError_dvae
  | Some quantizer =>
      match nth_error (shape audio_mel_specs) 0,
            nth_error (shape audio_mel_specs) 1 with
      | Some batch_size, Some frames =>
          let audio_len := frames / 2 in
          let latents := zeros [batch_size; audio_len; 1024] in
          match quantizer latents m with
          | inl x => inl (QuantizerError x)
          | inr (feat, ind) =>
              match rearrange_gbtr ind with
              | Some audio_input_ids => inr (feat, audio_input_ids)
              | None => inl EinopsError
              end
          end
      | _, _ => inl TupleIndexError
      end
  end.

(** ** [examples/web/funcs.py]

    The [Chat] object, the normalizers and the notifications of the user
    interface are collaborators: the module is modelled over the state
    [C] of the [Chat] object and what its methods do with it. *)

(** A raised exception, as far as this module tells exceptions apart. *)
Inductive raised_exn : Type :=
| TypeError (msg : string)          (* raised by the interpreter *)
| GradioError (msg : string)        (* gr.Error(msg) *)
| Foreign (is_Exception : bool) (text : string).
    (* raised by a collaborator: whether its class derives from
       [Exception], and its [str()] *)

(** [isinstance(e, Exception)] and [str(e)] *)
Definition is_exception (e : raised_exn) : bool :=
  match e with
  | TypeError _ | GradioError _ => true
  | Foreign b _ => b
  end.

Definition exn_str (e : raised_exn) : string :=
  match e with
  | TypeError msg | GradioError msg => msg
  | Foreign _ text => text
  end.

(** Lines 21-32: each voice with the value of its ['seed'] entry. *)
Definition voices : list (string * Z) :=
  [("Default", 2); ("Timbre1", 1111); ("Timbre2", 2222); ("Timbre3", 3333);
   ("Timbre4", 4444); ("Timbre5", 5555); ("Timbre6", 6666);
   ("Timbre7", 7777); ("Timbre8", 8888); ("Timbre9", 9999)]%Z%string.

(** [d.get(k)] *)
Fixpoint dict_get {A : Type} (k : string) (d : list (string * A)) : option A :=
  match d with
  | [] => None
  | (k', v) :: rest => if String.eqb k k' then Some v else dict_get k rest
  end.

Definition none_not_subscriptable : string :=
  "'NoneType' object is not subscriptable".

(** Lines 38-39. *)
Definition on_voice_change (vocie_selection : string) : raised_exn + Z :=
  match dict_get vocie_selection voices with
  | Some entry => inr entry
  | None => inl (TypeError none_not_subscriptable)
  end.

(** What is shown or logged, in order. *)
Inductive notice : Type :=
| LoggerInfo (msg : string)
| LoggerWarning (msg : string)
| GrInfo (msg : string)
| GrWarning (msg : string).

(** The two ways [load_chat] calls [chat.load_models]. *)
Inductive load_call : Type :=
| LoadDefault (coef : option string) (compile : bool)
| LoadCustom (custom_path : string) (coef : option string) (compile : bool).

Record Collaborators (C N : Type) : Type := {
  platform : string;                                   (* sys.platform *)
  load_models : load_call -> C -> (raised_exn + bool) * C;
  unload : C -> option raised_exn * C;                 (* [None]: it returns *)
  chat_coef : C -> string;                             (* chat.coef *)
  normalizer_en_nemo_text : option N;                  (* [None]: it raises *)
  normalizer_zh_tn : option N;
  register : string -> N -> C -> bool * C              (* [false]: it raises *)
}.
Arguments platform {C N} c.
Arguments load_models {C N} c.
Arguments unload {C N} c.
Arguments chat_coef {C N} c.
Arguments normalizer_en_nemo_text {C N} c.
Arguments normalizer_zh_tn {C N} c.
Arguments register {C N} c.

(** The module's globals and what the user has been shown. *)
Record Web (C : Type) : Type := {
  chat : C;
  custom_path : option string;
  notices : list notice
}.
Arguments chat {C} w.
Arguments custom_path {C} w.
Arguments notices {C} w.

Definition say {C : Type} (n : list notice) (w : Web C) : Web C :=
  {| chat := chat w; custom_path := custom_path w;
     notices := notices w ++ n |}.

Definition set_chat {C : Type} (c : C) (w : Web C) : Web C :=
  {| chat := c; custom_path := custom_path w; notices := notices w |}.

Definition set_custom_path {C : Type} (p : string) (w : Web C) : Web C :=
  {| chat := chat w; custom_path := Some p; notices := notices w |}.

(** [len(s)] of a Python string, held here as its UTF-8 bytes: the number
    of code points, which is the number of bytes that are not continuation
    bytes (10xxxxxx). *)
Definition is_continuation_byte (c : Ascii.ascii) : bool :=
  (128 <=? Ascii.nat_of_ascii c) && (Ascii.nat_of_ascii c <? 192).

Definition py_len (s : string) : nat :=
  length (filter (fun c => negb (is_continuation_byte c))
                 (list_ascii_of_string s)).

Section WebFuncs.

Context {C N : Type} (ext : Collaborators C N).

(** The call of lines 43 and 46. *)
Definition load_request (cust_path coef : option string) : load_call :=
  let compile := negb (String.eqb (platform ext) "win32") in
  match cust_path with
  | None => LoadDefault coef compile
  | Some p => LoadCustom p coef compile
  end.

(** One [try: chat.normalizer.register(lang, make()) except: warn]. *)
Definition try_register (lang : string) (make : option N)
  (warnings : list notice) (w : Web C) : Web C :=
  match make with
  | None => say warnings w
  | Some n =>
      let r := register ext lang n (chat w) in
      if fst r then set_chat (snd r) w
      else say warnings (set_chat (snd r) w)
  end.

Definition en_warnings : list notice :=
  [LoggerWarning "Package nemo_text_processing not found!";
   LoggerWarning "Run: conda install -c conda-forge pynini=2.1.5 && pip install nemo_text_processing"].

Definition zh_warnings : list notice :=
  [LoggerWarning "Package WeTextProcessing not found!";
   LoggerWarning "Run: conda install -c conda-forge pynini=2.1.5 && pip install WeTextProcessing"].

(** Lines 41-64. *)
Definition load_chat (cust_path coef : option string) (w : Web C)
  : (raised_exn + bool) * Web C :=
  let w1 := match cust_path with
            | None => w
            | Some p => say [LoggerInfo ("local model path: " ++ p)] w
            end in
  let r := load_models ext (load_request cust_path coef) (chat w1) in
  let w2 := set_chat (snd r) w1 in
  match fst r with
  | inl e => (inl e, w2)
  | inr ret =>
      let w3 := match cust_path with
                | None => w2
                | Some p => set_custom_path p w2
                end in
      if ret then
        let w4 := try_register "en" (normalizer_en_nemo_text ext) en_warnings w3 in
        let w5 := try_register "zh" (normalizer_zh_tn ext) zh_warnings w4 in
        (inr ret, w5)
      else (inr ret, w3)
  end.

Definition none_has_no_len : string :=
  "object of type 'NoneType' has no len()".

(** Lines 66-80. *)
Definition reload_chat (coef : option string) (w : Web C)
  : (raised_exn + string) * Web C :=
  let u := unload ext (chat w) in
  let w0 := set_chat (snd u) w in
  match fst u with
  | Some e => (inl e, w0)
  | None =>
      let w1 := say [GrInfo "Model unloaded."] w0 in
      match coef with
      | None => (inl (TypeError none_has_no_len), w1)
      | Some c =>
          let valid := py_len c =? 230 in
          let w2 := if valid then w1
                    else say [GrWarning "Ingore invalid DVAE coefficient."] w1 in
          let coef' := if valid then Some c else None in
          let r := load_chat (custom_path w2) coef' w2 in
          match fst r with
          | inl e =>
              if is_exception e then (inl (GradioError (exn_str e)), snd r)
              else (inl e, snd r)
          | inr ret =>
              if ret
              then (inr (chat_coef ext (chat (snd r))),
                    say [GrInfo "Reload succeess."] (snd r))
              else (inl (GradioError "Unable to load model."), snd r)
          end
      end
  end.

End WebFuncs.

(** ** Example inputs for the functions around the loop *)

(** A decode step on one row of three positions, the first of them
    padding, with two positions already in the cache. *)
Definition decode_inputs : PrepareArgs unit :=
  {| pi_input_ids := [[[0; 0]; [1; 1]; [2; 0]]]%Z;
     pi_past_key_values := Some (LegacyCache 2);
     pi_attention_mask := Some [[false; true; true]];
     pi_inputs_embeds := None;
     pi_cache_position := None;
     pi_kw_position_ids := None;
     pi_kw_use_cache := Some true |}.

Definition decode_outputs : ModelInputs unit :=
  {| mi_inputs_embeds := None;
     mi_input_ids := Some [[[2; 0]]]%Z;
     mi_position_ids := Some [[1]]%Z;
     mi_cache_position := [2];
     mi_past_key_values := Some (LegacyCache 2);
     mi_use_cache := Some true;
     mi_attention_mask := Some [[false; true; true]] |}.

(** Embedding tables over numbers: three text tokens, and two codebooks
    of two tokens each; the sum over the codebooks is the sum. *)
Definition number_tables : Embeddings Z :=
  {| emb_text_w := [10; 11; 12]%Z;
     emb_code_w := [[100; 200]; [1000; 2000]]%Z;
     vsum := fold_right Z.add 0%Z;
     vzero := 0%Z |}.

(** One row of two positions, a text position and an audio position. *)
Definition mixed_ids : list (list (list Z)) := [[[2; 0]; [1; 0]]]%Z.
Definition mixed_mask : list (list bool) := [[true; false]].

(** The payload of the plain call on two rows with the tape
    [tape_staggered] and at most five steps, and of the same call with
    the hidden states and at most two steps. *)
Definition staggered_payload : Payload tape_backend :=
  {| ids := Codes [[[0; 1]; [1; 1]; [0; 0]; [1; 0]; [0; 1]]; [[0; 0]]]%Z;
     p_attentions := ([0; 1; 2; 3; 4] : list (attn tape_backend));
     p_hiddens := ([] : list (list (hidden tape_backend))) |}.

Definition staggered_hidden_payload : Payload tape_backend :=
  {| ids := Codes [[[0; 1]; [1; 1]]; [[0; 0]]]%Z;
     p_attentions := ([0; 1] : list (attn tape_backend));
     p_hiddens := ([[0; 10]; [1]] : list (list (hidden tape_backend))) |}.

(** Two spectrograms of one row that differ in their values and in their
    number of frames, four and five, and a quantiser that answers with
    indices of the documented shape. *)
Definition mel_four : tensor :=
  {| shape := [1; 4; 1]; data := [Fin 1; Fin 2; Fin 3; Fin 4] |}.
Definition mel_five : tensor :=
  {| shape := [1; 5; 1]; data := [Fin 5; Fin 6; Fin 7; Fin 8; Fin 9] |}.
Definition cpu_float : meta := {| dtype := "float32"; device := "cpu" |}.

Definition counting_quantizer (latents : tensor) (m : meta)
  : string + nat * itensor :=
  match shape latents with
  | [B; T; _] =>
      inr (length (data latents),
           {| ishape := [2; B; T; 2];
              idata := map Z.of_nat (seq 0 (2 * B * T * 2)) |})
  | _ => inl "expected three dimensions"%string
  end.

(** Collaborators for the web functions: the state of the [Chat] object
    is whether a model is loaded; loading works, the English normalizer
    is not installed. *)
Definition toy_collaborators : Collaborators bool unit :=
  {| platform := "linux";
     load_models := fun _ _ => (inr true, true);
     unload := fun _ => (None, false);
     chat_coef := fun c => if c then "coef"%string else ""%string;
     normalizer_en_nemo_text := None;
     normalizer_zh_tn := Some tt;
     register := fun _ _ c => (true, c) |}.


Definition toy_web : Web bool :=
  {| chat := true; custom_path := Some "models"%string; notices := [] |}.

(** * Properties *)

(** ** The error monad and the list operations *)

Lemma bind_Ok {A B : Type} (r : result A) (k : A -> result B) (b : B) :
  bind r k = Ok b -> exists a, r = Ok a /\ k a = Ok b.
Proof.
  destruct r as [a|e]; simpl; intros H; [eauto | discriminate].
Qed.

(** Take a successful [bind] apart: [H : (x <- c ;; k) = Ok b] becomes
    [Hx : c = Ok x] and [H : k x = Ok b]. *)
Tactic Notation "inv_bind" hyp(H) "as" simple_intropattern(x)
  simple_intropattern(Hx) :=
  apply bind_Ok in H; destruct H as [x [Hx H]].

Lemma mapM_Ok_Forall2 {A B : Type} (f : A -> result B) (l : list A) (l' : list B) :
  mapM f l = Ok l' -> Forall2 (fun x y => f x = Ok y) l l'.
Proof.
  revert l'. induction l as [|x xs IH]; simpl; intros l' H.
  - inversion H. constructor.
  - inv_bind H as y Hy.
    inv_bind H as ys Hys.
    inversion H; subst. constructor; auto.
Qed.

Lemma mapM_Ok_In {A B : Type} (f : A -> result B) (l : list A) (l' : list B)
  (y : B) :
  mapM f l = Ok l' -> In y l' -> exists x, In x l /\ f x = Ok y.
Proof.
  intros H. apply mapM_Ok_Forall2 in H.
  induction H as [|x y' l l' Hxy _ IH]; simpl; intros Hin; [contradiction|].
  destruct Hin as [->|Hin]; [eauto|].
  destruct (IH Hin) as [x' [Hx' Hf]]. eauto.
Qed.

Lemma zip_with_length {A B C : Type} (f : A -> B -> C) (l : list A) (l' : list B) :
  length l = length l' -> length (zip_with f l l') = length l.
Proof.
  revert l'. induction l as [|x r IH]; destruct l' as [|y r']; simpl;
    intros H; try discriminate; auto.
Qed.

Lemma zip_with_nth_error {A B C : Type} (f : A -> B -> C) (l : list A)
  (l' : list B) (n : nat) :
  nth_error (zip_with f l l') n =
  match nth_error l n, nth_error l' n with
  | Some x, Some y => Some (f x y)
  | _, _ => None
  end.
Proof.
  revert l' n. induction l as [|x r IH]; intros l' n.
  - destruct n; reflexivity.
  - destruct l' as [|y r'].
    + destruct n; simpl; [reflexivity|]. destruct (nth_error r n); reflexivity.
    + destruct n; simpl; [reflexivity | apply IH].
Qed.

Lemma In_firstn {A : Type} (n : nat) (l : list A) (x : A) :
  In x (firstn n l) -> In x l.
Proof.
  intros H. rewrite <- (firstn_skipn n l). apply in_or_app. left. exact H.
Qed.

Lemma In_skipn {A : Type} (n : nat) (l : list A) (x : A) :
  In x (skipn n l) -> In x l.
Proof.
  intros H. rewrite <- (firstn_skipn n l). apply in_or_app. right. exact H.
Qed.

Lemma view_rows_length {A : Type} (B w : nat) (l : list A) :
  length (view_rows B w l) = B.
Proof.
  unfold view_rows. rewrite length_map, length_seq. reflexivity.
Qed.

Lemma view_rows_In {A : Type} (B w : nat) (l : list A) (row : list A) (x : A) :
  In row (view_rows B w l) -> In x row -> In x l.
Proof.
  unfold view_rows. rewrite in_map_iff. intros [b [Hb _]] Hx. subst row.
  apply In_firstn, In_skipn in Hx. exact Hx.
Qed.

(** ** One step of the loop, taken apart *)

Section StepFacts.

Context {T : Backend} (self : GPT_warpper) (a : Args T).

Lemma sampled_rows_length (B : nat) (idx : list nat) (rows : list (list Z)) :
  sampled_rows self a B idx = Ok rows -> length rows = B.
Proof.
  unfold sampled_rows. destruct (infer_text a).
  - destruct (Nat.eqb_spec (length idx) B); intros H; inversion H.
    rewrite length_map. assumption.
  - destruct (_ || _); intros H; inversion H. apply view_rows_length.
Qed.

Lemma step_inv (i : nat) (s s' : LoopState T) (y : option (Payload T)) (brk : bool) :
  step self a i s = Ok (s', y, brk) ->
  exists rows,
    sampled_at self a i s = Some rows /\
    length rows = length (inputs_ids s) /\
    finish s' = zip_with orb (finish s) (map (hits_eos a) rows) /\
    end_idx s' = zip_with (fun e (f : bool) => e + (if f then 0 else 1))
                          (end_idx s) (finish s') /\
    inputs_ids s' = zip_with (fun sq row => sq ++ [appended_row self a row])
                             (inputs_ids s) rows /\
    start_idx s' = start_idx s /\
    attention_mask_cache s' = attention_mask_cache s /\
    temperature_col s' = temperature_col s /\
    (return_hidden a = true -> hiddens s' <> []) /\
    (return_hidden a = false -> hiddens s' = hiddens s) /\
    attentions s' = attentions s ++ [out_attentions (forward_step a i s)] /\
    brk = all (finish s') /\
    y = match (if stream a then stream_snapshot a s' else Ok None) with
        | Ok y' => y'
        | Raise _ => None
        end /\
    (if stream a then stream_snapshot a s' else Ok None) = Ok y.
Proof.
  unfold step, sampled_at. intros H.
  inv_bind H as r Hr.
  inv_bind H as rows Hrows.
  inv_bind H as s1 Hs1.
  inv_bind H as y' Hy.
  inversion H; subst; clear H.
  unfold advance in Hs1.
  destruct (cat_accepts self (inputs_ids s)); [|discriminate].
  inversion Hs1; subst; clear Hs1.
  exists rows. rewrite Hr, Hrows. unfold advanced at 1. simpl. rewrite Hy.
  repeat split; try reflexivity.
  - eapply sampled_rows_length; eauto.
  - intros Hh. rewrite Hh. destruct (hiddens s); discriminate.
  - intros Hh. rewrite Hh. reflexivity.
Qed.

Lemma step_shaped (i : nat) (s s' : LoopState T) y brk :
  shaped s -> step self a i s = Ok (s', y, brk) -> shaped s'.
Proof.
  intros [He Hf] H. apply step_inv in H.
  destruct H as [rows [_ [Hl [Hfin [Hend [Hids _]]]]]].
  assert (Hf' : length (finish s') = length (inputs_ids s)).
  { rewrite Hfin, zip_with_length; rewrite ?length_map; congruence. }
  assert (Hi' : length (inputs_ids s') = length (inputs_ids s)).
  { rewrite Hids, zip_with_length; congruence. }
  split.
  - rewrite Hend, zip_with_length; congruence.
  - congruence.
Qed.

(** ** The loop: consecutive states are related by [step] *)

Lemma loop_visited_length (n i : nat) (s : LoopState T) :
  length (visited (loop self a n i s)) <= n.
Proof.
  revert i s. induction n as [|n IH]; intros i s; simpl; [lia|].
  destruct (step self a i s) as [[[s' y] brk]|e]; simpl; [|lia].
  destruct brk; simpl; [lia|]. specialize (IH (S i) s'). lia.
Qed.

Lemma loop_consecutive (n i : nat) (s : LoopState T) (k : nat)
  (s1 s2 : LoopState T) :
  nth_error (s :: visited (loop self a n i s)) k = Some s1 ->
  nth_error (s :: visited (loop self a n i s)) (S k) = Some s2 ->
  exists y brk, step self a (i + k) s1 = Ok (s2, y, brk).
Proof.
  revert i s k. induction n as [|n IH]; intros i s k; simpl.
  - destruct k; simpl; discriminate.
  - destruct (step self a i s) as [[[s' y] brk]|e] eqn:Hs; simpl.
    + destruct brk; simpl.
      * destruct k as [|k]; simpl.
        -- intros H1 H2. inversion H1; inversion H2; subst.
           rewrite Nat.add_0_r. eauto.
        -- destruct k; simpl; discriminate.
      * destruct k as [|k].
        -- simpl. intros H1 H2. inversion H1; inversion H2; subst.
           rewrite Nat.add_0_r. eauto.
        -- intros H1 H2. change (nth_error (s' :: visited (loop self a n (S i) s')) k = Some s1) in H1.
           change (nth_error (s' :: visited (loop self a n (S i) s')) (S k) = Some s2) in H2.
           destruct (IH (S i) s' k H1 H2) as [y' [b' H']].
           replace (i + S k) with (S i + k) by lia. eauto.
    + destruct k; simpl; discriminate.
Qed.

Lemma loop_shaped (n i : nat) (s : LoopState T) :
  shaped s -> Forall shaped (visited (loop self a n i s)).
Proof.
  revert i s. induction n as [|n IH]; intros i s Hs; simpl; [constructor|].
  destruct (step self a i s) as [[[s' y] brk]|e] eqn:Hst; simpl; [|constructor].
  pose proof (step_shaped _ _ _ _ _ Hs Hst) as Hs'.
  destruct brk; simpl; constructor; auto.
Qed.

End StepFacts.

(** ** The states of a call *)

Section CallFacts.

Context {T : Backend} (self : GPT_warpper) (a : Args T) (g : rng T).

Lemma trace_generate (s0 : LoopState T) :
  init_state a g = Ok s0 ->
  trace (generate self a g) = visited (loop self a (max_new_token a) 0 s0).
Proof.
  intros H. unfold generate. rewrite H.
  destruct (ended _); [destruct (final_payload _ _) as [[p lg]|e]|]; reflexivity.
Qed.

Lemma init_state_inv (s0 : LoopState T) :
  init_state a g = Ok s0 ->
  inputs_ids s0 = arg_inputs_ids a /\
  end_idx s0 = repeat 0 (length (arg_inputs_ids a)) /\
  finish s0 = repeat false (length (arg_inputs_ids a)) /\
  start_idx s0 = seq_len (arg_inputs_ids a) /\
  hiddens s0 = [] /\
  init_attention_mask_cache (length (arg_inputs_ids a))
    (seq_len (arg_inputs_ids a) + max_new_token a) (attention_mask a)
  = Ok (attention_mask_cache s0).
Proof.
  unfold init_state. intros H.
  inv_bind H as temp _.
  inv_bind H as mask Hm.
  inversion H; subst; simpl. repeat split; auto.
Qed.

Lemma init_shaped (s0 : LoopState T) : init_state a g = Ok s0 -> shaped s0.
Proof.
  intros H. apply init_state_inv in H.
  destruct H as [Hi [He [Hf _]]]. unfold shaped.
  rewrite Hi, He, Hf, !repeat_length. auto.
Qed.

Lemma history_length : length (history self a g) <= S (max_new_token a).
Proof.
  unfold history. destruct (init_state a g) as [s0|e] eqn:H; simpl; [|lia].
  rewrite (trace_generate s0 H).
  pose proof (loop_visited_length self a (max_new_token a) 0 s0). lia.
Qed.

Lemma history_step (t : nat) (s s' : LoopState T) :
  nth_error (history self a g) t = Some s ->
  nth_error (history self a g) (S t) = Some s' ->
  exists y brk, step self a t s = Ok (s', y, brk).
Proof.
  unfold history. destruct (init_state a g) as [s0|e] eqn:H.
  - rewrite (trace_generate s0 H). intros H1 H2.
    apply (loop_consecutive self a _ 0 s0 t s s' H1 H2).
  - destruct t; discriminate.
Qed.

Lemma history_prefix (t : nat) (s' : LoopState T) :
  nth_error (history self a g) (S t) = Some s' -> exists s, nth_error (history self a g) t = Some s.
Proof.
  intros H. destruct (nth_error (history self a g) t) as [s|] eqn:E; [eauto|].
  apply nth_error_None in E.
  assert (nth_error (history self a g) (S t) = None) by (apply nth_error_None; lia).
  congruence.
Qed.

Lemma history_shaped (t : nat) (s : LoopState T) :
  nth_error (history self a g) t = Some s -> shaped s.
Proof.
  unfold history. destruct (init_state a g) as [s0|e] eqn:H.
  - rewrite (trace_generate s0 H). intros Hn.
    pose proof (init_shaped s0 H) as Hs0.
    pose proof (loop_shaped self a (max_new_token a) 0 s0 Hs0) as Hall.
    destruct t; simpl in Hn.
    + inversion Hn; subst; auto.
    + rewrite Forall_forall in Hall. apply Hall. eapply nth_error_In; eauto.
  - destruct t; discriminate.
Qed.

(** The counter of a row is at most the number of completed steps. *)
Lemma end_idx_le_steps (t : nat) (s : LoopState T) (r e : nat) :
  nth_error (history self a g) t = Some s ->
  nth_error (end_idx s) r = Some e -> e <= t.
Proof.
  revert s e. induction t as [|t IH]; intros s e Hs He.
  - unfold history in Hs. destruct (init_state a g) as [s0|] eqn:H; [|discriminate].
    simpl in Hs. inversion Hs; subst.
    apply init_state_inv in H. destruct H as [_ [Hend _]].
    rewrite Hend in He. apply nth_error_In, repeat_spec in He. lia.
  - destruct (history_prefix t s Hs) as [s1 Hs1].
    destruct (history_step t s1 s Hs1 Hs) as [y [brk Hst]].
    apply step_inv in Hst. destruct Hst as [rows [_ [_ [_ [Hend _]]]]].
    rewrite Hend, zip_with_nth_error in He.
    destruct (nth_error (end_idx s1) r) as [e1|] eqn:E1; [|discriminate].
    destruct (nth_error (finish s) r) as [f|]; [|discriminate].
    inversion He; subst. specialize (IH s1 e1 Hs1 E1).
    destruct f; lia.
Qed.

(** A row is flagged finished exactly when it has sampled the marker at
    an earlier step. *)
Lemma finish_iff_marker (t : nat) (s : LoopState T) (r : nat) (f : bool) :
  nth_error (history self a g) t = Some s ->
  nth_error (finish s) r = Some f ->
  (f = true <-> exists j, j < t /\ marker_sampled self a g r j).
Proof.
  revert s f. induction t as [|t IH]; intros s f Hs Hf.
  - unfold history in Hs. destruct (init_state a g) as [s0|] eqn:H; [|discriminate].
    simpl in Hs. inversion Hs; subst.
    apply init_state_inv in H. destruct H as [_ [_ [Hfin _]]].
    rewrite Hfin in Hf. apply nth_error_In, repeat_spec in Hf. subst f.
    split; [discriminate|]. intros [j [Hj _]]. lia.
  - destruct (history_prefix t s Hs) as [s1 Hs1].
    destruct (history_step t s1 s Hs1 Hs) as [y [brk Hst]].
    apply step_inv in Hst. destruct Hst as [rows [Hrows [_ [Hfin _]]]].
    rewrite Hfin, zip_with_nth_error in Hf.
    destruct (nth_error (finish s1) r) as [f1|] eqn:E1; [|discriminate].
    rewrite nth_error_map in Hf.
    destruct (nth_error rows r) as [row|] eqn:Er; [|discriminate].
    simpl in Hf. inversion Hf; subst f; clear Hf.
    specialize (IH s1 f1 Hs1 E1). split.
    + intros Hor. apply orb_true_iff in Hor. destruct Hor as [H1|H2].
      * apply IH in H1. destruct H1 as [j [Hj Hm]]. exists j. split; [lia|auto].
      * exists t. split; [lia|]. exists s1, rows, row. auto.
    + intros [j [Hj Hm]]. apply orb_true_iff.
      destruct (Nat.eq_dec j t) as [->|Hne].
      * right. destruct Hm as [s2 [rows2 [row2 [H1 [H2 [H3 H4]]]]]].
        rewrite Hs1 in H1. inversion H1; subst s2.
        rewrite Hrows in H2. inversion H2; subst rows2.
        rewrite Er in H3. inversion H3; subst row2. exact H4.
      * left. apply IH. exists j. split; [lia|auto].
Qed.

End CallFacts.

(** ** The emitted-length counter *)

(** C2: at every step of every call and for every row, [end_idx] is at most
    [max_new_token], does not decrease, and stays put at a step exactly
    when the row has sampled the end marker at that step or before: it
    grows by one at each step before the first marker and is frozen from
    that step on. *)
Theorem end_idx_bounded_monotone_frozen {T : Backend} (self : GPT_warpper)
  (a : Args T) (g : rng T) (t : nat) (s s' : LoopState T) (r e e' : nat) :
  nth_error (history self a g) t = Some s ->
  nth_error (history self a g) (S t) = Some s' ->
  nth_error (end_idx s) r = Some e ->
  nth_error (end_idx s') r = Some e' ->
  e' <= max_new_token a /\
  e <= e' /\
  (e' = e <-> exists j, j <= t /\ marker_sampled self a g r j) /\
  (e' <> e -> e' = e + 1).
Proof.
  intros Hs Hs' He He'.
  pose proof (end_idx_le_steps self a g (S t) s' r e' Hs' He') as Hle.
  pose proof (history_length self a g) as Hlen.
  assert (Hlt : S t < length (history self a g)).
  { apply nth_error_Some. congruence. }
  destruct (history_step self a g t s s' Hs Hs') as [y [brk Hst]].
  apply step_inv in Hst. destruct Hst as [rows [_ [_ [_ [Hend _]]]]].
  rewrite Hend, zip_with_nth_error, He in He'.
  destruct (nth_error (finish s') r) as [f|] eqn:Ef; [|discriminate].
  inversion He'; subst e'; clear He'.
  pose proof (finish_iff_marker self a g (S t) s' r f Hs' Ef) as Hiff.
  split; [lia|]. split; [lia|]. split.
  - split.
    + intros Heq. destruct f; [|lia].
      destruct (proj1 Hiff eq_refl) as [j [Hj Hm]]. exists j. split; [lia|auto].
    + intros [j [Hj Hm]]. assert (f = true) as ->.
      { apply Hiff. exists j. split; [lia|auto]. }
      lia.
  - destruct f; lia.
Qed.

(** ** The end marker is not drawn before the minimum length *)

Lemma set_nth_same {A : Type} (n : nat) (v : A) (l : list A) :
  n < length l -> nth_error (set_nth n v l) n = Some v.
Proof.
  revert n. induction l as [|x r IH]; intros n H; simpl in *; [lia|].
  destruct n; simpl; [reflexivity|]. apply IH. lia.
Qed.

Lemma set_neg_inf_at (e : Z) (row row' : list fval) :
  (0 <= e)%Z -> set_neg_inf e row = Ok row' ->
  nth_error row' (Z.to_nat e) = Some NegInf.
Proof.
  unfold set_neg_inf. intros He.
  destruct ((0 <=? e)%Z && (e <? Z.of_nat (length row))%Z) eqn:E1.
  - apply andb_true_iff in E1. destruct E1 as [_ E1]. apply Z.ltb_lt in E1.
    intros H. inversion H. apply set_nth_same. lia.
  - destruct ((- Z.of_nat (length row) <=? e)%Z && (e <? 0)%Z) eqn:E2;
      [|discriminate].
    apply andb_true_iff in E2. destruct E2 as [_ E2]. apply Z.ltb_lt in E2. lia.
Qed.

Lemma softmax_row_neg_inf (fe : Q -> Q) (row : list fval) (j : nat) (x : fval) :
  nth_error row j = Some NegInf ->
  nth_error (softmax_row fe row) j = Some x ->
  positive x = false.
Proof.
  unfold softmax_row. intros Hj.
  destruct (existsb is_nan row || existsb is_posinf row).
  { rewrite nth_error_map, Hj. simpl. intros H. inversion H. reflexivity. }
  destruct (fmax row) as [m|].
  2:{ rewrite nth_error_map, Hj. simpl. intros H. inversion H. reflexivity. }
  rewrite !nth_error_map, Hj. simpl. intros H. inversion H; subst x; clear H.
  destruct (qsign (qsum _)); reflexivity.
Qed.

Lemma multinomial_sound (T : Backend) (g g' : rng T) (scores : list (list fval))
  (idx : list nat) :
  draw_sound T -> multinomial T g scores = Ok (idx, g') ->
  Forall2 positive_at scores idx.
Proof.
  intros Hd. revert g g' idx.
  induction scores as [|row rest IH]; intros g g' idx; simpl.
  - intros H. inversion H. constructor.
  - destruct (draw T g row) as [[j g1]|] eqn:E; [|discriminate].
    intros H. inv_bind H as [js g2] Hr.
    inversion H; subst. simpl. constructor.
    + eapply Hd; eauto.
    + eapply IH; eauto.
Qed.

Lemma multinomial_length (T : Backend) (g g' : rng T) (scores : list (list fval))
  (idx : list nat) :
  multinomial T g scores = Ok (idx, g') -> length idx = length scores.
Proof.
  revert g g' idx. induction scores as [|row rest IH]; intros g g' idx; simpl.
  - intros H. inversion H. reflexivity.
  - destruct (draw T g row) as [[j g1]|]; [|discriminate].
    intros H. inv_bind H as [js g2] Hr.
    inversion H; subst. simpl. f_equal. eapply IH; eauto.
Qed.

Section Suppression.

Context {T : Backend} (self : GPT_warpper) (a : Args T).

Lemma suppressed_scores (i : nat) (tok : list (list Z)) (temp : list fval)
  (logits scores : list (list fval)) :
  i < min_new_token a ->
  scores_of a i tok temp logits = Ok scores ->
  (0 <= eos_token a)%Z ->
  Forall (fun row => ~ positive_at row (Z.to_nat (eos_token a))) scores.
Proof.
  unfold scores_of. intros Hi H He.
  inv_bind H as l1 _.
  inv_bind H as l2 Hs.
  inversion H; subst scores; clear H.
  apply Nat.ltb_lt in Hi. rewrite Hi in Hs.
  unfold softmax.
  apply Forall_forall. intros row Hin. apply in_map_iff in Hin.
  destruct Hin as [y [<- Hy]].
  destruct (mapM_Ok_In _ _ _ _ Hs Hy) as [x0 [_ Hset]].
  apply set_neg_inf_at in Hset; [|assumption].
  intros [x [Hx Hp]].
  rewrite (softmax_row_neg_inf _ _ _ _ Hset Hx) in Hp. discriminate.
Qed.

Lemma sample_step_no_marker (i : nat) (s : LoopState T) (idx : list nat)
  (g' : rng T) :
  draw_sound T -> i < min_new_token a ->
  sample_step self a i s = Ok (idx, g') ->
  Forall (fun j => Z.of_nat j <> eos_token a) idx.
Proof.
  unfold sample_step. intros Hd Hi H.
  apply bind_Ok in H. destruct H as [scores [Hsc Hm]].
  pose proof (multinomial_sound T _ _ _ _ Hd Hm) as Hall.
  destruct (Z.lt_ge_cases (eos_token a) 0) as [Hneg|Hpos].
  - apply Forall_forall. intros j _. lia.
  - pose proof (suppressed_scores i _ _ _ _ Hi Hsc Hpos) as Hsup.
    clear Hm Hsc. induction Hall as [|row j rs js Hp _ IH]; constructor.
    + inversion Hsup; subst. intros Heq. apply H1.
      rewrite <- Heq, Nat2Z.id. exact Hp.
    + apply IH. inversion Hsup; assumption.
Qed.

Lemma sampled_rows_no_marker (B : nat) (idx : list nat) (rows : list (list Z)) :
  Forall (fun j => Z.of_nat j <> eos_token a) idx ->
  sampled_rows self a B idx = Ok rows ->
  Forall (fun row => hits_eos a row = false) rows.
Proof.
  intros Hall H.
  assert (Hz : forall z, In z (map Z.of_nat idx) -> (eos_token a =? z)%Z = false).
  { intros z Hz. apply in_map_iff in Hz. destruct Hz as [j [<- Hj]].
    rewrite Forall_forall in Hall. apply Z.eqb_neq. intros E.
    apply (Hall j Hj). auto. }
  assert (Hrow : forall row, (forall z, In z row -> In z (map Z.of_nat idx)) ->
                             hits_eos a row = false).
  { intros row Hsub. unfold hits_eos.
    destruct (existsb (Z.eqb (eos_token a)) row) eqn:E; [|reflexivity].
    apply existsb_exists in E. destruct E as [z [Hz1 Hz2]].
    rewrite (Hz z (Hsub z Hz1)) in Hz2. discriminate. }
  unfold sampled_rows in H. apply Forall_forall. intros row Hin.
  apply Hrow. intros z Hz'.
  destruct (infer_text a).
  - destruct (length idx =? B); inversion H; subst rows.
    apply in_map_iff in Hin. destruct Hin as [j [<- Hj]].
    destruct Hz' as [<-|[]]. apply in_map. exact Hj.
  - destruct (_ || _); inversion H; subst rows.
    eapply view_rows_In; eauto.
Qed.

End Suppression.

(** C3: with [min_new_token = k], at every step [i < k] of a call no row
    samples the end marker: its logit is [-inf] when the softmax is taken,
    so its probability is not positive and [torch.multinomial] does not
    return it. *)
Theorem min_new_token_blocks_marker {T : Backend} (self : GPT_warpper)
  (a : Args T) (g : rng T) (i : nat) (s : LoopState T) (rows : list (list Z)) :
  draw_sound T ->
  nth_error (history self a g) i = Some s ->
  i < min_new_token a ->
  sampled_at self a i s = Some rows ->
  Forall (fun row => hits_eos a row = false) rows.
Proof.
  intros Hd _ Hi. unfold sampled_at.
  destruct (sample_step self a i s) as [[idx g']|e] eqn:Hs; [|discriminate].
  simpl. destruct (sampled_rows self a _ idx) as [rows'|e] eqn:Hr; [|discriminate].
  intros H. inversion H; subst rows'.
  apply (sampled_rows_no_marker self a (length (inputs_ids s)) idx rows);
    [|exact Hr].
  apply (sample_step_no_marker self a i s idx g' Hd Hi Hs).
Qed.

(** ** The order of the logits pipeline *)

Section Pipeline.

Context {T : Backend} (self : GPT_warpper) (a : Args T).

Lemma run_stages_app (st st' : list stage) (lg : list (list fval)) :
  run_stages (st ++ st') lg = (lg' <- run_stages st lg ;; run_stages st' lg').
Proof.
  revert lg. induction st as [|f rest IH]; intros lg; simpl; [reflexivity|].
  destruct (f lg) as [lg1|e]; simpl; [apply IH | reflexivity].
Qed.

Lemma run_stages_pure (tok : list (list Z)) (fs : list logits_fn)
  (lg : list (list fval)) :
  run_stages (map (fun p lg => Ok (p tok lg)) fs) lg
  = Ok (fold_left (fun lg p => p tok lg) fs lg).
Proof.
  revert lg. induction fs as [|p rest IH]; intros lg; simpl; [reflexivity|].
  apply IH.
Qed.

Lemma scores_of_stages (i : nat) (tok : list (list Z)) (temp : list fval)
  (lg : list (list fval)) :
  scores_of a i tok temp lg = run_stages (spec_stages a i tok temp) lg.
Proof.
  unfold scores_of, spec_stages. simpl.
  destruct (div_temperature lg temp) as [lg1|e]; simpl; [|reflexivity].
  rewrite run_stages_app, run_stages_pure. simpl.
  rewrite run_stages_app, run_stages_pure. simpl.
  destruct (i <? min_new_token a); simpl; [|reflexivity].
  destruct (suppress_eos _ _); reflexivity.
Qed.

End Pipeline.

(** C7: at every step the logits go through the division by the
    temperature column, then the processors in list order, then the
    warpers in list order, then the suppression of the end marker when the
    step index is below [min_new_token], then the softmax; the draw returns
    exactly one index per row of scores. *)
Theorem pipeline_order {T : Backend} (self : GPT_warpper) (a : Args T)
  (i : nat) (s : LoopState T) :
  sample_step self a i s = spec_sample self a i s /\
  forall idx g', sample_step self a i s = Ok (idx, g') ->
    exists scores,
      run_stages (spec_stages a i (logits_token self a s) (temperature_col s))
                 (head_logits self a (length (inputs_ids s)) (forward_step a i s))
      = Ok scores /\
      length idx = length scores.
Proof.
  assert (E : sample_step self a i s = spec_sample self a i s).
  { unfold sample_step, spec_sample. rewrite scores_of_stages. reflexivity. }
  split; [exact E|]. intros idx g' H. rewrite E in H. unfold spec_sample in H.
  apply bind_Ok in H. destruct H as [scores [Hs Hm]].
  exists scores. split; [exact Hs|]. eapply multinomial_length; eauto.
Qed.

(** ** The attention mask buffer *)

Section MaskBuffer.

Context {T : Backend} (self : GPT_warpper) (a : Args T) (g : rng T).

Lemma nth_error_repeat_true (W p : nat) :
  p < W -> nth_error (repeat true W) p = Some true.
Proof.
  revert p. induction W as [|W IH]; intros p H; [lia|].
  destruct p; simpl; [reflexivity|]. apply IH. lia.
Qed.

Lemma assign_prefix_spec (W : nat) (src row : list bool) :
  assign_prefix (repeat true W) src = Ok row ->
  length row = W /\
  forall p, p < W ->
    nth_error row p = Some (match nth_error src p with
                            | Some b => b
                            | None => true
                            end).
Proof.
  unfold assign_prefix. rewrite repeat_length.
  destruct (Nat.leb_spec (length src) W) as [Hle|Hgt].
  - intros H. inversion H; subst row; clear H. split.
    + rewrite length_app, length_skipn, repeat_length. lia.
    + intros p Hp. destruct (Nat.lt_ge_cases p (length src)) as [Hlt|Hge].
      * rewrite nth_error_app1 by assumption.
        destruct (nth_error src p) eqn:E; [reflexivity|].
        apply nth_error_None in E. lia.
      * rewrite nth_error_app2 by assumption.
        rewrite nth_error_skipn.
        rewrite nth_error_repeat_true by lia.
        assert (E : nth_error src p = None) by (apply nth_error_None; lia).
        rewrite E. reflexivity.
  - destruct ((W =? 0) && (length src =? 1)) eqn:E; [|discriminate].
    apply andb_true_iff in E. destruct E as [E _]. apply Nat.eqb_eq in E.
    intros H. inversion H; subst row. rewrite repeat_length.
    split; [reflexivity|]. intros p Hp. lia.
Qed.

Lemma init_mask_spec (buf : list (list bool)) :
  init_attention_mask_cache (length (arg_inputs_ids a))
    (seq_len (arg_inputs_ids a) + max_new_token a) (attention_mask a) = Ok buf ->
  length buf = length (arg_inputs_ids a) /\
  forall r row, nth_error buf r = Some row ->
    length row = seq_len (arg_inputs_ids a) + max_new_token a /\
    forall p, p < seq_len (arg_inputs_ids a) + max_new_token a ->
      nth_error row p = Some (expected_mask a r p).
Proof.
  unfold init_attention_mask_cache, expected_mask, mask_row.
  set (B := length (arg_inputs_ids a)).
  set (W := seq_len (arg_inputs_ids a) + max_new_token a).
  destruct (attention_mask a) as [rows|].
  - destruct (Nat.eqb_spec (length rows) B) as [HB|HB].
    + intros H. apply mapM_Ok_Forall2 in H. split.
      * apply Forall2_length in H. lia.
      * intros r row Hr.
        assert (Hsrc : exists src, nth_error rows r = Some src /\
                                   assign_prefix (repeat true W) src = Ok row).
        { clear HB. revert r Hr. induction H as [|x y l l' Hxy _ IH]; intros r Hr.
          - destruct r; discriminate.
          - destruct r; simpl in *.
            + inversion Hr; subst. eauto.
            + apply IH. exact Hr. }
        destruct Hsrc as [src [Hs Ha]]. rewrite Hs.
        apply assign_prefix_spec in Ha. exact Ha.
    + destruct rows as [|row0 [|row1 rest]]; try discriminate.
      intros H. inv_bind H as r0 Ha.
      inversion H; subst buf; clear H. split; [apply repeat_length|].
      intros r row Hr. apply nth_error_In, repeat_spec in Hr. subst row.
      apply assign_prefix_spec in Ha. exact Ha.
  - intros H. inversion H; subst buf; clear H. split; [apply repeat_length|].
    intros r row Hr. apply nth_error_In, repeat_spec in Hr. subst row.
    split; [apply repeat_length|]. intros p Hp. apply nth_error_repeat_true. exact Hp.
Qed.

Lemma mask_cache_constant (t : nat) (s s0 : LoopState T) :
  init_state a g = Ok s0 ->
  nth_error (history self a g) t = Some s ->
  attention_mask_cache s = attention_mask_cache s0.
Proof.
  intros H0. revert s. induction t as [|t IH]; intros s Hs.
  - unfold history in Hs. rewrite H0 in Hs. simpl in Hs. congruence.
  - destruct (history_prefix self a g t s Hs) as [s1 Hs1].
    destruct (history_step self a g t s1 s Hs1 Hs) as [y [brk Hst]].
    apply step_inv in Hst.
    destruct Hst as [rows [_ [_ [_ [_ [_ [_ [Hm _]]]]]]]].
    rewrite Hm. apply IH. exact Hs1.
Qed.

Lemma expected_mask_generated (r p : nat) :
  mask_within_prompt a -> seq_len (arg_inputs_ids a) <= p ->
  expected_mask a r p = true.
Proof.
  unfold mask_within_prompt, expected_mask, mask_row. intros Hw Hp.
  destruct (attention_mask a) as [rows|]; [|reflexivity].
  specialize (Hw rows eq_refl). rewrite Forall_forall in Hw.
  assert (Hnone : forall m, In m rows -> nth_error m p = None).
  { intros m Hm. apply nth_error_None. specialize (Hw m Hm). lia. }
  destruct (length rows =? length (arg_inputs_ids a)).
  - destruct (nth_error rows r) as [m|] eqn:E; [|reflexivity].
    rewrite (Hnone m (nth_error_In _ _ E)). reflexivity.
  - destruct rows as [|row0 [|row1 rest]]; try reflexivity.
    rewrite (Hnone row0 (or_introl eq_refl)). reflexivity.
Qed.

End MaskBuffer.

(** C8: the attention mask buffer is built once, before the loop, with
    [prompt_length + max_new_token] positions per batch row, and no step
    changes it; at every step it holds the supplied prompt mask where there
    is one, so it is true wherever that mask is true, and it is true at
    every generated position, those of unfinished rows included. *)
Theorem attention_mask_cache_fixed {T : Backend} (self : GPT_warpper)
  (a : Args T) (g : rng T) (t : nat) (s : LoopState T) :
  mask_within_prompt a ->
  nth_error (history self a g) t = Some s ->
  (exists s0, init_state a g = Ok s0 /\
              attention_mask_cache s = attention_mask_cache s0) /\
  length (attention_mask_cache s) = length (arg_inputs_ids a) /\
  forall r row, nth_error (attention_mask_cache s) r = Some row ->
    length row = seq_len (arg_inputs_ids a) + max_new_token a /\
    (forall p m, mask_row a r = Some m -> nth_error m p = Some true ->
                 nth_error row p = Some true) /\
    (forall p, p < seq_len (arg_inputs_ids a) -> mask_row a r = None ->
               nth_error row p = Some true) /\
    (forall j, j < max_new_token a ->
               nth_error row (seq_len (arg_inputs_ids a) + j) = Some true).
Proof.
  intros Hw Hs.
  destruct (init_state a g) as [s0|e] eqn:H0.
  2:{ unfold history in Hs. rewrite H0 in Hs. destruct t; discriminate. }
  pose proof (mask_cache_constant self a g t s s0 H0 Hs) as Hc.
  pose proof (init_state_inv a g s0 H0) as [_ [_ [_ [_ [_ Hinit]]]]].
  apply init_mask_spec in Hinit. destruct Hinit as [Hlen Hrows].
  rewrite Hc. split; [eauto|]. split; [exact Hlen|].
  intros r row Hr. destruct (Hrows r row Hr) as [Hl Hp].
  split; [exact Hl|]. split; [|split].
  - intros p m Hm Hpm.
    assert (Hlt : p < seq_len (arg_inputs_ids a) + max_new_token a).
    { unfold mask_within_prompt, mask_row in *.
      destruct (attention_mask a) as [rows|]; [|discriminate].
      specialize (Hw rows eq_refl). rewrite Forall_forall in Hw.
      assert (Hin : In m rows).
      { destruct (length rows =? length (arg_inputs_ids a)).
        - eapply nth_error_In; eauto.
        - destruct rows as [|row0 [|row1 rest]]; try discriminate.
          inversion Hm; subst. left. reflexivity. }
      specialize (Hw m Hin).
      assert (p < length m) by (apply nth_error_Some; congruence). lia. }
    rewrite (Hp p Hlt). unfold expected_mask. rewrite Hm, Hpm. reflexivity.
  - intros p Hlt Hm. rewrite Hp by lia. unfold expected_mask. rewrite Hm.
    reflexivity.
  - intros j Hj. rewrite Hp by lia.
    rewrite expected_mask_generated; [reflexivity | exact Hw | lia].
Qed.

(** ** The caller's temperature tensor *)

(** C9: a call changes the temperature tensor it is given: [unsqueeze_]
    works in place, so after the call the caller's tensor has one more
    leading dimension, whatever the outcome of the call. *)
Theorem temperature_mutated_in_place {T : Backend} (self : GPT_warpper)
  (a : Args T) (g : rng T) :
  temperature_after (generate self a g) = unsqueeze_0 (temperature a) /\
  shape (temperature_after (generate self a g)) = 1 :: shape (temperature a) /\
  temperature_after (generate self a g) <> temperature a.
Proof.
  assert (E : temperature_after (generate self a g) = unsqueeze_0 (temperature a)).
  { unfold generate. destruct (init_state a g) as [s0|e]; [|reflexivity].
    destruct (ended _); [destruct (final_payload _ _) as [[p lg]|e]|];
      reflexivity. }
  split; [exact E|]. split; [rewrite E; reflexivity|].
  rewrite E. intros H. apply (f_equal (fun t => length (shape t))) in H.
  simpl in H. lia.
Qed.

(** ** Streaming on more than one row *)

Section StreamBatch.

Context {T : Backend} (self : GPT_warpper) (a : Args T).

Lemma step_of_sampled (i : nat) (s : LoopState T) (rows : list (list Z)) :
  sampled_at self a i s = Some rows ->
  cat_accepts self (inputs_ids s) = true ->
  exists g',
    step self a i s =
    (y <- (if stream a
           then stream_snapshot a (advanced self a s (forward_step a i s) g' rows)
           else Ok None) ;;
     Ok (advanced self a s (forward_step a i s) g' rows, y,
         all (finish (advanced self a s (forward_step a i s) g' rows)))).
Proof.
  unfold sampled_at, step, advance.
  destruct (sample_step self a i s) as [r|e]; [|discriminate]. simpl.
  destruct (sampled_rows self a _ (fst r)) as [rows'|e]; [|discriminate].
  intros H Hcat. inversion H; subst rows'. exists (snd r).
  simpl. rewrite Hcat. reflexivity.
Qed.

Lemma step_cat_rejects (i : nat) (s : LoopState T) :
  cat_accepts self (inputs_ids s) = false -> exists e, step self a i s = Raise e.
Proof.
  intros Hcat. unfold step, advance. rewrite Hcat.
  destruct (sample_step self a i s) as [r|e]; simpl; [|eauto].
  destruct (sampled_rows self a _ (fst r)) as [rows'|e]; simpl; eauto.
Qed.

Lemma step_sampled (i : nat) (s : LoopState T) :
  sampled_at self a i s = None -> exists e, step self a i s = Raise e.
Proof.
  unfold sampled_at, step.
  destruct (sample_step self a i s) as [r|e]; simpl; [|eauto].
  destruct (sampled_rows self a _ (fst r)) as [rows'|e]; simpl; [discriminate|eauto].
Qed.

Lemma advance_end_idx_length (s : LoopState T) o g' (rows : list (list Z)) :
  shaped s -> length rows = length (inputs_ids s) ->
  length (end_idx (advanced self a s o g' rows)) = length (inputs_ids s).
Proof.
  intros [He Hf] Hr. simpl.
  rewrite zip_with_length; [exact He|].
  rewrite zip_with_length; rewrite ?length_map; congruence.
Qed.

Lemma sampled_at_length (i : nat) (s : LoopState T) (rows : list (list Z)) :
  sampled_at self a i s = Some rows -> length rows = length (inputs_ids s).
Proof.
  unfold sampled_at.
  destruct (sample_step self a i s) as [r|e]; [|discriminate].
  destruct (sampled_rows self a _ (fst r)) as [rows'|e] eqn:E; [|discriminate].
  intros H. inversion H; subst. eapply sampled_rows_length; eauto.
Qed.

Lemma tensor_bool_ambiguous (v : list nat) :
  length v <> 1 -> tensor_bool v = Raise AmbiguousTruth.
Proof.
  destruct v as [|x [|y r]]; simpl; intros H; try reflexivity. lia.
Qed.

Lemma stream_snapshot_ambiguous (s : LoopState T) :
  length (end_idx s) <> 1 -> stream_snapshot a s = Raise AmbiguousTruth.
Proof.
  intros H. unfold stream_snapshot.
  rewrite tensor_bool_ambiguous; [reflexivity|]. rewrite length_map. exact H.
Qed.

(** With [stream] on and a batch of other than one row, a step that gets
    its tokens sampled raises at line 313; no step completes. *)
Lemma stream_step_raises (i : nat) (s : LoopState T) :
  stream a = true -> shaped s -> length (inputs_ids s) <> 1 ->
  (exists e, step self a i s = Raise e) /\
  (forall rows, sampled_at self a i s = Some rows ->
                cat_accepts self (inputs_ids s) = true ->
                step self a i s = Raise AmbiguousTruth).
Proof.
  intros Hst Hsh HB.
  assert (Hsome : forall rows, sampled_at self a i s = Some rows ->
                               cat_accepts self (inputs_ids s) = true ->
                               step self a i s = Raise AmbiguousTruth).
  { intros rows Hr Hcat. destruct (step_of_sampled i s rows Hr Hcat) as [g' ->].
    pose proof (sampled_at_length i s rows Hr) as Hl.
    rewrite Hst, stream_snapshot_ambiguous; [reflexivity|].
    rewrite advance_end_idx_length by assumption. exact HB. }
  split; [|exact Hsome].
  destruct (cat_accepts self (inputs_ids s)) eqn:Hcat;
    [|apply step_cat_rejects; exact Hcat].
  destruct (sampled_at self a i s) as [rows|] eqn:E.
  - exists AmbiguousTruth. apply (Hsome rows); reflexivity.
  - apply step_sampled. exact E.
Qed.

End StreamBatch.

(** C10, as the code has it: a streaming call on a batch of more than one
    row that has at least one step to run does not end normally: it raises
    during its first step, so it completes no step and yields nothing,
    neither a snapshot nor a final payload.  When that step gets through
    the sampling and [torch.cat], the exception is the one of the truth
    test of the several-valued [end_idx % 24] at line 313, whether or not
    all rows are finished. *)
Theorem stream_batch_raises {T : Backend} (self : GPT_warpper) (a : Args T)
  (g : rng T) :
  stream a = true ->
  1 < length (arg_inputs_ids a) ->
  0 < max_new_token a ->
  raised (generate self a g) <> None /\
  yielded (generate self a g) = [] /\
  trace (generate self a g) = [] /\
  (forall s0 rows, init_state a g = Ok s0 ->
                   sampled_at self a 0 s0 = Some rows ->
                   cat_accepts self (arg_inputs_ids a) = true ->
                   raised (generate self a g) = Some AmbiguousTruth).
Proof.
  intros Hst HB Hmax. unfold generate.
  destruct (init_state a g) as [s0|e] eqn:H0.
  2:{ simpl. repeat split; discriminate. }
  pose proof (init_shaped a g s0 H0) as Hsh.
  pose proof (init_state_inv a g s0 H0) as [Hids _].
  assert (HB' : length (inputs_ids s0) <> 1) by (rewrite Hids; lia).
  destruct (stream_step_raises self a 0 s0 Hst Hsh HB') as [[e He] Hamb].
  destruct (max_new_token a) as [|n]; [lia|]. simpl. rewrite He. simpl.
  repeat split; try discriminate.
  intros s1 rows H1 Hr Hcat. inversion H1; subst s1.
  rewrite <- Hids in Hcat.
  rewrite (Hamb rows Hr Hcat) in He. congruence.
Qed.

(** ** The last payload of a call *)

Lemma final_yield_app {A : Type} (l : list A) (x : A) :
  final_yield (l ++ [x]) = Some x.
Proof.
  unfold final_yield. rewrite map_app. simpl. apply last_last.
Qed.

Section StreamVsPlain.

Context {T : Backend} (self : GPT_warpper) (a : Args T).

Lemma stream_snapshot_single (s : LoopState T) :
  length (end_idx s) = 1 ->
  (return_hidden a = true -> hiddens s <> []) ->
  exists y, stream_snapshot a s = Ok y.
Proof.
  intros Hl Hh. unfold stream_snapshot.
  destruct (end_idx s) as [|e [|e' r]] eqn:E; try discriminate Hl.
  change (map (fun e => e mod 24) [e]) with [e mod 24].
  unfold tensor_bool, bind.
  destruct (negb (e mod 24 =? 0) && negb (all (finish s))); [eauto|].
  destruct (return_hidden a); [|eauto].
  unfold slice_hiddens. destruct (hiddens s) as [|h hs]; [|eauto].
  exfalso. apply Hh; reflexivity.
Qed.

Lemma step_stream_plain (i : nat) (s : LoopState T) :
  match step self (with_stream false a) i s with
  | Raise e => step self (with_stream true a) i s = Raise e
  | Ok (s', y, brk) =>
      y = None /\
      step self (with_stream true a) i s
      = (y' <- stream_snapshot a s' ;; Ok (s', y', brk))
  end.
Proof.
  unfold step.
  change (sample_step self (with_stream true a) i s)
    with (sample_step self (with_stream false a) i s).
  destruct (sample_step self (with_stream false a) i s) as [r|e]; simpl;
    [|reflexivity].
  change (sampled_rows self (with_stream true a))
    with (sampled_rows self (with_stream false a)).
  destruct (sampled_rows self (with_stream false a) _ (fst r)) as [rows|e];
    simpl; [|reflexivity].
  change (advance self (with_stream true a) s
            (forward_step (with_stream true a) i s) (snd r) rows)
    with (advance self (with_stream false a) s
            (forward_step (with_stream false a) i s) (snd r) rows).
  destruct (advance self (with_stream false a) s _ (snd r) rows) as [s'|e];
    simpl; [|reflexivity].
  split; reflexivity.
Qed.

Lemma loop_plain_yields (n i : nat) (s : LoopState T) :
  yields (loop self (with_stream false a) n i s) = [].
Proof.
  revert i s. induction n as [|n IH]; intros i s; simpl; [reflexivity|].
  pose proof (step_stream_plain i s) as H.
  destruct (step self (with_stream false a) i s) as [[[s' y] brk]|e];
    simpl; [|reflexivity].
  destruct H as [-> _]. destruct brk; simpl; [reflexivity | apply IH].
Qed.

(** On one row the streaming loop goes through the same states. *)
Lemma loop_stream_single (n i : nat) (s : LoopState T) :
  shaped s -> length (inputs_ids s) = 1 ->
  ended (loop self (with_stream true a) n i s)
  = ended (loop self (with_stream false a) n i s) /\
  visited (loop self (with_stream true a) n i s)
  = visited (loop self (with_stream false a) n i s).
Proof.
  revert i s. induction n as [|n IH]; intros i s Hsh HB; simpl; [auto|].
  pose proof (step_stream_plain i s) as H.
  destruct (step self (with_stream false a) i s) as [[[s' y] brk]|e] eqn:Hp.
  - destruct H as [-> Hs].
    pose proof (step_shaped _ _ _ _ _ _ _ Hsh Hp) as Hsh'.
    pose proof (step_inv _ _ _ _ _ _ _ Hp) as Hinv.
    destruct Hinv as [rows [_ [Hl [_ [_ [Hids [_ [_ [_ [Hh _]]]]]]]]]].
    assert (HB' : length (inputs_ids s') = 1).
    { rewrite Hids, zip_with_length; congruence. }
    destruct (stream_snapshot_single s') as [y' Hy'].
    { destruct Hsh' as [He _]. congruence. }
    { exact Hh. }
    rewrite Hs, Hy'. simpl. destruct brk; simpl; [auto|].
    destruct (IH (S i) s' Hsh' HB') as [E1 E2]. rewrite E1, E2. auto.
  - rewrite H. simpl. auto.
Qed.

(** On a batch of other than one row the streaming loop yields nothing. *)
Lemma loop_stream_batch (n i : nat) (s : LoopState T) :
  shaped s -> length (inputs_ids s) <> 1 ->
  yields (loop self (with_stream true a) n i s) = [] /\
  (ended (loop self (with_stream true a) n i s)
   = ended (loop self (with_stream false a) n i s) \/
   exists e, ended (loop self (with_stream true a) n i s) = Raise e).
Proof.
  intros Hsh HB. destruct n as [|n]; simpl; [auto|].
  destruct (stream_step_raises self (with_stream true a) i s eq_refl Hsh HB)
    as [[e He] _].
  rewrite He. simpl. eauto.
Qed.

Lemma loop_stream_cases (n i : nat) (s : LoopState T) :
  shaped s ->
  ended (loop self (with_stream true a) n i s)
  = ended (loop self (with_stream false a) n i s) \/
  (yields (loop self (with_stream true a) n i s) = [] /\
   exists e, ended (loop self (with_stream true a) n i s) = Raise e).
Proof.
  intros Hsh. destruct (Nat.eq_dec (length (inputs_ids s)) 1) as [HB|HB].
  - left. apply loop_stream_single; assumption.
  - destruct (loop_stream_batch n i s Hsh HB) as [Hy [He|He]]; auto.
Qed.

(** The snapshot of the step at which the batch finishes holds the token
    rows, the attentions and, when asked for, the hidden states of the
    final payload. *)
Lemma finishing_snapshot_is_final (s : LoopState T) (y p : Payload T)
  (lg : list LogRecord) :
  stream_snapshot a s = Ok (Some y) ->
  final_payload a s = Ok (p, lg) ->
  ids y = ids p /\ p_attentions y = p_attentions p /\
  (return_hidden a = true -> p_hiddens y = p_hiddens p).
Proof.
  unfold stream_snapshot, final_payload. intros Hy Hp.
  inv_bind Hy as c _.
  destruct (c && negb (all (finish s))); [discriminate|].
  inv_bind Hy as hs Hhs.
  inv_bind Hp as hs' Hhs'.
  inversion Hy; inversion Hp; subst; simpl.
  split; [reflexivity|]. split; [reflexivity|].
  intros Hh. rewrite Hh in Hhs, Hhs'. congruence.
Qed.

End StreamVsPlain.

(** The last payload that a streaming call yields is the payload of the
    non-streaming call on the same arguments and generator state: when
    the streaming call ends normally so does the other and the two
    payloads are equal, and whenever the streaming call has yielded
    something and the other call returns, its last yield is that payload. *)
Lemma stream_last_yield_is_plain {T : Backend} (self : GPT_warpper)
  (a : Args T) (g : rng T) :
  (raised (generate self (with_stream true a) g) = None ->
   raised (generate self (with_stream false a) g) = None /\
   exists p, final_yield (yielded (generate self (with_stream true a) g)) = Some p
             /\ yielded (generate self (with_stream false a) g) = [p]) /\
  (forall y p,
     final_yield (yielded (generate self (with_stream true a) g)) = Some y ->
     yielded (generate self (with_stream false a) g) = [p] ->
     y = p).
Proof.
  unfold generate.
  change (init_state (with_stream true a) g) with (init_state a g).
  change (init_state (with_stream false a) g) with (init_state a g).
  destruct (init_state a g) as [s0|e] eqn:H0; simpl.
  2:{ split; [discriminate|]. intros y p H. discriminate. }
  pose proof (init_shaped a g s0 H0) as Hsh.
  pose proof (loop_plain_yields self a (max_new_token a) 0 s0) as Hpy.
  destruct (loop_stream_cases self a (max_new_token a) 0 s0 Hsh)
    as [E|[Hy [e He]]].
  - rewrite <- E.
    destruct (ended (loop self (with_stream true a) (max_new_token a) 0 s0))
      as [sf|e]; simpl.
    + change (final_payload (with_stream true a) sf)
        with (final_payload (with_stream false a) sf).
      destruct (final_payload (with_stream false a) sf) as [[p lg]|e]; simpl.
      * rewrite Hpy. simpl. split.
        -- intros _. split; [reflexivity|]. exists p.
           rewrite final_yield_app. auto.
        -- intros y p'. rewrite final_yield_app. intros H1 H2.
           inversion H1; inversion H2; subst. reflexivity.
      * rewrite Hpy. split; [discriminate|]. intros y p _ H. discriminate.
    + rewrite Hpy. split; [discriminate|]. intros y p _ H. discriminate.
  - rewrite He. simpl. rewrite Hy. split; [discriminate|].
    intros y p H. discriminate.
Qed.

(** On one row the converse holds as well: when the plain call returns,
    so does the streaming one. *)
Lemma plain_returns_stream_single {T : Backend} (self : GPT_warpper)
  (a : Args T) (g : rng T) :
  length (arg_inputs_ids a) = 1 ->
  raised (generate self (with_stream false a) g) = None ->
  raised (generate self (with_stream true a) g) = None.
Proof.
  intros HB. unfold generate.
  change (init_state (with_stream true a) g) with (init_state a g).
  change (init_state (with_stream false a) g) with (init_state a g).
  destruct (init_state a g) as [s0|e] eqn:H0; simpl; [|discriminate].
  pose proof (init_shaped a g s0 H0) as Hsh.
  pose proof (init_state_inv a g s0 H0) as [Hids _].
  rewrite <- Hids in HB.
  destruct (loop_stream_single self a (max_new_token a) 0 s0 Hsh HB) as [E _].
  rewrite E.
  destruct (ended (loop self (with_stream false a) (max_new_token a) 0 s0))
    as [sf|e]; simpl; [|discriminate].
  change (final_payload (with_stream true a) sf)
    with (final_payload (with_stream false a) sf).
  destruct (final_payload (with_stream false a) sf) as [[p lg]|e]; simpl;
    [reflexivity | discriminate].
Qed.

(** ** The end marker at the first step *)

Section FirstStep.

Context {T : Backend} (self : GPT_warpper) (a : Args T) (g : rng T).

Lemma all_zip_orb (f : list bool) (rows : list (list Z)) :
  Forall (fun row => hits_eos a row = true) rows ->
  all (zip_with orb f (map (hits_eos a) rows)) = true.
Proof.
  intros H. revert f. induction H as [|row rows Hrow _ IH]; intros f.
  - destruct f; reflexivity.
  - destruct f as [|b f]; [reflexivity|]. simpl. rewrite Hrow, orb_true_r.
    apply IH.
Qed.

Lemma zip_counter_frozen (n : nat) (v : list bool) :
  all v = true -> length v = n ->
  zip_with (fun e (f : bool) => e + (if f then 0 else 1)) (repeat 0 n) v
  = repeat 0 n.
Proof.
  revert v. induction n as [|n IH]; intros v Hall Hl.
  - reflexivity.
  - destruct v as [|b v]; [discriminate|]. simpl in *.
    apply andb_true_iff in Hall. destruct Hall as [-> Hall].
    f_equal. apply IH; [exact Hall | lia].
Qed.

Lemma slice_ids_zero (start n : nat) (sqs : list (list (list Z))) :
  length sqs = n ->
  ids_lengths (slice_ids a start sqs (repeat 0 n)) = repeat 0 n.
Proof.
  intros Hl.
  assert (E : zip_with (fun sq e => firstn e (skipn start sq)) sqs (repeat 0 n)
              = repeat [] n).
  { revert sqs Hl. induction n as [|n IH]; intros sqs Hl.
    - destruct sqs; reflexivity.
    - destruct sqs as [|sq sqs]; [discriminate|]. simpl. f_equal.
      apply IH. simpl in Hl. lia. }
  unfold slice_ids. rewrite E.
  destruct (infer_text a); simpl; rewrite ?map_map;
    clear; induction n; simpl; congruence.
Qed.

End FirstStep.

(** C1, as the code has it: on a prompt whose token rows have width
    [num_vq] (with a column 0 to read in text mode), when step 0 samples
    the end marker in every row, a call that is not streaming, or that
    streams a single row, does exactly one step and returns every row with
    no token row at all: the marker row is appended to the buffer but
    [end_idx] does not count it. *)
Theorem first_step_marker_not_counted {T : Backend} (self : GPT_warpper)
  (a : Args T) (g : rng T) :
  cat_accepts self (arg_inputs_ids a) = true ->
  text_column_exists self a ->
  marker_at_step0 self a g ->
  stream a = false \/ length (arg_inputs_ids a) = 1 ->
  length (trace (generate self a g)) = 1 /\
  returns_rows_of_length self a g 0.
Proof.
  intros Hcat _ [Hmax [s0 [rows [H0 [Hrows Hall]]]]] Hmode.
  unfold returns_rows_of_length, generate. rewrite H0.
  pose proof (init_shaped a g s0 H0) as Hsh.
  pose proof (init_state_inv a g s0 H0) as [Hids [Hend [Hfin [_ [Hhid _]]]]].
  pose proof (sampled_at_length self a 0 s0 rows Hrows) as Hl.
  rewrite <- Hids in Hcat.
  destruct (step_of_sampled self a 0 s0 rows Hrows Hcat) as [g' Hstep].
  set (s1 := advanced self a s0 (forward_step a 0 s0) g' rows) in *.
  assert (Hf1 : all (finish s1) = true).
  { apply all_zip_orb. exact Hall. }
  assert (He1 : end_idx s1 = repeat 0 (length (arg_inputs_ids a))).
  { unfold s1. simpl. rewrite Hend. apply zip_counter_frozen.
    - apply all_zip_orb. exact Hall.
    - rewrite zip_with_length; rewrite ?length_map, Hfin, ?repeat_length; congruence. }
  assert (Hi1 : length (inputs_ids s1) = length (arg_inputs_ids a)).
  { unfold s1. simpl. rewrite zip_with_length; congruence. }
  assert (Hh1 : return_hidden a = true -> hiddens s1 <> []).
  { intros Hh. unfold s1. simpl. rewrite Hh. destruct (hiddens s0); discriminate. }
  clearbody s1.
  assert (Hsnap : exists y, (if stream a then stream_snapshot a s1 else Ok None)
                            = Ok y).
  { destruct (stream a) eqn:Hst; [|eauto].
    destruct Hmode as [Hm|Hm]; [discriminate|].
    apply stream_snapshot_single; [|exact Hh1].
    rewrite He1, repeat_length. exact Hm. }
  destruct Hsnap as [y Hy]. rewrite Hy in Hstep. unfold bind in Hstep.
  rewrite Hf1 in Hstep.
  destruct (max_new_token a) as [|n] eqn:Hn; [lia|].
  simpl. rewrite Hstep. simpl.
  assert (Hfp : exists hs, final_payload a s1
                = Ok ({| ids := slice_ids a (start_idx s1) (inputs_ids s1)
                                          (end_idx s1);
                         p_attentions := attentions s1;
                         p_hiddens := hs |}, [])).
  { unfold final_payload. rewrite Hf1.
    destruct (return_hidden a) eqn:Hh; simpl; [|eauto].
    specialize (Hh1 eq_refl).
    unfold slice_hiddens. destruct (hiddens s1) as [|h hs].
    - exfalso. apply Hh1. reflexivity.
    - simpl. eauto. }
  destruct Hfp as [hs Hfp]. rewrite Hfp. simpl.
  split; [reflexivity|]. split; [reflexivity|].
  eexists. split; [apply final_yield_app|]. simpl.
  rewrite He1. apply slice_ids_zero. exact Hi1.
Qed.

(** ** The incomplete outcome *)

Section Incomplete.

Context {T : Backend} (self : GPT_warpper) (a : Args T).

Lemma loop_ended_hiddens (n i : nat) (s sf : LoopState T) :
  ended (loop self a n i s) = Ok sf -> 0 < n ->
  return_hidden a = true -> hiddens sf <> [].
Proof.
  revert i s. induction n as [|n IH]; intros i s H Hn Hh; [lia|].
  simpl in H.
  destruct (step self a i s) as [[[s' y] brk]|e] eqn:Hst; [|discriminate].
  pose proof (step_inv _ _ _ _ _ _ _ Hst) as Hinv.
  destruct Hinv as [rows [_ [_ [_ [_ [_ [_ [_ [_ [Hne _]]]]]]]]]].
  destruct brk; simpl in H.
  - inversion H; subst. auto.
  - destruct n as [|n'].
    + simpl in H. inversion H; subst. auto.
    + eapply IH; eauto. lia.
Qed.

(** The incomplete outcome, whenever at least one step has run or no
    hidden states are asked for. *)
Lemma incomplete_still_returns (g : rng T) (s0 sf : LoopState T) :
  init_state a g = Ok s0 ->
  ended (loop self a (max_new_token a) 0 s0) = Ok sf ->
  all (finish sf) = false ->
  return_hidden a = false \/ 0 < max_new_token a ->
  raised (generate self a g) = None /\
  log (generate self a g) = [WARNING incomplete_msg (max_new_token a)] /\
  exists p, final_yield (yielded (generate self a g)) = Some p /\
            ids p = slice_ids a (start_idx sf) (inputs_ids sf) (end_idx sf).
Proof.
  intros H0 Hend Hfin Hcase. unfold generate. rewrite H0, Hend.
  assert (Hfp : exists hs, final_payload a sf
                = Ok ({| ids := slice_ids a (start_idx sf) (inputs_ids sf)
                                          (end_idx sf);
                         p_attentions := attentions sf;
                         p_hiddens := hs |},
                      [WARNING incomplete_msg (max_new_token a)])).
  { unfold final_payload. rewrite Hfin.
    destruct (return_hidden a) eqn:Hh; simpl; [|eauto].
    destruct Hcase as [Hc|Hc]; [discriminate|].
    pose proof (loop_ended_hiddens _ _ _ _ Hend Hc Hh) as Hne.
    unfold slice_hiddens. destruct (hiddens sf); [congruence|simpl; eauto]. }
  destruct Hfp as [hs ->]. simpl.
  split; [reflexivity|]. split; [reflexivity|].
  eexists. split; [apply final_yield_app | reflexivity].
Qed.

End Incomplete.

(** ** The concrete backend draws only positive probabilities *)

Lemma positive_indices_spec (row : list fval) (i j : nat) :
  In j (positive_indices i row) ->
  i <= j /\ exists x, nth_error row (j - i) = Some x /\ positive x = true.
Proof.
  revert i. induction row as [|x r IH]; intros i H; simpl in H; [contradiction|].
  destruct (positive x) eqn:Hx.
  - destruct H as [<-|H].
    + split; [lia|]. rewrite Nat.sub_diag. simpl. eauto.
    + destruct (IH (S i) H) as [Hle [y [Hy Hp]]]. split; [lia|].
      replace (j - i) with (S (j - S i)) by lia. simpl. eauto.
  - destruct (IH (S i) H) as [Hle [y [Hy Hp]]]. split; [lia|].
    replace (j - i) with (S (j - S i)) by lia. simpl. eauto.
Qed.

Lemma tape_draw_sound : draw_sound tape_backend.
Proof.
  intros g row j g'. simpl. unfold tape_draw.
  destruct (forallb valid_prob row); [|discriminate].
  destruct (positive_indices 0 row) as [|j0 js] eqn:E; [discriminate|].
  intros H. inversion H; subst; clear H.
  assert (Hin : In (nth (hd 0 g mod length (j0 :: js)) (j0 :: js) j0)
                   (positive_indices 0 row)).
  { rewrite E. apply nth_In. apply Nat.mod_upper_bound. simpl. lia. }
  apply positive_indices_spec in Hin. destruct Hin as [_ [x [Hx Hp]]].
  rewrite Nat.sub_0_r in Hx. exists x. auto.
Qed.

(** ** Runs of the concrete backend *)

(** C1, the claim as stated, fails: one row, the marker drawn at step 0;
    the call does one step and returns the row with no token row, not
    with one. *)
Lemma first_step_marker_counted_fails :
  ~ first_step_marker_counted small_gpt (audio_args 1 5 0 false false)
      tape_marker.
Proof.
  unfold first_step_marker_counted. intros H.
  assert (Hpre : marker_at_step0 small_gpt (audio_args 1 5 0 false false)
                   tape_marker).
  { split; [simpl; lia|].
    eexists. eexists. split; [reflexivity|]. split; [vm_compute; reflexivity|].
    repeat constructor. }
  destruct (H Hpre) as [_ [_ [p [Hp Hlen]]]].
  vm_compute in Hp. inversion Hp; subst p. vm_compute in Hlen. discriminate.
Qed.

Lemma first_step_marker_not_counted_witness :
  length (trace (generate small_gpt (audio_args 1 5 0 false false) tape_marker))
  = 1 /\
  returns_rows_of_length small_gpt (audio_args 1 5 0 false false) tape_marker 0.
Proof.
  apply (first_step_marker_not_counted small_gpt
           (audio_args 1 5 0 false false) tape_marker).
  - reflexivity.
  - intros H. discriminate H.
  - split; [simpl; lia|].
    eexists. eexists. split; [reflexivity|]. split; [vm_compute; reflexivity|].
    repeat constructor.
  - left. reflexivity.
Defined.

Lemma end_idx_bounded_monotone_frozen_witness :
  1 <= max_new_token (audio_args 2 5 0 false false) /\
  1 <= 1 /\
  (1 = 1 <-> exists j, j <= 2 /\
     marker_sampled small_gpt (audio_args 2 5 0 false false) tape_staggered 1 j) /\
  (1 <> 1 -> 1 = 1 + 1).
Proof.
  eapply (end_idx_bounded_monotone_frozen small_gpt
            (audio_args 2 5 0 false false) tape_staggered 2 _ _ 1 1 1);
    vm_compute; reflexivity.
Defined.

Lemma min_new_token_blocks_marker_witness :
  Forall (fun row => hits_eos (audio_args 1 3 2 false false) row = false)
         [[0; 0]%Z].
Proof.
  eapply (min_new_token_blocks_marker small_gpt (audio_args 1 3 2 false false)
            tape_marker 0).
  - exact tape_draw_sound.
  - vm_compute. reflexivity.
  - simpl. lia.
  - vm_compute. reflexivity.
Defined.

(** C4 at [max_new_token = 0] with hidden states asked for: the loop is
    exhausted at once with the row unfinished, and the call raises at
    [torch.stack] on the empty list, before the warning and with nothing
    yielded. *)
Theorem incomplete_without_steps_raises :
  (exists s, init_state (audio_args 1 0 0 true false) [] = Ok s /\
             ended (loop small_gpt (audio_args 1 0 0 true false) 0 0 s) = Ok s /\
             all (finish s) = false) /\
  raised (generate small_gpt (audio_args 1 0 0 true false) []) = Some StackEmpty /\
  yielded (generate small_gpt (audio_args 1 0 0 true false) []) = [] /\
  log (generate small_gpt (audio_args 1 0 0 true false) []) = [].
Proof.
  split.
  - eexists. split; [reflexivity|]. split; reflexivity.
  - vm_compute. auto.
Qed.

(** One row: a streaming step yields a snapshot exactly when 24 divides
    the counter or the row has finished, and the snapshot holds the row
    sliced to its counter. *)
Lemma stream_snapshot_one_row {T : Backend} (a : Args T) (s : LoopState T)
  (e : nat) (f : bool) :
  end_idx s = [e] -> finish s = [f] ->
  (return_hidden a = true -> hiddens s <> []) ->
  exists y, stream_snapshot a s = Ok y /\
            (y <> None <-> e mod 24 = 0 \/ f = true) /\
            forall p, y = Some p ->
                      ids p = slice_ids a (start_idx s) (inputs_ids s) [e].
Proof.
  intros He Hf Hh. unfold stream_snapshot. rewrite He, Hf.
  change (map (fun e => e mod 24) [e]) with [e mod 24].
  unfold tensor_bool, bind, all, forallb.
  destruct (Nat.eqb_spec (e mod 24) 0) as [E|E].
  - change (negb true && negb (f && true)) with false. cbv iota.
    assert (Hs : exists hs, (if return_hidden a
                             then slice_hiddens (hiddens s) [e]
                             else Ok [[]]) = Ok hs).
    { destruct (return_hidden a); [|eauto].
      unfold slice_hiddens. destruct (hiddens s); [|eauto].
      exfalso. apply Hh; reflexivity. }
    destruct Hs as [hs ->]. eexists. split; [reflexivity|]. split.
    + split; [auto | discriminate].
    + intros p Hp. inversion Hp. reflexivity.
  - destruct f.
    + change (negb false && negb (true && true)) with false. cbv iota.
      assert (Hs : exists hs, (if return_hidden a
                               then slice_hiddens (hiddens s) [e]
                               else Ok [[]]) = Ok hs).
      { destruct (return_hidden a); [|eauto].
        unfold slice_hiddens. destruct (hiddens s); [|eauto].
        exfalso. apply Hh; reflexivity. }
      destruct Hs as [hs ->]. eexists. split; [reflexivity|]. split.
      * split; [auto | discriminate].
      * intros p Hp. inversion Hp. reflexivity.
    + change (negb false && negb (false && true)) with true. cbv iota.
      eexists. split; [reflexivity|]. split.
      * split; [congruence|]. intros [H|H]; [contradiction | discriminate].
      * intros p Hp. discriminate.
Qed.

(** C5 on two rows: both rows draw the marker at step 0, so the whole
    batch has just finished, and yet no snapshot is yielded: the truth
    test of the two-valued [end_idx % 24] raises. *)
Theorem stream_two_rows_no_snapshot :
  marker_at_step0 small_gpt (audio_args 2 5 0 false true) tape_marker /\
  yielded (generate small_gpt (audio_args 2 5 0 false true) tape_marker) = [] /\
  raised (generate small_gpt (audio_args 2 5 0 false true) tape_marker)
  = Some AmbiguousTruth.
Proof.
  split.
  - split; [simpl; lia|].
    eexists. eexists. split; [reflexivity|]. split; [vm_compute; reflexivity|].
    repeat constructor.
  - vm_compute. auto.
Qed.

Lemma attention_mask_cache_fixed_witness :
  match nth_error (history small_gpt masked_args tape_staggered) 2 with
  | Some s =>
      (exists s0, init_state masked_args tape_staggered = Ok s0 /\
                  attention_mask_cache s = attention_mask_cache s0) /\
      length (attention_mask_cache s) = length (arg_inputs_ids masked_args) /\
      forall r row, nth_error (attention_mask_cache s) r = Some row ->
        length row = seq_len (arg_inputs_ids masked_args)
                     + max_new_token masked_args /\
        (forall p m, mask_row masked_args r = Some m ->
                     nth_error m p = Some true ->
                     nth_error row p = Some true) /\
        (forall p, p < seq_len (arg_inputs_ids masked_args) ->
                   mask_row masked_args r = None ->
                   nth_error row p = Some true) /\
        (forall j, j < max_new_token masked_args ->
                   nth_error row (seq_len (arg_inputs_ids masked_args) + j)
                   = Some true)
  | None => False
  end.
Proof.
  destruct (nth_error (history small_gpt masked_args tape_staggered) 2)
    as [s|] eqn:E.
  - apply (attention_mask_cache_fixed small_gpt masked_args tape_staggered 2 s).
    + intros rows H. simpl in H. inversion H; subst rows.
      repeat constructor.
    + exact E.
  - vm_compute in E. discriminate.
Defined.

Lemma stream_batch_raises_witness :
  raised (generate small_gpt (audio_args 2 5 0 false true) tape_staggered)
  <> None /\
  yielded (generate small_gpt (audio_args 2 5 0 false true) tape_staggered) = [] /\
  trace (generate small_gpt (audio_args 2 5 0 false true) tape_staggered) = [] /\
  (forall s0 rows,
     init_state (audio_args 2 5 0 false true) tape_staggered = Ok s0 ->
     sampled_at small_gpt (audio_args 2 5 0 false true) 0 s0 = Some rows ->
     cat_accepts small_gpt (arg_inputs_ids (audio_args 2 5 0 false true))
     = true ->
     raised (generate small_gpt (audio_args 2 5 0 false true) tape_staggered)
     = Some AmbiguousTruth).
Proof.
  apply (stream_batch_raises small_gpt (audio_args 2 5 0 false true)
           tape_staggered).
  - reflexivity.
  - simpl. lia.
  - simpl. lia.
Defined.

(** A streaming call on one row that yields a snapshot when the row
    finishes and then the payload of the plain call. *)
Example streaming_one_row_run :
  length (yielded (generate small_gpt
                     (with_stream true (audio_args 1 3 0 true false))
                     [0; 1; 0; 2])) = 2 /\
  final_yield (yielded (generate small_gpt
                          (with_stream true (audio_args 1 3 0 true false))
                          [0; 1; 0; 2]))
  = final_yield (yielded (generate small_gpt
                            (with_stream false (audio_args 1 3 0 true false))
                            [0; 1; 0; 2])).
Proof.
  vm_compute. auto.
Qed.

Lemma pipeline_order_witness :
  exists scores,
    run_stages (spec_stages (audio_args 1 3 2 false false) 0
                  (logits_token small_gpt (audio_args 1 3 2 false false)
                                first_state)
                  (temperature_col first_state))
               (head_logits small_gpt (audio_args 1 3 2 false false)
                  (length (inputs_ids first_state))
                  (forward_step (audio_args 1 3 2 false false) 0 first_state))
    = Ok scores /\
    length [0; 0] = length scores.
Proof.
  apply (proj2 (pipeline_order small_gpt (audio_args 1 3 2 false false) 0
                  first_state) [0; 0] [2; 2]).
  vm_compute. reflexivity.
Defined.

(** C10, the claim as stated, fails: with [max_new_token = 0] the loop
    body never runs, and a streaming call on two rows, here without
    [return_hidden], ends normally with its final payload. *)
Lemma streaming_needs_single_row_fails :
  ~ streaming_needs_single_row small_gpt (audio_args 2 0 0 false true) [].
Proof.
  unfold streaming_needs_single_row. intros H.
  specialize (H eq_refl eq_refl). vm_compute in H. discriminate.
Qed.

(** * Further properties of [generate] *)

Lemma nth_error_repeat_lt {A : Type} (x : A) (n r : nat) :
  r < n -> nth_error (repeat x n) r = Some x.
Proof.
  revert r. induction n as [|n IH]; intros r H; [lia|].
  destruct r; simpl; [reflexivity|]. apply IH. lia.
Qed.

Lemma Forall_of_nth_error {A : Type} (P : A -> Prop) (l : list A) :
  (forall r x, nth_error l r = Some x -> P x) -> Forall P l.
Proof.
  intros H. apply Forall_forall. intros x Hin.
  apply In_nth_error in Hin. destruct Hin as [r Hr]. eauto.
Qed.

Lemma list_eq_nth_error {A : Type} (l l' : list A) :
  (forall r, nth_error l r = nth_error l' r) -> l = l'.
Proof.
  revert l'. induction l as [|x l IH]; intros l' H.
  - destruct l' as [|y l']; [reflexivity|]. specialize (H 0). discriminate.
  - destruct l' as [|y l']; [specialize (H 0); discriminate|].
    pose proof (H 0) as H0. simpl in H0. inversion H0; subst. f_equal.
    apply IH. intros r. apply (H (S r)).
Qed.

Section Rows.

Context {T : Backend} (self : GPT_warpper) (a : Args T) (g : rng T).

Lemma sampled_rows_widths (B : nat) (idx : list nat) (rows : list (list Z)) :
  sampled_rows self a B idx = Ok rows ->
  Forall (fun row => length (appended_row self a row) = num_vq self) rows.
Proof.
  unfold sampled_rows, appended_row. destruct (infer_text a).
  - intros _. apply Forall_forall. intros row _. apply repeat_length.
  - destruct (Nat.eqb_spec (num_vq self) 0) as [E|E]; [discriminate|].
    destruct (Nat.eqb_spec (length idx) (B * num_vq self)) as [E'|E'];
      [|discriminate].
    simpl. intros H. inversion H; subst rows; clear H.
    apply Forall_forall. intros row Hin. unfold view_rows in Hin.
    apply in_map_iff in Hin. destruct Hin as [b [<- Hb]].
    apply in_seq in Hb. rewrite length_firstn, length_skipn, length_map. nia.
Qed.

Lemma sampled_rows_clean (B : nat) (idx : list nat) (rows : list (list Z))
  (row : list Z) :
  text_column_exists self a ->
  sampled_rows self a B idx = Ok rows -> In row rows ->
  hits_eos a row = false -> stored_clean a (appended_row self a row).
Proof.
  unfold text_column_exists, sampled_rows, stored_clean, appended_row.
  intros Hw H Hin Hhit. destruct (infer_text a); [|exact Hhit].
  specialize (Hw eq_refl).
  destruct (length idx =? B); [|discriminate]. inversion H; subst rows; clear H.
  apply in_map_iff in Hin. destruct Hin as [j [<- _]]. simpl.
  unfold hits_eos in Hhit. simpl in Hhit. rewrite orb_false_r in Hhit.
  apply Z.eqb_neq in Hhit.
  destruct (num_vq self) as [|n]; [lia|]. simpl. congruence.
Qed.

Lemma sampled_at_rows (i : nat) (s : LoopState T) (rows : list (list Z)) :
  sampled_at self a i s = Some rows ->
  exists idx, sampled_rows self a (length (inputs_ids s)) idx = Ok rows.
Proof.
  unfold sampled_at.
  destruct (sample_step self a i s) as [r|e]; [|discriminate].
  destruct (sampled_rows self a _ (fst r)) as [rows'|e] eqn:E; [|discriminate].
  intros H. inversion H; subst. eauto.
Qed.

Lemma row_inv_step (t : nat) (s s' : LoopState T) y brk (r : nat) :
  text_column_exists self a ->
  step self a t s = Ok (s', y, brk) ->
  row_inv self a t s r -> row_inv self a (S t) s' r.
Proof.
  intros Hw Hst [sq0 [gen [e [f [H0 [Hi [He [Hf [Hl [Hle [Hun [Hwd Hcl]]]]]]]]]]]].
  apply step_inv in Hst.
  destruct Hst as [rows [Hs [Hlen [Hfin [Hend [Hids _]]]]]].
  destruct (sampled_at_rows _ _ _ Hs) as [idx Hidx].
  assert (Hr : r < length rows).
  { rewrite Hlen. apply nth_error_Some. congruence. }
  destruct (nth_error rows r) as [row|] eqn:Er;
    [|apply nth_error_None in Er; lia].
  pose proof (nth_error_In _ _ Er) as Hin.
  assert (Hf' : nth_error (finish s') r = Some (f || hits_eos a row)).
  { rewrite Hfin, zip_with_nth_error, Hf, nth_error_map, Er. reflexivity. }
  exists sq0, (gen ++ [appended_row self a row]),
         (e + (if f || hits_eos a row then 0 else 1)), (f || hits_eos a row).
  split; [exact H0|]. split.
  { rewrite Hids, zip_with_nth_error, Hi, Er, app_assoc. reflexivity. }
  split.
  { rewrite Hend, zip_with_nth_error, He, Hf'. reflexivity. }
  split; [exact Hf'|]. split.
  { rewrite length_app. simpl. lia. }
  split.
  { destruct (f || hits_eos a row); lia. }
  split.
  { intros Hor. rewrite Hor. apply orb_false_iff in Hor. destruct Hor as [-> _].
    rewrite (Hun eq_refl). lia. }
  split.
  { apply Forall_app. split; [exact Hwd|]. constructor; [|constructor].
    pose proof (sampled_rows_widths _ _ _ Hidx) as Hall.
    rewrite Forall_forall in Hall. apply Hall. exact Hin. }
  destruct (f || hits_eos a row) eqn:Hor.
  - rewrite Nat.add_0_r, firstn_app.
    replace (e - length gen) with 0 by lia. simpl. rewrite app_nil_r. exact Hcl.
  - apply orb_false_iff in Hor. destruct Hor as [-> Hhit].
    rewrite (Hun eq_refl) in *. rewrite firstn_all2 in Hcl by lia.
    rewrite firstn_all2 by (rewrite length_app; simpl; lia).
    apply Forall_app. split; [exact Hcl|]. constructor; [|constructor].
    eapply sampled_rows_clean; eauto.
Qed.

Lemma history_row_inv (t : nat) (s : LoopState T) (r : nat) :
  text_column_exists self a ->
  nth_error (history self a g) t = Some s ->
  r < length (arg_inputs_ids a) ->
  row_inv self a t s r.
Proof.
  intros Hw. revert s. induction t as [|t IH]; intros s Hs Hr.
  - unfold history in Hs.
    destruct (init_state a g) as [s0|] eqn:H0; [|discriminate].
    simpl in Hs. inversion Hs; subst s0; clear Hs.
    apply init_state_inv in H0. destruct H0 as [Hi [He [Hf _]]].
    destruct (nth_error (arg_inputs_ids a) r) as [sq0|] eqn:E;
      [|apply nth_error_None in E; lia].
    exists sq0, [], 0, false. rewrite Hi, He, Hf, app_nil_r.
    rewrite !nth_error_repeat_lt by assumption.
    repeat split; auto; constructor.
  - destruct (history_prefix self a g t s Hs) as [s1 Hs1].
    destruct (history_step self a g t s1 s Hs1 Hs) as [y [brk Hst]].
    eapply row_inv_step; eauto.
Qed.

Lemma history_batch (t : nat) (s : LoopState T) :
  nth_error (history self a g) t = Some s ->
  length (inputs_ids s) = length (arg_inputs_ids a) /\
  start_idx s = seq_len (arg_inputs_ids a).
Proof.
  revert s. induction t as [|t IH]; intros s Hs.
  - unfold history in Hs.
    destruct (init_state a g) as [s0|] eqn:H0; [|discriminate].
    simpl in Hs. inversion Hs; subst s0; clear Hs.
    apply init_state_inv in H0. destruct H0 as [Hi [_ [_ [Hst _]]]].
    rewrite Hi. auto.
  - destruct (history_prefix self a g t s Hs) as [s1 Hs1].
    destruct (history_step self a g t s1 s Hs1 Hs) as [y [brk Hst]].
    apply step_inv in Hst.
    destruct Hst as [rows [_ [Hlen [_ [_ [Hids [Hstart _]]]]]]].
    destruct (IH s1 Hs1) as [HB Hs0]. split; [|congruence].
    rewrite Hids, zip_with_length; congruence.
Qed.

End Rows.

(** X1: every sequence of the token buffer grows by exactly one row
    per completed step, finished rows included, and every appended row has
    width [num_vq]. *)
Theorem sequences_grow_one_row_per_step {T : Backend} (self : GPT_warpper)
  (a : Args T) (g : rng T) (t : nat) (s : LoopState T) (r : nat)
  (sq : list (list Z)) :
  nth_error (history self a g) t = Some s ->
  nth_error (inputs_ids s) r = Some sq ->
  exists sq0 gen,
    nth_error (arg_inputs_ids a) r = Some sq0 /\
    sq = sq0 ++ gen /\
    length gen = t /\
    Forall (fun row => length row = num_vq self) gen.
Proof.
  revert s sq. induction t as [|t IH]; intros s sq Hs Hsq.
  - unfold history in Hs.
    destruct (init_state a g) as [s0|] eqn:H0; [|discriminate].
    simpl in Hs. inversion Hs; subst s0; clear Hs.
    apply init_state_inv in H0. destruct H0 as [Hi _]. rewrite Hi in Hsq.
    exists sq, []. rewrite app_nil_r. repeat split; auto.
  - destruct (history_prefix self a g t s Hs) as [s1 Hs1].
    destruct (history_step self a g t s1 s Hs1 Hs) as [y [brk Hst]].
    apply step_inv in Hst.
    destruct Hst as [rows [Hsam [Hlen [_ [_ [Hids _]]]]]].
    rewrite Hids, zip_with_nth_error in Hsq.
    destruct (nth_error (inputs_ids s1) r) as [sq1|] eqn:E1; [|discriminate].
    destruct (nth_error rows r) as [row|] eqn:Er; [|discriminate].
    inversion Hsq; subst sq; clear Hsq.
    destruct (IH s1 sq1 Hs1 E1) as [sq0 [gen [H0 [-> [Hl Hw]]]]].
    exists sq0, (gen ++ [appended_row self a row]).
    split; [exact H0|]. split; [rewrite app_assoc; reflexivity|]. split.
    + rewrite length_app. simpl. lia.
    + apply Forall_app. split; [exact Hw|]. constructor; [|constructor].
      destruct (sampled_at_rows self a _ _ _ Hsam) as [idx Hidx].
      pose proof (sampled_rows_widths self a _ _ _ Hidx) as Hall.
      rewrite Forall_forall in Hall. apply Hall. eapply nth_error_In; eauto.
Qed.

Section Payloads.

Context {T : Backend} (self : GPT_warpper) (a : Args T) (g : rng T).

Lemma snapshot_ids (s : LoopState T) (y : Payload T) :
  stream_snapshot a s = Ok (Some y) ->
  ids y = slice_ids a (start_idx s) (inputs_ids s) (end_idx s).
Proof.
  unfold stream_snapshot. intros H. inv_bind H as c Hc.
  destruct (c && negb (all (finish s))); [discriminate|].
  inv_bind H as hs Hhs. inversion H. reflexivity.
Qed.

Lemma loop_yields_state (n i : nat) (s : LoopState T) (y : Payload T) :
  In y (yields (loop self a n i s)) ->
  exists s', In s' (visited (loop self a n i s)) /\
             ids y = slice_ids a (start_idx s') (inputs_ids s') (end_idx s').
Proof.
  revert i s. induction n as [|n IH]; intros i s; simpl; [contradiction|].
  destruct (step self a i s) as [[[s' y0] brk]|e] eqn:Hst; simpl;
    [|contradiction].
  assert (Hy0 : forall y1, y0 = Some y1 ->
            ids y1 = slice_ids a (start_idx s') (inputs_ids s') (end_idx s')).
  { intros y1 ->. apply step_inv in Hst.
    destruct Hst as [rows [_ [_ [_ [_ [_ [_ [_ [_ [_ [_ [_ [_ [_ Hy]]]]]]]]]]]]]].
    destruct (stream a); [|discriminate]. apply snapshot_ids. exact Hy. }
  destruct brk; simpl.
  - destruct y0 as [y1|]; simpl; [|contradiction].
    intros [<-|[]]. exists s'. split; [left; reflexivity | auto].
  - intros Hin. apply in_app_or in Hin. destruct Hin as [Hin|Hin].
    + destruct y0 as [y1|]; simpl in Hin; [|contradiction].
      destruct Hin as [<-|[]]. exists s'. split; [left; reflexivity | auto].
    + destruct (IH (S i) s' Hin) as [s2 [H2 Hids]].
      exists s2. split; [right; exact H2 | exact Hids].
Qed.

Lemma loop_ended_state (n i : nat) (s sf : LoopState T) :
  ended (loop self a n i s) = Ok sf ->
  In sf (s :: visited (loop self a n i s)).
Proof.
  revert i s. induction n as [|n IH]; intros i s; simpl.
  - intros H. inversion H. left. reflexivity.
  - destruct (step self a i s) as [[[s' y0] brk]|e]; simpl; [|discriminate].
    destruct brk; simpl.
    + intros H. inversion H. right. left. reflexivity.
    + intros H. right. apply IH. exact H.
Qed.

(** Every payload of a call, snapshot or final, is a slice of a state the
    call went through. *)
Lemma yielded_from_history (p : Payload T) :
  In p (yielded (generate self a g)) ->
  exists t s, nth_error (history self a g) t = Some s /\
              ids p = slice_ids a (start_idx s) (inputs_ids s) (end_idx s).
Proof.
  intros Hin. unfold history.
  destruct (init_state a g) as [s0|e] eqn:H0.
  2:{ unfold generate in Hin. rewrite H0 in Hin. simpl in Hin. contradiction. }
  rewrite (trace_generate self a g s0 H0).
  unfold generate in Hin. rewrite H0 in Hin.
  assert (Hloop : forall y, In y (yields (loop self a (max_new_token a) 0 s0)) ->
            exists t s,
              nth_error (s0 :: visited (loop self a (max_new_token a) 0 s0)) t
              = Some s /\
              ids y = slice_ids a (start_idx s) (inputs_ids s) (end_idx s)).
  { intros y Hy. destruct (loop_yields_state _ _ _ _ Hy) as [s' [Hs' Hids]].
    destruct (In_nth_error (s0 :: visited (loop self a (max_new_token a) 0 s0))
                s' (or_intror Hs')) as [t Ht]. eauto. }
  destruct (ended (loop self a (max_new_token a) 0 s0)) as [sf|e] eqn:He;
    simpl in Hin.
  - destruct (final_payload a sf) as [[q lg]|e] eqn:Hq; simpl in Hin;
      [|exact (Hloop p Hin)].
    apply in_app_or in Hin. destruct Hin as [Hin|[<-|[]]];
      [exact (Hloop p Hin)|].
    destruct (In_nth_error _ _ (loop_ended_state _ _ _ _ He)) as [t Ht].
    exists t, sf. split; [exact Ht|].
    unfold final_payload in Hq. inv_bind Hq as hs Hhs. inversion Hq. reflexivity.
  - exact (Hloop p Hin).
Qed.

Lemma slice_rows_nth (s : LoopState T) (t r : nat) :
  rectangular_prompt a ->
  text_column_exists self a ->
  nth_error (history self a g) t = Some s ->
  r < length (arg_inputs_ids a) ->
  exists e gen,
    nth_error (end_idx s) r = Some e /\
    e <= t /\ length gen = t /\
    Forall (stored_clean a) (firstn e gen) /\
    nth_error (zip_with (fun sq e => firstn e (skipn (start_idx s) sq))
                        (inputs_ids s) (end_idx s)) r
    = Some (firstn e gen).
Proof.
  intros Hrect Hw Hs Hr.
  destruct (history_row_inv self a g t s r Hw Hs Hr)
    as [sq0 [gen [e [f [H0 [Hi [He [Hf [Hl [Hle [_ [_ Hcl]]]]]]]]]]]].
  destruct (history_batch self a g t s Hs) as [_ Hstart].
  exists e, gen. repeat split; auto.
  rewrite zip_with_nth_error, Hi, He, Hstart. do 2 f_equal.
  unfold rectangular_prompt in Hrect. rewrite Forall_forall in Hrect.
  rewrite <- (Hrect sq0 (nth_error_In _ _ H0)).
  rewrite skipn_app, Nat.sub_diag, skipn_all. reflexivity.
Qed.

(** The row lengths of the ids cut from a state are its counters. *)
Lemma slice_ids_lengths (t : nat) (s : LoopState T) :
  rectangular_prompt a ->
  text_column_exists self a ->
  nth_error (history self a g) t = Some s ->
  ids_lengths (slice_ids a (start_idx s) (inputs_ids s) (end_idx s))
  = end_idx s.
Proof.
  intros Hrect Hw Hs.
  destruct (history_batch self a g t s Hs) as [HB _].
  destruct (history_shaped self a g t s Hs) as [HE _].
  unfold slice_ids.
  set (rows := zip_with _ _ _).
  assert (E : map (@length _) rows = end_idx s).
  { apply list_eq_nth_error. intros r. rewrite nth_error_map.
    destruct (Nat.lt_ge_cases r (length (arg_inputs_ids a))) as [Hr|Hr].
    - destruct (slice_rows_nth s t r Hrect Hw Hs Hr)
        as [e [gen [He [Hle [Hl [_ Hrow]]]]]].
      unfold rows. rewrite Hrow, He. simpl. rewrite length_firstn. f_equal. lia.
    - assert (E1 : nth_error (end_idx s) r = None)
        by (apply nth_error_None; lia).
      unfold rows. rewrite zip_with_nth_error, E1.
      destruct (nth_error (inputs_ids s) r); reflexivity. }
  destruct (infer_text a); simpl; [|exact E].
  rewrite map_map. rewrite <- E. apply map_ext. intros x.
  unfold column. apply length_map.
Qed.

End Payloads.

(** X2: every payload a call yields, snapshot or final, gives row [r]
    exactly as many token rows as the counter [end_idx] of that row in the
    state it was cut from, and the counter is at most the number of steps
    completed by then. *)
Theorem yielded_rows_have_counter_length {T : Backend} (self : GPT_warpper)
  (a : Args T) (g : rng T) (p : Payload T) :
  rectangular_prompt a ->
  text_column_exists self a ->
  In p (yielded (generate self a g)) ->
  exists t s,
    nth_error (history self a g) t = Some s /\
    t <= max_new_token a /\
    ids_lengths (ids p) = end_idx s /\
    Forall (fun e => e <= t) (end_idx s).
Proof.
  intros Hrect Hw Hin.
  destruct (yielded_from_history self a g p Hin) as [t [s [Hs Hids]]].
  exists t, s. split; [exact Hs|]. split.
  { pose proof (history_length self a g) as Hl.
    assert (t < length (history self a g)) by (apply nth_error_Some; congruence).
    lia. }
  split.
  - rewrite Hids. exact (slice_ids_lengths self a g t s Hrect Hw Hs).
  - apply Forall_of_nth_error. intros r e He.
    eapply end_idx_le_steps; eauto.
Qed.

(** X3: no payload of a call holds the end marker: the rows counted by
    [end_idx] were all sampled while the row was unfinished, so the marker
    row that finishes a row is never part of what is returned. *)
Theorem yielded_rows_free_of_marker {T : Backend} (self : GPT_warpper)
  (a : Args T) (g : rng T) (p : Payload T) :
  rectangular_prompt a ->
  text_column_exists self a ->
  In p (yielded (generate self a g)) ->
  clean_ids a (ids p).
Proof.
  intros Hrect Hw Hin.
  destruct (yielded_from_history self a g p Hin) as [t [s [Hs Hids]]].
  destruct (history_batch self a g t s Hs) as [HB _].
  rewrite Hids. unfold slice_ids, clean_ids.
  set (rows := zip_with _ _ _).
  assert (Hrows : forall r row, nth_error rows r = Some row ->
                                Forall (stored_clean a) row).
  { intros r row Hrow.
    assert (Hr : r < length (arg_inputs_ids a)).
    { rewrite <- HB. unfold rows in Hrow. rewrite zip_with_nth_error in Hrow.
      destruct (nth_error (inputs_ids s) r) eqn:E; [|discriminate].
      apply nth_error_Some. congruence. }
    destruct (slice_rows_nth self a g s t r Hrect Hw Hs Hr)
      as [e [gen [_ [_ [_ [Hcl Hrow']]]]]].
    unfold rows in Hrow. rewrite Hrow' in Hrow. inversion Hrow; subst. exact Hcl. }
  unfold stored_clean in Hrows. destruct (infer_text a).
  - apply Forall_of_nth_error. intros r col Hcol.
    rewrite nth_error_map in Hcol.
    destruct (nth_error rows r) as [row|] eqn:E; [|discriminate].
    inversion Hcol; subst col. unfold column. apply Forall_map.
    exact (Hrows r row E).
  - apply Forall_of_nth_error. intros r row Hrow. exact (Hrows r row Hrow).
Qed.

Section Stopping.

Context {T : Backend} (self : GPT_warpper) (a : Args T) (g : rng T).

Lemma loop_no_step_after_finish (n i : nat) (s : LoopState T) (k : nat)
  (s1 s2 : LoopState T) :
  nth_error (visited (loop self a n i s)) k = Some s1 ->
  nth_error (visited (loop self a n i s)) (S k) = Some s2 ->
  all (finish s1) = false.
Proof.
  revert i s k. induction n as [|n IH]; intros i s k; simpl.
  - destruct k; discriminate.
  - destruct (step self a i s) as [[[s' y] brk]|e] eqn:Hst; simpl.
    + pose proof (step_inv _ _ _ _ _ _ _ Hst) as Hinv.
      destruct Hinv as [rows [_ [_ [_ [_ [_ [_ [_ [_ [_ [_ [_ [Hb _]]]]]]]]]]]]].
      destruct brk; simpl.
      * destruct k; simpl; [discriminate|]. destruct k; discriminate.
      * destruct k as [|k]; simpl.
        -- intros H1 _. inversion H1; subst. auto.
        -- apply IH.
    + destruct k; discriminate.
Qed.

Lemma loop_ended_last (n i : nat) (s sf : LoopState T) :
  ended (loop self a n i s) = Ok sf ->
  nth_error (s :: visited (loop self a n i s))
            (length (visited (loop self a n i s))) = Some sf /\
  (all (finish sf) = false -> length (visited (loop self a n i s)) = n).
Proof.
  revert i s. induction n as [|n IH]; intros i s; simpl.
  - intros H. inversion H. auto.
  - destruct (step self a i s) as [[[s' y] brk]|e] eqn:Hst; simpl;
      [|discriminate].
    pose proof (step_inv _ _ _ _ _ _ _ Hst) as Hinv.
    destruct Hinv as [rows [_ [_ [_ [_ [_ [_ [_ [_ [_ [_ [_ [Hb _]]]]]]]]]]]]].
    destruct brk; simpl.
    + intros H. inversion H; subst. split; [reflexivity|]. congruence.
    + intros H. destruct (IH (S i) s' H) as [H1 H2].
      split; [exact H1|]. intros Hf. rewrite (H2 Hf). reflexivity.
Qed.

Lemma unfinished_counter (t : nat) (s : LoopState T) (r e : nat) :
  nth_error (history self a g) t = Some s ->
  nth_error (finish s) r = Some false ->
  nth_error (end_idx s) r = Some e -> e = t.
Proof.
  revert s e. induction t as [|t IH]; intros s e Hs Hf He.
  - pose proof (end_idx_le_steps self a g 0 s r e Hs He). lia.
  - destruct (history_prefix self a g t s Hs) as [s1 Hs1].
    destruct (history_step self a g t s1 s Hs1 Hs) as [y [brk Hst]].
    apply step_inv in Hst. destruct Hst as [rows [_ [_ [Hfin [Hend _]]]]].
    rewrite Hend, zip_with_nth_error, Hf in He.
    destruct (nth_error (end_idx s1) r) as [e1|] eqn:E1; [|discriminate].
    inversion He; subst e; clear He.
    rewrite Hfin, zip_with_nth_error in Hf.
    destruct (nth_error (finish s1) r) as [f1|] eqn:F1; [|discriminate].
    destruct (nth_error (map (hits_eos a) rows) r) as [h|]; [|discriminate].
    inversion Hf as [Hor]. apply orb_false_iff in Hor. destruct Hor as [-> _].
    rewrite (IH s1 e1 Hs1 F1 E1). lia.
Qed.

Lemma with_stream_same (b : bool) : stream a = b -> with_stream b a = a.
Proof.
  destruct a. simpl. intros ->. reflexivity.
Qed.

End Stopping.

(** X4: the loop does not run a step once all rows are finished: a
    state that is followed by a further step has an unfinished row, and a
    call that returns after fewer than [max_new_token] steps has all its
    rows finished. *)
Theorem no_step_after_all_finished {T : Backend} (self : GPT_warpper)
  (a : Args T) (g : rng T) :
  (forall t s s',
     nth_error (history self a g) (S t) = Some s ->
     nth_error (history self a g) (S (S t)) = Some s' ->
     all (finish s) = false) /\
  (raised (generate self a g) = None ->
   length (trace (generate self a g)) < max_new_token a ->
   exists sf, nth_error (history self a g)
                        (length (trace (generate self a g))) = Some sf /\
              all (finish sf) = true).
Proof.
  unfold history.
  destruct (init_state a g) as [s0|e] eqn:H0.
  2:{ split; [intros t s s' H; discriminate|].
      unfold generate. rewrite H0. discriminate. }
  rewrite (trace_generate self a g s0 H0). split.
  - intros t s s' H1 H2. simpl in H1, H2.
    eapply loop_no_step_after_finish; eauto.
  - unfold generate. rewrite H0.
    destruct (ended (loop self a (max_new_token a) 0 s0)) as [sf|e] eqn:He;
      [|discriminate].
    destruct (loop_ended_last self a _ _ _ _ He) as [Hlast Hfull].
    destruct (final_payload a sf) as [[p lg]|e]; simpl; [|discriminate].
    intros _ Hlt. exists sf. split; [exact Hlast|].
    destruct (all (finish sf)); [reflexivity|]. specialize (Hfull eq_refl). lia.
Qed.

(** X5: when a call returns, the state it ends in decides the log: no
    record if all rows are finished, and exactly one warning, naming
    [max_new_token], if a row is unfinished, in which case all
    [max_new_token] steps were run. *)
Theorem warning_iff_unfinished {T : Backend} (self : GPT_warpper)
  (a : Args T) (g : rng T) :
  raised (generate self a g) = None ->
  exists sf,
    nth_error (history self a g) (length (trace (generate self a g))) = Some sf /\
    (all (finish sf) = true -> log (generate self a g) = []) /\
    (all (finish sf) = false ->
     log (generate self a g) = [WARNING incomplete_msg (max_new_token a)] /\
     length (trace (generate self a g)) = max_new_token a).
Proof.
  unfold history.
  destruct (init_state a g) as [s0|e] eqn:H0.
  2:{ unfold generate. rewrite H0. discriminate. }
  rewrite (trace_generate self a g s0 H0).
  unfold generate. rewrite H0.
  destruct (ended (loop self a (max_new_token a) 0 s0)) as [sf|e] eqn:He;
    [|discriminate].
  destruct (loop_ended_last self a _ _ _ _ He) as [Hlast Hfull].
  destruct (final_payload a sf) as [[p lg]|e] eqn:Hp; simpl; [|discriminate].
  intros _. exists sf. split; [exact Hlast|].
  unfold final_payload in Hp. inv_bind Hp as hs Hhs. inversion Hp; subst.
  split.
  - intros ->. reflexivity.
  - intros Hf. rewrite Hf. auto.
Qed.

(** X6: a non-streaming call yields exactly one payload when it
    returns and nothing when it raises. *)
Theorem plain_call_yields_once {T : Backend} (self : GPT_warpper)
  (a : Args T) (g : rng T) :
  stream a = false ->
  (raised (generate self a g) = None ->
   exists p, yielded (generate self a g) = [p]) /\
  (raised (generate self a g) <> None -> yielded (generate self a g) = []).
Proof.
  intros Hs. rewrite <- (with_stream_same a false Hs).
  unfold generate.
  destruct (init_state (with_stream false a) g) as [s0|e]; simpl.
  2:{ split; [discriminate | reflexivity]. }
  rewrite (loop_plain_yields self a (max_new_token a) 0 s0).
  destruct (ended (loop self (with_stream false a) (max_new_token a) 0 s0))
    as [sf|e]; simpl.
  - destruct (final_payload (with_stream false a) sf) as [[p lg]|e]; simpl.
    + split; [eauto | congruence].
    + split; [discriminate | reflexivity].
  - split; [discriminate | reflexivity].
Qed.

(** X7: a streaming call on one row yields a snapshot at a step exactly
    when the row is finished after it or the number of steps completed is a
    multiple of 24. *)
Theorem single_row_stream_cadence {T : Backend} (self : GPT_warpper)
  (a : Args T) (g : rng T) (t : nat) (s s' : LoopState T) (f : bool) :
  stream a = true ->
  nth_error (history self a g) t = Some s ->
  nth_error (history self a g) (S t) = Some s' ->
  finish s' = [f] ->
  exists y, step self a t s = Ok (s', y, f) /\
            (y <> None <-> f = true \/ (S t) mod 24 = 0).
Proof.
  intros Hst Hs Hs' Hf.
  destruct (history_step self a g t s s' Hs Hs') as [y [brk Hstep]].
  pose proof (step_inv _ _ _ _ _ _ _ Hstep) as Hinv.
  destruct Hinv as [rows [_ [_ [_ [_ [_ [_ [_ [_ [Hh [_ [_ [Hb [_ Hy]]]]]]]]]]]]]].
  rewrite Hst in Hy.
  destruct (history_shaped self a g (S t) s' Hs') as [HE HF].
  destruct (end_idx s') as [|e [|e' l]] eqn:Ee;
    try (rewrite Hf in HF; simpl in HE, HF; lia).
  destruct (stream_snapshot_one_row a s' e f Ee Hf Hh) as [y' [Hy' [Hiff _]]].
  rewrite Hy in Hy'. inversion Hy'; subst y'; clear Hy'.
  assert (Hbrk : brk = f).
  { rewrite Hb, Hf. unfold all. simpl. apply andb_true_r. }
  subst brk. exists y. split; [rewrite <- Hbrk; exact Hstep|].
  clear Hbrk. rewrite Hiff. destruct f.
  - split; auto.
  - assert (e = S t).
    { apply (unfinished_counter self a g (S t) s' 0 e Hs').
      - rewrite Hf. reflexivity.
      - rewrite Ee. reflexivity. }
    subst e. split; intros [H|H]; auto.
Qed.

(** * [prepare_inputs_for_generation] *)

Lemma cumsum_spec (m : list bool) (acc : Z) (p : nat) (b : bool) :
  nth_error m p = Some b ->
  nth_error (cumsum acc m) p
  = Some (acc + Z.of_nat (count_true (firstn p m)) + (if b then 1 else 0))%Z.
Proof.
  revert acc p. induction m as [|b0 r IH]; intros acc p H.
  - destruct p; discriminate.
  - destruct p as [|p]; simpl in *.
    + inversion H; subst. f_equal. unfold count_true. simpl. lia.
    + rewrite (IH _ _ H). f_equal. unfold count_true. simpl.
      destruct b0; simpl; lia.
Qed.

Lemma position_row_nth (m : list bool) (p : nat) (b : bool) :
  nth_error m p = Some b ->
  nth_error (position_row m) p
  = Some (if b then Z.of_nat (count_true (firstn p m)) else 1%Z).
Proof.
  intros H. unfold position_row.
  rewrite zip_with_nth_error, H, (cumsum_spec m 0 p b H).
  destruct b; f_equal; lia.
Qed.

Lemma cumsum_length (m : list bool) (acc : Z) : length (cumsum acc m) = length m.
Proof.
  revert acc. induction m as [|b r IH]; intros acc; simpl; [reflexivity|].
  f_equal. apply IH.
Qed.

Lemma position_row_length (m : list bool) : length (position_row m) = length m.
Proof.
  unfold position_row. apply zip_with_length. symmetry. apply cumsum_length.
Qed.

Lemma position_row_nonneg (m : list bool) :
  Forall (fun z => (0 <= z)%Z) (position_row m).
Proof.
  apply Forall_of_nth_error. intros p z Hz.
  destruct (nth_error m p) as [b|] eqn:E.
  - rewrite (position_row_nth m p b E) in Hz. inversion Hz; subst.
    destruct b; lia.
  - apply nth_error_None in E. rewrite <- position_row_length in E.
    apply nth_error_None in E. congruence.
Qed.

Lemma py_from_skipn {A : Type} (s : Z) (l : list A) :
  exists k, py_from s l = skipn k l.
Proof.
  unfold py_from. eauto.
Qed.

Lemma Forall_skipn {A : Type} (P : A -> Prop) (k : nat) (l : list A) :
  Forall P l -> Forall P (skipn k l).
Proof.
  intros H. apply Forall_forall. intros x Hx.
  rewrite Forall_forall in H. apply H. eapply In_skipn; eauto.
Qed.

(** X8: when the position ids are not passed in, they are computed
    from the returned attention mask alone: each row is a suffix of the
    row in which an unmasked position holds the number of unmasked
    positions before it and a masked position holds 1; no position id is
    negative. *)
Theorem position_ids_from_mask {E : Type} (static_cache : option past_t)
  (x : PrepareArgs E) (out : ModelInputs E) (m : list (list bool)) :
  prepare_inputs_for_generation static_cache x = Ok out ->
  pi_kw_position_ids x = None ->
  mi_attention_mask out = Some m ->
  exists pos,
    mi_position_ids out = Some pos /\
    Forall2 (fun mrow prow => exists k, prow = skipn k (position_row mrow)) m pos /\
    Forall (Forall (fun z => (0 <= z)%Z)) pos /\
    forall mrow p b, nth_error mrow p = Some b ->
      nth_error (position_row mrow) p
      = Some (if b then Z.of_nat (count_true (firstn p mrow)) else 1%Z).
Proof.
  unfold prepare_inputs_for_generation. intros H Hkw Hm.
  inv_bind H as r Hr. inversion H; subst out; clear H. simpl in *.
  rewrite Hkw, Hm.
  set (f := fun mrow : list bool =>
              if past_truthy match pi_past_key_values x with
                             | Some c => Some c
                             | None => static_cache
                             end
              then py_from (- Z.of_nat (seq_len (snd (fst r)))) (position_row mrow)
              else position_row mrow).
  exists (map f m). split.
  { unfold f. destruct (past_truthy _); [|reflexivity].
    rewrite map_map. reflexivity. }
  split.
  { clear. induction m as [|mrow m IH]; simpl; constructor; [|exact IH].
    unfold f. destruct (past_truthy _).
    - apply py_from_skipn.
    - exists 0. reflexivity. }
  split.
  { apply Forall_forall. intros prow Hin. apply in_map_iff in Hin.
    destruct Hin as [mrow [<- _]]. unfold f. destruct (past_truthy _).
    - unfold py_from. apply Forall_skipn. apply position_row_nonneg.
    - apply position_row_nonneg. }
  intros mrow p b. apply position_row_nth.
Qed.

(** X9: with a legacy cache that holds [P] of the [L] tokens, and the
    mask of width [L] that [generate] passes, the model is handed only the
    tokens from [P] on, their position ids, the cache positions [P .. L-1],
    and the cache and the mask as they came. *)
Theorem decode_step_keeps_unprocessed_tokens {E : Type}
  (static_cache : option past_t) (x : PrepareArgs E) (m : list (list bool))
  (P L : nat) :
  pi_past_key_values x = Some (LegacyCache P) ->
  pi_attention_mask x = Some m ->
  pi_cache_position x = None ->
  pi_kw_position_ids x = None ->
  seq_len (pi_input_ids x) = L ->
  seq_len m = L ->
  Forall (fun mrow => length mrow = L) m ->
  P < L ->
  prepare_inputs_for_generation static_cache x
  = Ok {| mi_inputs_embeds := None;
          mi_input_ids := Some (map (skipn P) (pi_input_ids x));
          mi_position_ids := Some (map (fun mrow => skipn P (position_row mrow)) m);
          mi_cache_position := seq P (L - P);
          mi_past_key_values := Some (LegacyCache P);
          mi_use_cache := pi_kw_use_cache x;
          mi_attention_mask := Some m |}.
Proof.
  intros Hp Hm Hc Hk Hl Hml Hrect HP.
  unfold prepare_inputs_for_generation. rewrite Hp, Hm, Hc, Hk. simpl.
  unfold keep_unprocessed. rewrite Hl, Hml, Nat.ltb_irrefl.
  apply Nat.ltb_lt in HP. rewrite HP. apply Nat.ltb_lt in HP.
  assert (Hn : seq_len (map (skipn P) (pi_input_ids x)) = L - P).
  { destruct (pi_input_ids x) as [|sq ids]; simpl in *; [lia|].
    rewrite length_skipn. lia. }
  rewrite Hn.
  assert (Hpos : map (py_from (- Z.of_nat (L - P))) (map position_row m)
                 = map (fun mrow => skipn P (position_row mrow)) m).
  { rewrite map_map. apply map_ext_in. intros mrow Hin.
    rewrite Forall_forall in Hrect. specialize (Hrect mrow Hin).
    unfold py_from. rewrite position_row_length, Hrect. f_equal.
    destruct (Z.ltb_spec (- Z.of_nat (L - P)) 0); lia. }
  rewrite Hpos.
  assert (Hw : seq_len (map (fun mrow => skipn P (position_row mrow)) m) = L - P).
  { destruct m as [|mrow m']; simpl in *; [lia|].
    rewrite length_skipn, position_row_length. lia. }
  rewrite Hw.
  destruct (pi_inputs_embeds x); reflexivity.
Qed.

(** X10: with a cache in use, the returned position ids are as wide as
    the returned token rows when these have at least one position (and no
    more than the mask); when no position is left the slice [-0:] keeps the
    position ids at the full width of the mask. *)
Theorem position_ids_width {E : Type} (static_cache : option past_t)
  (x : PrepareArgs E) (out : ModelInputs E) (m : list (list bool))
  (ids : list (list (list Z))) (pos : list (list Z)) (M : nat) :
  prepare_inputs_for_generation static_cache x = Ok out ->
  pi_kw_position_ids x = None ->
  past_truthy (match pi_past_key_values x with
               | Some c => Some c
               | None => static_cache
               end) = true ->
  mi_attention_mask out = Some m ->
  mi_input_ids out = Some ids ->
  mi_position_ids out = Some pos ->
  Forall (fun mrow => length mrow = M) m ->
  Forall (fun prow => length prow = if seq_len ids =? 0 then M
                                    else Nat.min (seq_len ids) M) pos.
Proof.
  unfold prepare_inputs_for_generation. intros H Hkw Ht Hm Hi Hp Hrect.
  inv_bind H as r Hr. inversion H; subst out; clear H. simpl in *.
  rewrite Hkw, Hm, Ht in Hp. inversion Hp; subst pos; clear Hp.
  assert (Hids : snd (fst r) = ids).
  { destruct (match pi_inputs_embeds x with Some _ => _ | None => _ end);
      [discriminate | inversion Hi; reflexivity]. }
  rewrite Hids. apply Forall_forall. intros prow Hin.
  rewrite map_map in Hin. apply in_map_iff in Hin. destruct Hin as [mrow [<- Hmr]].
  rewrite Forall_forall in Hrect. specialize (Hrect mrow Hmr).
  unfold py_from. rewrite length_skipn, position_row_length, Hrect.
  destruct (Nat.eqb_spec (seq_len ids) 0) as [E0|E0].
  - rewrite E0. simpl. destruct (Z.ltb_spec 0 0); lia.
  - destruct (Z.ltb_spec (- Z.of_nat (seq_len ids)) 0); lia.
Qed.


(** * [get_emb] *)

Lemma zip_with_combine {A B C : Type} (f : A -> B -> C) (l : list A)
  (l' : list B) :
  zip_with f l l' = map (fun p => f (fst p) (snd p)) (combine l l').
Proof.
  revert l'. induction l as [|x r IH]; intros [|y r']; simpl; try reflexivity.
  f_equal. apply IH.
Qed.

Lemma mapM_total {A B : Type} (f : A -> result B) (h : A -> B) (l : list A) :
  (forall x, In x l -> f x = Ok (h x)) -> mapM f l = Ok (map h l).
Proof.
  induction l as [|x r IH]; intros H; simpl; [reflexivity|].
  rewrite (H x (or_introl eq_refl)). simpl.
  rewrite IH by (intros y Hy; apply H; right; exact Hy). reflexivity.
Qed.

Lemma mapM_Ok_total {A B : Type} (f : A -> result B) (h : A -> B) (l : list A)
  (l' : list B) :
  (forall x y, f x = Ok y -> y = h x) ->
  mapM f l = Ok l' ->
  l' = map h l /\ forall x, In x l -> f x = Ok (h x).
Proof.
  intros Hh. revert l'. induction l as [|x r IH]; intros l' H; simpl in H.
  - inversion H. split; [reflexivity | intros x []].
  - inv_bind H as y Hy. inv_bind H as ys Hys. inversion H; subst l'; clear H.
    destruct (IH ys Hys) as [-> Hall]. pose proof (Hh x y Hy) as ->.
    split; [reflexivity|]. intros z [<-|Hz]; auto.
Qed.

Lemma mapM_error_kind {A B : Type} (f : A -> result B) (k : error) (l : list A)
  (e : error) :
  (forall x e', In x l -> f x = Raise e' -> e' = k) ->
  mapM f l = Raise e -> e = k.
Proof.
  induction l as [|x r IH]; intros Hk H; simpl in H; [discriminate|].
  destruct (f x) as [y|e'] eqn:Hx; simpl in H.
  - destruct (mapM f r) as [ys|e''] eqn:Hr; simpl in H; [discriminate|].
    inversion H; subst e''. apply IH; [|reflexivity].
    intros z e1 Hz. apply Hk. right. exact Hz.
  - inversion H; subst e'. apply (Hk x e (or_introl eq_refl) Hx).
Qed.

Lemma mapM_length {A B : Type} (f : A -> result B) (l : list A) (l' : list B) :
  mapM f l = Ok l' -> length l' = length l.
Proof.
  intros H. apply mapM_Ok_Forall2 in H. symmetry. eapply Forall2_length; eauto.
Qed.

Lemma embed_lookup_Ok {V : Type} (d : V) (tbl : list V) (idx : Z) :
  (0 <= idx < Z.of_nat (length tbl))%Z ->
  embed_lookup tbl idx = Ok (nth (Z.to_nat idx) tbl d).
Proof.
  intros H. unfold embed_lookup.
  destruct (Z.ltb_spec idx 0); [lia|].
  destruct (nth_error tbl (Z.to_nat idx)) as [v|] eqn:E.
  - rewrite (nth_error_nth _ _ d E). reflexivity.
  - apply nth_error_None in E. lia.
Qed.

Lemma embed_lookup_inv {V : Type} (d : V) (tbl : list V) (idx : Z) (v : V) :
  embed_lookup tbl idx = Ok v ->
  (0 <= idx < Z.of_nat (length tbl))%Z /\ v = nth (Z.to_nat idx) tbl d.
Proof.
  unfold embed_lookup. destruct (Z.ltb_spec idx 0); [discriminate|].
  destruct (nth_error tbl (Z.to_nat idx)) as [v'|] eqn:E; [|discriminate].
  intros H'. inversion H'; subst v'.
  assert (Z.to_nat idx < length tbl) by (apply nth_error_Some; congruence).
  split; [lia|]. symmetry. apply nth_error_nth. exact E.
Qed.

Lemma embed_lookup_error {V : Type} (tbl : list V) (idx : Z) (e : error) :
  embed_lookup tbl idx = Raise e -> e = IndexError.
Proof.
  unfold embed_lookup. destruct (idx <? 0)%Z; [congruence|].
  destruct (nth_error tbl (Z.to_nat idx)); [discriminate | congruence].
Qed.

Lemma same_shape_Forall2 {A B : Type} (x : list (list A)) (y : list (list B)) :
  same_shape x y = true -> Forall2 (fun r r' => length r = length r') x y.
Proof.
  unfold same_shape. intros H. apply andb_true_iff in H. destruct H as [Hl H].
  apply Nat.eqb_eq in Hl. revert y Hl H.
  induction x as [|r x IH]; intros [|r' y] Hl H; simpl in *; try discriminate;
    constructor.
  - apply andb_true_iff in H. destruct H as [H _]. apply Nat.eqb_eq. exact H.
  - apply andb_true_iff in H. destruct H as [_ H]. apply IH; [lia | exact H].
Qed.

Lemma select_cons {A : Type} (keep : bool) (mrow : list bool)
  (mask : list (list bool)) (trow : list A) (t : list (list A)) :
  select keep (mrow :: mask) (trow :: t)
  = select_row keep mrow trow ++ select keep mask t.
Proof. reflexivity. Qed.

Lemma In_select_row {A : Type} (keep : bool) (mrow : list bool) (trow : list A)
  (x : A) :
  In x (select_row keep mrow trow) <-> In (keep, x) (combine mrow trow).
Proof.
  unfold select_row. rewrite in_map_iff. split.
  - intros [[b y] [Hy Hin]]. simpl in Hy. subst y.
    apply filter_In in Hin. destruct Hin as [Hin Hb]. simpl in Hb.
    apply eqb_prop in Hb. subst b. exact Hin.
  - intros Hin. exists (keep, x). split; [reflexivity|].
    apply filter_In. split; [exact Hin|]. simpl. apply eqb_reflx.
Qed.

Lemma In_select {A : Type} (keep : bool) (mask : list (list bool))
  (t : list (list A)) (x : A) :
  In x (select keep mask t) <->
  exists mrow trow, In (mrow, trow) (combine mask t) /\
                    In (keep, x) (combine mrow trow).
Proof.
  unfold select. rewrite in_concat. split.
  - intros [l [Hl Hx]]. rewrite zip_with_combine in Hl.
    apply in_map_iff in Hl. destruct Hl as [[mrow trow] [<- Hin]].
    exists mrow, trow. split; [exact Hin|]. apply In_select_row. exact Hx.
  - intros [mrow [trow [Hin Hx]]]. exists (select_row keep mrow trow). split.
    + rewrite zip_with_combine. apply in_map_iff. exists (mrow, trow). auto.
    + apply In_select_row. exact Hx.
Qed.

Lemma select_row_zip_with {A B : Type} (f : bool -> A -> B) (keep : bool)
  (mrow : list bool) (trow : list A) :
  select_row keep mrow (zip_with f mrow trow)
  = map (f keep) (select_row keep mrow trow).
Proof.
  revert trow. induction mrow as [|b mr IH]; intros [|x tr]; try reflexivity.
  unfold select_row in *. simpl. destruct (Bool.eqb b keep) eqn:E; simpl.
  - apply eqb_prop in E. subst b. f_equal. apply IH.
  - apply IH.
Qed.

Lemma select_zip_with {A B : Type} (f : bool -> A -> B) (keep : bool)
  (mask : list (list bool)) (t : list (list A)) :
  select keep mask (zip_with (fun mrow trow => zip_with f mrow trow) mask t)
  = map (f keep) (select keep mask t).
Proof.
  revert t. induction mask as [|mrow mask IH]; intros [|trow t]; try reflexivity.
  simpl zip_with. rewrite !select_cons, map_app, IH, select_row_zip_with.
  reflexivity.
Qed.

(** Writing the selected values of [erow] back, first where the mask is
    set and then where it is not, rebuilds [erow]. *)
Lemma assign_row_round_trip {V : Type} (mrow : list bool) (erow cur : list V)
  (rest rest' : list V) :
  length mrow = length erow -> length cur = length mrow ->
  snd (assign_row true mrow cur (select_row true mrow erow ++ rest)) = rest /\
  assign_row false mrow
    (fst (assign_row true mrow cur (select_row true mrow erow ++ rest)))
    (select_row false mrow erow ++ rest') = (erow, rest').
Proof.
  revert erow cur. induction mrow as [|b mr IH]; intros erow cur He Hc.
  - destruct erow; [|discriminate]. destruct cur; [|discriminate]. auto.
  - destruct erow as [|x er]; [discriminate|].
    destruct cur as [|c cr]; [discriminate|].
    simpl in He, Hc.
    destruct (IH er cr ltac:(lia) ltac:(lia)) as [H1 H2].
    unfold select_row in *. destruct b; simpl.
    + split; [exact H1|]. rewrite H2. reflexivity.
    + split; [exact H1|]. rewrite H2. reflexivity.
Qed.

Lemma assign_where_round_trip {V : Type} (mask : list (list bool))
  (e cur : list (list V)) (rest rest' : list V) :
  Forall2 (fun r r' => length r = length r') mask e ->
  Forall2 (fun r r' => length r = length r') cur mask ->
  assign_where false mask
    (assign_where true mask cur (select true mask e ++ rest))
    (select false mask e ++ rest') = e.
Proof.
  intros He. revert cur. induction He as [|mrow erow mask e Hl _ IH];
    intros cur Hc.
  - inversion Hc. reflexivity.
  - inversion Hc as [|crow mrow' cr mask' Hlc Hcr]; subst.
    rewrite !select_cons, <- !app_assoc. simpl.
    destruct (assign_row_round_trip mrow erow crow
                (select true mask e ++ rest) (select false mask e ++ rest')
                Hl Hlc) as [H1 H2].
    rewrite H1, H2. simpl. f_equal. apply IH. exact Hcr.
Qed.

Lemma map_seq_nth {A B : Type} (F : A -> B) (l : list A) (d : A) :
  map (fun k => F (nth k l d)) (seq 0 (length l)) = map F l.
Proof.
  induction l as [|x l IH]; [reflexivity|].
  simpl. f_equal. rewrite <- seq_shift, map_map. exact IH.
Qed.

Lemma nth_map_lt {A B : Type} (f : A -> B) (l : list A) (k : nat) (d : B)
  (d' : A) :
  k < length l -> nth k (map f l) d = f (nth k l d').
Proof.
  intros H. rewrite (nth_indep _ d (f d')) by (rewrite length_map; exact H).
  apply map_nth.
Qed.

Lemma nth_map_map {A B : Type} (f : A -> B) (l : list (list A)) (k : nat) :
  nth k (map (map f) l) [] = map f (nth k l []).
Proof.
  exact (map_nth (map f) l [] k).
Qed.

Section EmbeddingFacts.

Context {V : Type} (w : Embeddings V) (W : nat).

Hypothesis W_pos : 0 < W.
Hypothesis codes_fit : length (emb_code_w w) <= W.
Hypothesis codes_exist : 0 < length (emb_code_w w).

Lemma in_code_tables (it : nat * list V) :
  In it (code_tables w) -> fst it < W.
Proof.
  unfold code_tables. destruct it as [i tbl]. intros H.
  apply in_combine_l, in_seq in H. simpl. lia.
Qed.

Lemma code_tables_nonempty : code_tables w <> [].
Proof.
  unfold code_tables. destruct (emb_code_w w); simpl in *; [lia | discriminate].
Qed.

Lemma text_lookup_total (row : list Z) :
  in_vocab w true row ->
  embed_lookup (emb_text_w w) (nth 0 row 0%Z) = Ok (embed_total w true row).
Proof.
  intros H. apply embed_lookup_Ok. exact H.
Qed.

Lemma code_lookup_total (it : nat * list V) (row : list Z) :
  in_vocab w false row -> In it (code_tables w) ->
  embed_lookup (snd it) (nth (fst it) row 0%Z)
  = Ok (lookup_total w (snd it) (nth (fst it) row 0%Z)).
Proof.
  intros H Hin. apply embed_lookup_Ok. apply H. exact Hin.
Qed.

(** The lookups of all codebooks on a list of rows, codebook by
    codebook, and their sum over the codebooks, row by row. *)
Lemma code_columns_sum (rows : list (list Z)) :
  map (fun k =>
         vsum w (map (fun col => nth k col (vzero w))
                     (map (fun it => map (fun row => lookup_total w (snd it)
                                                      (nth (fst it) row 0%Z))
                                         rows)
                          (code_tables w))))
      (seq 0 (length rows))
  = map (embed_total w false) rows.
Proof.
  rewrite <- (map_seq_nth (embed_total w false) rows []).
  apply map_ext_in. intros k Hk. apply in_seq in Hk.
  unfold embed_total. f_equal. rewrite map_map. apply map_ext. intros it.
  rewrite (nth_map_lt _ rows k (vzero w) []) by lia. reflexivity.
Qed.

Lemma get_emb_complete (ids : list (list (list Z))) (mask : list (list bool)) :
  same_shape mask ids = true ->
  positions_in_vocab w ids mask ->
  get_emb w W ids mask = Ok (emb_pointwise w ids mask).
Proof.
  intros Hsh Hv. unfold get_emb. rewrite Hsh. simpl.
  destruct (Nat.eqb_spec W 0) as [E|_]; [lia|].
  assert (Hsel : forall keep row, In row (select keep mask ids) ->
                                  in_vocab w keep row).
  { intros keep row Hin. apply In_select in Hin.
    destruct Hin as [mrow [irow [H1 H2]]]. eapply Hv; eauto. }
  rewrite (mapM_total _ (embed_total w true));
    [|intros row Hin; apply text_lookup_total; apply Hsel; exact Hin].
  simpl.
  rewrite (mapM_total _ (fun it => map (fun row => lookup_total w (snd it)
                                                     (nth (fst it) row 0%Z))
                                       (select false mask ids))).
  2:{ intros it Hit. pose proof (in_code_tables it Hit) as Hlt.
      apply Nat.ltb_lt in Hlt. rewrite Hlt. apply mapM_total.
      intros row Hin. apply code_lookup_total; [apply Hsel; exact Hin | exact Hit]. }
  simpl.
  destruct (map _ (code_tables w)) as [|c cs] eqn:Ec.
  { apply map_eq_nil in Ec. exfalso. apply code_tables_nonempty. exact Ec. }
  rewrite <- Ec. simpl. rewrite code_columns_sum. f_equal.
  assert (Hsel' : forall keep,
            map (embed_total w keep) (select keep mask ids)
            = select keep mask (emb_pointwise w ids mask) ++ []).
  { intros keep. rewrite app_nil_r. unfold emb_pointwise. symmetry.
    apply (select_zip_with (embed_total w)). }
  rewrite !Hsel'.
  apply same_shape_Forall2 in Hsh.
  apply assign_where_round_trip.
  - unfold emb_pointwise. clear -Hsh.
    induction Hsh as [|mrow irow mask ids Hl _ IH]; simpl; constructor; auto.
    rewrite zip_with_length; auto.
  - clear -Hsh.
    induction Hsh as [|mrow irow mask ids Hl _ IH]; simpl; constructor; auto.
    rewrite length_map. auto.
Qed.

Lemma mapM_Ok_each {A B : Type} (f : A -> result B) (l : list A)
  (l' : list B) (x : A) :
  mapM f l = Ok l' -> In x l -> exists y, f x = Ok y.
Proof.
  intros H. apply mapM_Ok_Forall2 in H.
  induction H as [|x0 y0 l l' Hxy _ IH]; intros Hin; [contradiction|].
  destruct Hin as [<-|Hin]; eauto.
Qed.

Lemma get_emb_sound (ids : list (list (list Z))) (mask : list (list bool))
  (e : list (list V)) :
  get_emb w W ids mask = Ok e ->
  same_shape mask ids = true /\ positions_in_vocab w ids mask.
Proof.
  unfold get_emb. destruct (same_shape mask ids) eqn:Hsh; simpl; [|discriminate].
  destruct (W =? 0); [discriminate|]. intros H. split; [reflexivity|].
  inv_bind H as emb_text Ht. inv_bind H as emb_code Hc. clear H.
  intros mrow irow b row H1 H2.
  assert (Hin : In row (select b mask ids)).
  { apply In_select. eauto. }
  destruct b; unfold in_vocab.
  - destruct (mapM_Ok_each _ _ _ _ Ht Hin) as [y Hy].
    apply (embed_lookup_inv (vzero w)) in Hy. apply Hy.
  - intros it Hit. destruct (mapM_Ok_each _ _ _ _ Hc Hit) as [col Hcol].
    destruct (fst it <? W); [|discriminate].
    destruct (mapM_Ok_each _ _ _ _ Hcol Hin) as [y Hy].
    apply (embed_lookup_inv (vzero w)) in Hy. apply Hy.
Qed.

Lemma get_emb_error (ids : list (list (list Z))) (mask : list (list bool))
  (err : error) :
  get_emb w W ids mask = Raise err -> err = IndexError.
Proof.
  unfold get_emb. destruct (same_shape mask ids); simpl; [|congruence].
  destruct (W =? 0); [congruence|].
  destruct (mapM _ (select true mask ids)) as [emb_text|e1] eqn:Ht; simpl.
  2:{ intros H. inversion H; subst e1.
      eapply mapM_error_kind; [|exact Ht].
      intros row e' _ He'. exact (embed_lookup_error _ _ _ He'). }
  destruct (mapM _ (code_tables w)) as [emb_code|e2] eqn:Hc; simpl.
  2:{ intros H. inversion H; subst e2.
      eapply mapM_error_kind; [|exact Hc].
      intros it e' _ He'. cbv beta in He'.
      destruct (fst it <? W); [|congruence].
      eapply mapM_error_kind; [|exact He'].
      intros row e'' _ He''. exact (embed_lookup_error _ _ _ He''). }
  destruct emb_code as [|c cs]; simpl; [|discriminate].
  apply mapM_length in Hc. simpl in Hc. exfalso.
  apply code_tables_nonempty. destruct (code_tables w); [reflexivity|discriminate].
Qed.


Lemma embed_rows_complete (b : bool) (ids : list (list (list Z))) :
  (forall irow row, In irow ids -> In row irow -> in_vocab w b row) ->
  embed_rows w W b ids = Ok (map (map (embed_total w b)) ids).
Proof.
  intros Hv. unfold embed_rows. destruct b.
  - destruct (Nat.eqb_spec W 0); [lia|].
    apply mapM_total. intros irow Hi. apply mapM_total. intros row Hr.
    apply text_lookup_total. eapply Hv; eauto.
  - rewrite (mapM_total _ (fun it => map (map (fun row =>
                              lookup_total w (snd it) (nth (fst it) row 0%Z)))
                                         ids)).
    2:{ intros it Hit. pose proof (in_code_tables it Hit) as Hlt.
        apply Nat.ltb_lt in Hlt. rewrite Hlt.
        apply mapM_total. intros irow Hi. apply mapM_total. intros row Hr.
        apply code_lookup_total; [eapply Hv; eauto | exact Hit]. }
    simpl.
    destruct (map _ (code_tables w)) as [|c cs] eqn:Ec.
    { apply map_eq_nil in Ec. exfalso. apply code_tables_nonempty. exact Ec. }
    rewrite <- Ec. f_equal.
    rewrite <- (map_seq_nth (map (embed_total w false)) ids []).
    apply map_ext_in. intros bi Hb.
    rewrite <- (map_seq_nth (embed_total w false) (nth bi ids []) []).
    apply map_ext_in. intros p Hp. apply in_seq in Hp.
    unfold embed_total. f_equal. rewrite map_map. apply map_ext. intros it.
    rewrite nth_map_map.
    rewrite (nth_map_lt _ (nth bi ids []) p (vzero w) []) by lia. reflexivity.
Qed.

Lemma embed_rows_sound (b : bool) (ids : list (list (list Z)))
  (e : list (list V)) :
  embed_rows w W b ids = Ok e ->
  forall irow row, In irow ids -> In row irow -> in_vocab w b row.
Proof.
  unfold embed_rows. intros H irow row Hi Hr. destruct b; unfold in_vocab.
  - destruct (W =? 0); [discriminate|].
    destruct (mapM_Ok_each _ _ _ _ H Hi) as [erow He].
    destruct (mapM_Ok_each _ _ _ _ He Hr) as [y Hy].
    apply (embed_lookup_inv (vzero w)) in Hy. apply Hy.
  - inv_bind H as code_emb Hc. intros it Hit.
    destruct (mapM_Ok_each _ _ _ _ Hc Hit) as [col Hcol].
    destruct (fst it <? W); [|discriminate].
    destruct (mapM_Ok_each _ _ _ _ Hcol Hi) as [erow He].
    destruct (mapM_Ok_each _ _ _ _ He Hr) as [y Hy].
    apply (embed_lookup_inv (vzero w)) in Hy. apply Hy.
Qed.

Lemma embed_rows_error (b : bool) (ids : list (list (list Z))) (err : error) :
  embed_rows w W b ids = Raise err -> err = IndexError.
Proof.
  unfold embed_rows. destruct b.
  - destruct (W =? 0); [congruence|]. intros H.
    eapply mapM_error_kind; [|exact H].
    intros irow e' _ He'. eapply mapM_error_kind; [|exact He'].
    intros row e'' _ He''. exact (embed_lookup_error _ _ _ He'').
  - destruct (mapM _ (code_tables w)) as [code_emb|e2] eqn:Hc; simpl.
    2:{ intros H. inversion H; subst e2.
        eapply mapM_error_kind; [|exact Hc].
        intros it e' _ He'. cbv beta in He'.
        destruct (fst it <? W); [|congruence].
        eapply mapM_error_kind; [|exact He'].
        intros irow e3 _ He3. eapply mapM_error_kind; [|exact He3].
        intros row e4 _ He4. exact (embed_lookup_error _ _ _ He4). }
    destruct code_emb as [|c cs]; [|discriminate].
    apply mapM_length in Hc. simpl in Hc. exfalso.
    apply code_tables_nonempty.
    destruct (code_tables w); [reflexivity|discriminate].
Qed.

Lemma const_mask_shape (b : bool) (ids : list (list (list Z))) :
  same_shape (const_mask b ids) ids = true.
Proof.
  unfold same_shape, const_mask. rewrite length_map, Nat.eqb_refl. simpl.
  induction ids as [|irow ids IH]; simpl; [reflexivity|].
  rewrite length_map, Nat.eqb_refl. exact IH.
Qed.

Lemma const_mask_positions (b : bool) (ids : list (list (list Z))) :
  positions_in_vocab w ids (const_mask b ids) <->
  (forall irow row, In irow ids -> In row irow -> in_vocab w b row).
Proof.
  unfold positions_in_vocab, const_mask. split.
  - intros H irow row Hi Hr.
    apply (H (map (fun _ => b) irow) irow b row).
    + clear -Hi. induction ids as [|x ids IH]; simpl in *; [contradiction|].
      destruct Hi as [->|Hi]; [left; reflexivity | right; auto].
    + clear -Hr. induction irow as [|x irow IH]; simpl in *; [contradiction|].
      destruct Hr as [->|Hr]; [left; reflexivity | right; auto].
  - intros H mrow irow b' row H1 H2.
    assert (Hm : mrow = map (fun _ => b) irow /\ In irow ids).
    { clear -H1. induction ids as [|x ids IH]; simpl in *; [contradiction|].
      destruct H1 as [H1|H1]; [inversion H1; subst; auto|].
      destruct (IH H1); auto. }
    destruct Hm as [-> Hi].
    assert (Hb : b' = b /\ In row irow).
    { clear -H2. induction irow as [|x irow IH]; simpl in *; [contradiction|].
      destruct H2 as [H2|H2]; [inversion H2; subst; auto|].
      destruct (IH H2); auto. }
    destruct Hb as [-> Hr]. eapply H; eauto.
Qed.

Lemma const_mask_pointwise (b : bool) (ids : list (list (list Z))) :
  emb_pointwise w ids (const_mask b ids) = map (map (embed_total w b)) ids.
Proof.
  unfold emb_pointwise, const_mask.
  induction ids as [|irow ids IH]; simpl; [reflexivity|]. f_equal; [|exact IH].
  clear. induction irow as [|row irow IH]; simpl; [reflexivity|].
  f_equal. exact IH.
Qed.

End EmbeddingFacts.

(** X11: with a mask of the shape of the ids and at least [num_vq] >= 1
    columns, [get_emb] returns exactly when every index it looks up is
    inside its table (column 0 in the text table at text positions,
    column [i] in codebook [i] at the other positions); the result then
    holds, position by position, the text vector or the sum of the
    codebook vectors.  Whatever it raises is an IndexError. *)
Theorem get_emb_in_vocab_pointwise {V : Type} (w : Embeddings V) (W : nat)
  (ids : list (list (list Z))) (mask : list (list bool)) :
  0 < W ->
  0 < length (emb_code_w w) <= W ->
  (forall e, get_emb w W ids mask = Ok e <->
             same_shape mask ids = true /\
             positions_in_vocab w ids mask /\
             e = emb_pointwise w ids mask)
  /\ (forall err, get_emb w W ids mask = Raise err -> err = IndexError).
Proof.
  intros HW [Hc Hf]. split.
  - intros e. split.
    + intros He.
      destruct (get_emb_sound w W ids mask e He) as [Hs Hp].
      split; [exact Hs|]. split; [exact Hp|].
      rewrite (get_emb_complete w W HW Hf Hc ids mask Hs Hp) in He.
      congruence.
    + intros [Hs [Hp ->]]. exact (get_emb_complete w W HW Hf Hc ids mask Hs Hp).
  - intros err. apply get_emb_error; assumption.
Qed.

(** X12: the embedding of the newest token rows inside the loop (text
    mode or audio mode) is [get_emb] under the mask that is everywhere
    text, respectively nowhere text: same result, same failure. *)
Theorem embed_rows_is_get_emb {V : Type} (w : Embeddings V) (W : nat)
  (infer_text : bool) (ids : list (list (list Z))) :
  0 < W ->
  0 < length (emb_code_w w) <= W ->
  embed_rows w W infer_text ids = get_emb w W ids (const_mask infer_text ids).
Proof.
  intros HW [Hc Hf].
  destruct (embed_rows w W infer_text ids) as [e|err] eqn:He.
  - pose proof (embed_rows_sound w W infer_text ids e He) as Hin.
    rewrite (embed_rows_complete w W HW Hf Hc infer_text ids Hin) in He.
    rewrite (get_emb_complete w W HW Hf Hc ids (const_mask infer_text ids)).
    + rewrite (const_mask_pointwise w). exact (eq_sym He).
    + apply const_mask_shape.
    + apply (const_mask_positions w). exact Hin.
  - pose proof (embed_rows_error w W HW Hf Hc infer_text ids err He) as ->.
    destruct (get_emb w W ids (const_mask infer_text ids)) as [e'|err'] eqn:Hg.
    + destruct (get_emb_sound w W ids _ e' Hg) as [_ Hp].
      pose proof (proj1 (const_mask_positions w infer_text ids) Hp) as Hp'.
      clear Hp; rename Hp' into Hp.
      rewrite (embed_rows_complete w W HW Hf Hc infer_text ids Hp) in He.
      discriminate.
    + rewrite (get_emb_error w W HW Hf Hc ids _ err' Hg). reflexivity.
Qed.

(** * The ['hiddens'] entry of the payloads *)

Lemma combine_nth_error {A B : Type} (l : list A) (l' : list B) (n : nat) :
  nth_error (combine l l') n
  = match nth_error l n, nth_error l' n with
    | Some x, Some y => Some (x, y)
    | _, _ => None
    end.
Proof.
  revert l' n. induction l as [|x l IH]; intros l' n.
  - destruct n; reflexivity.
  - destruct l' as [|y l'].
    + destruct n; simpl; [reflexivity|]. destruct (nth_error l n); reflexivity.
    + destruct n; simpl; [reflexivity|]. apply IH.
Qed.

Lemma seq_nth_error (start len n : nat) :
  n < len -> nth_error (seq start len) n = Some (start + n).
Proof.
  intros H. rewrite (nth_error_nth' _ 0) by (rewrite length_seq; exact H).
  rewrite seq_nth by exact H. reflexivity.
Qed.

Section Hiddens.

Context {T : Backend} (self : GPT_warpper) (a : Args T) (g : rng T).

Lemma step_hiddens (i : nat) (s s' : LoopState T) y brk :
  step self a i s = Ok (s', y, brk) ->
  hiddens s' = if return_hidden a
               then hiddens s ++ [map (out_hidden_last (forward_step a i s))
                                      (seq 0 (length (inputs_ids s)))]
               else hiddens s.
Proof.
  unfold step. intros H.
  inv_bind H as r Hr. inv_bind H as rows Hrows. inv_bind H as s1 Hs1.
  inv_bind H as y' Hy.
  inversion H; subst; clear H.
  unfold advance in Hs1.
  destruct (cat_accepts self (inputs_ids s)); [|discriminate].
  inversion Hs1; subst; clear Hs1. reflexivity.
Qed.

(** One hidden state per row is kept at every step when they are asked
    for, and none otherwise. *)
Lemma history_hiddens (t : nat) (s : LoopState T) :
  nth_error (history self a g) t = Some s ->
  if return_hidden a
  then length (hiddens s) = t /\
       Forall (fun h => length h = length (arg_inputs_ids a)) (hiddens s)
  else hiddens s = [].
Proof.
  revert s. induction t as [|t IH]; intros s Hs.
  - unfold history in Hs.
    destruct (init_state a g) as [s0|] eqn:H0; [|discriminate].
    simpl in Hs. inversion Hs; subst s0; clear Hs.
    apply init_state_inv in H0. destruct H0 as [_ [_ [_ [_ [Hh _]]]]].
    rewrite Hh. destruct (return_hidden a); auto.
  - destruct (history_prefix self a g t s Hs) as [s1 Hs1].
    destruct (history_step self a g t s1 s Hs1 Hs) as [y [brk Hst]].
    pose proof (step_hiddens _ _ _ _ _ Hst) as Hh.
    specialize (IH s1 Hs1).
    destruct (history_batch self a g t s1 Hs1) as [HB _].
    destruct (return_hidden a).
    + destruct IH as [Hl Hall]. rewrite Hh. split.
      * rewrite length_app. simpl. lia.
      * apply Forall_app. split; [exact Hall|].
        constructor; [|constructor].
        rewrite length_map, length_seq. exact HB.
    + congruence.
Qed.

Lemma stacked_row_length (hs : list (list (hidden T))) (idx B : nat) :
  Forall (fun h => length h = B) hs -> idx < B ->
  length (stacked_row hs idx) = length hs.
Proof.
  intros Hall Hidx. unfold stacked_row.
  induction Hall as [|h hs Hh Hall IH]; simpl; [reflexivity|].
  rewrite length_app, IH.
  destruct (nth_error h idx) eqn:E; [reflexivity|].
  apply nth_error_None in E. lia.
Qed.

Lemma slice_hiddens_lengths (hs : list (list (hidden T))) (ends : list nat)
  (out : list (list (hidden T))) :
  Forall (fun h => length h = length ends) hs ->
  Forall (fun e => e <= length hs) ends ->
  slice_hiddens hs ends = Ok out ->
  map (@length _) out = ends.
Proof.
  intros Hall Hle H. unfold slice_hiddens in H.
  assert (E : out = map (fun p => firstn (snd p) (stacked_row hs (fst p)))
                        (combine (seq 0 (length ends)) ends))
    by (destruct hs; [discriminate | inversion H; reflexivity]).
  subst out. clear H.
  apply list_eq_nth_error. intros r.
  rewrite !nth_error_map.
  destruct (nth_error ends r) as [e|] eqn:Ee.
  - assert (Hr : r < length ends) by (apply nth_error_Some; congruence).
    assert (Ec : nth_error (combine (seq 0 (length ends)) ends) r = Some (r, e)).
    { rewrite combine_nth_error, (seq_nth_error 0 _ r Hr), Ee. reflexivity. }
    rewrite Ec. simpl. rewrite length_firstn.
    rewrite (stacked_row_length hs r (length ends) Hall Hr).
    rewrite Forall_forall in Hle.
    pose proof (Hle e (nth_error_In _ _ Ee)). f_equal. lia.
  - assert (Ec : nth_error (combine (seq 0 (length ends)) ends) r = None).
    { apply nth_error_None. rewrite length_combine, length_seq.
      apply nth_error_None in Ee. lia. }
    rewrite Ec. reflexivity.
Qed.

(** The payloads a streaming step yields. *)
Lemma snapshot_hiddens (s : LoopState T) (y : Payload T) :
  stream_snapshot a s = Ok (Some y) ->
  if return_hidden a
  then slice_hiddens (hiddens s) (end_idx s) = Ok (p_hiddens y)
  else p_hiddens y = [[]].
Proof.
  unfold stream_snapshot. intros H. inv_bind H as c Hc.
  destruct (c && negb (all (finish s))); [discriminate|].
  inv_bind H as hs Hhs. inversion H; subst y; clear H. simpl.
  destruct (return_hidden a); [exact Hhs | inversion Hhs; reflexivity].
Qed.

Lemma loop_yields_hiddens (n i : nat) (s : LoopState T) (y : Payload T) :
  In y (yields (loop self a n i s)) ->
  exists s', In s' (visited (loop self a n i s)) /\
             ids y = slice_ids a (start_idx s') (inputs_ids s') (end_idx s') /\
             if return_hidden a
             then slice_hiddens (hiddens s') (end_idx s') = Ok (p_hiddens y)
             else p_hiddens y = [[]].
Proof.
  revert i s. induction n as [|n IH]; intros i s; simpl; [contradiction|].
  destruct (step self a i s) as [[[s' y0] brk]|e] eqn:Hst; simpl;
    [|contradiction].
  assert (Hy0 : forall y1, y0 = Some y1 ->
            ids y1 = slice_ids a (start_idx s') (inputs_ids s') (end_idx s') /\
            if return_hidden a
            then slice_hiddens (hiddens s') (end_idx s') = Ok (p_hiddens y1)
            else p_hiddens y1 = [[]]).
  { intros y1 ->. apply step_inv in Hst.
    destruct Hst as [rows [_ [_ [_ [_ [_ [_ [_ [_ [_ [_ [_ [_ [_ Hy]]]]]]]]]]]]]].
    destruct (stream a); [|discriminate].
    split; [apply snapshot_ids | apply snapshot_hiddens]; exact Hy. }
  destruct brk; simpl.
  - destruct y0 as [y1|]; simpl; [|contradiction].
    intros [<-|[]]. exists s'. split; [left; reflexivity | auto].
  - intros Hin. apply in_app_or in Hin. destruct Hin as [Hin|Hin].
    + destruct y0 as [y1|]; simpl in Hin; [|contradiction].
      destruct Hin as [<-|[]]. exists s'. split; [left; reflexivity | auto].
    + destruct (IH (S i) s' Hin) as [s2 [H2 Hids]].
      exists s2. split; [right; exact H2 | exact Hids].
Qed.

Lemma final_payload_inv (s : LoopState T) (p : Payload T) lg :
  final_payload a s = Ok (p, lg) ->
  ids p = slice_ids a (start_idx s) (inputs_ids s) (end_idx s) /\
  if return_hidden a
  then slice_hiddens (hiddens s) (end_idx s) = Ok (p_hiddens p)
  else p_hiddens p = hiddens s.
Proof.
  unfold final_payload. intros H. inv_bind H as hs Hhs.
  inversion H; subst p; clear H. simpl. split; [reflexivity|].
  destruct (return_hidden a); [exact Hhs | inversion Hhs; reflexivity].
Qed.

(** With the hidden states asked for, every payload of a call slices the
    ids and the hidden states of one and the same state. *)
Lemma yielded_hiddens_from_history (p : Payload T) :
  return_hidden a = true ->
  In p (yielded (generate self a g)) ->
  exists t s, nth_error (history self a g) t = Some s /\
              ids p = slice_ids a (start_idx s) (inputs_ids s) (end_idx s) /\
              slice_hiddens (hiddens s) (end_idx s) = Ok (p_hiddens p).
Proof.
  intros Hrh Hin. unfold history.
  destruct (init_state a g) as [s0|e] eqn:H0.
  2:{ unfold generate in Hin. rewrite H0 in Hin. simpl in Hin. contradiction. }
  rewrite (trace_generate self a g s0 H0).
  unfold generate in Hin. rewrite H0 in Hin.
  assert (Hloop : forall y, In y (yields (loop self a (max_new_token a) 0 s0)) ->
            exists t s,
              nth_error (s0 :: visited (loop self a (max_new_token a) 0 s0)) t
              = Some s /\
              ids y = slice_ids a (start_idx s) (inputs_ids s) (end_idx s) /\
              slice_hiddens (hiddens s) (end_idx s) = Ok (p_hiddens y)).
  { intros y Hy. destruct (loop_yields_hiddens _ _ _ _ Hy) as [s' [Hs' [Hids Hh]]].
    rewrite Hrh in Hh.
    destruct (In_nth_error (s0 :: visited (loop self a (max_new_token a) 0 s0))
                s' (or_intror Hs')) as [t Ht]. eauto. }
  destruct (ended (loop self a (max_new_token a) 0 s0)) as [sf|e] eqn:He;
    simpl in Hin.
  - destruct (final_payload a sf) as [[q lg]|e] eqn:Hq; simpl in Hin;
      [|exact (Hloop p Hin)].
    apply in_app_or in Hin. destruct Hin as [Hin|[<-|[]]];
      [exact (Hloop p Hin)|].
    destruct (In_nth_error _ _ (loop_ended_state self a _ _ _ _ He)) as [t Ht].
    exists t, sf. split; [exact Ht|].
    apply final_payload_inv in Hq. rewrite Hrh in Hq. exact Hq.
  - exact (Hloop p Hin).
Qed.

End Hiddens.

(** X13: with [return_hidden], every payload of a call, snapshot or
    final, carries for each row as many hidden states as it carries token
    rows. *)
Theorem hidden_rows_align_with_ids {T : Backend} (self : GPT_warpper)
  (a : Args T) (g : rng T) (p : Payload T) :
  rectangular_prompt a ->
  text_column_exists self a ->
  return_hidden a = true ->
  In p (yielded (generate self a g)) ->
  map (@length _) (p_hiddens p) = ids_lengths (ids p).
Proof.
  intros Hrect Hw Hrh Hin.
  destruct (yielded_hiddens_from_history self a g p Hrh Hin)
    as [t [s [Hs [Hids Hh]]]].
  rewrite Hids, (slice_ids_lengths self a g t s Hrect Hw Hs).
  pose proof (history_hiddens self a g t s Hs) as Hinv. rewrite Hrh in Hinv.
  destruct Hinv as [Hl Hall].
  destruct (history_batch self a g t s Hs) as [HB _].
  destruct (history_shaped self a g t s Hs) as [HE _].
  apply (slice_hiddens_lengths (hiddens s) (end_idx s) _).
  - rewrite HE, HB. exact Hall.
  - rewrite Hl. apply Forall_of_nth_error. intros r e He.
    eapply end_idx_le_steps; eauto.
  - exact Hh.
Qed.

(** X14: without [return_hidden] the ['hiddens'] entry differs between
    the payloads of one call: every streamed snapshot carries [[[]]] (a
    list holding one empty list), the final payload carries the empty
    list. *)
Theorem hiddens_entry_without_return_hidden {T : Backend} (self : GPT_warpper)
  (a : Args T) (g : rng T) :
  return_hidden a = false ->
  raised (generate self a g) = None ->
  exists snapshots final,
    yielded (generate self a g) = snapshots ++ [final] /\
    Forall (fun p => p_hiddens p = [[]]) snapshots /\
    p_hiddens final = [].
Proof.
  intros Hrh Hr.
  pose proof (history_hiddens self a g) as Hinv. rewrite Hrh in Hinv.
  unfold history in Hinv.
  destruct (init_state a g) as [s0|e] eqn:H0.
  2:{ unfold generate in Hr. rewrite H0 in Hr. discriminate. }
  rewrite (trace_generate self a g s0 H0) in Hinv.
  unfold generate in Hr |- *. rewrite H0 in Hr |- *.
  destruct (ended (loop self a (max_new_token a) 0 s0)) as [sf|e] eqn:He;
    [|discriminate].
  destruct (final_payload a sf) as [[q lg]|e] eqn:Hq; [|discriminate].
  simpl. exists (yields (loop self a (max_new_token a) 0 s0)), q.
  split; [reflexivity|]. split.
  - apply Forall_forall. intros y Hy.
    destruct (loop_yields_hiddens self a _ _ _ _ Hy) as [s' [_ [_ Hh]]].
    rewrite Hrh in Hh. exact Hh.
  - apply final_payload_inv in Hq. rewrite Hrh in Hq. destruct Hq as [_ ->].
    destruct (In_nth_error _ _ (loop_ended_state self a _ _ _ _ He)) as [t Ht].
    exact (Hinv t sf Ht).
Qed.

(** * The snapshots of a streaming call against the plain payload *)

Lemma final_yield_app_last {A : Type} (l l' : list A) (y : A) :
  final_yield l' = Some y -> final_yield (l ++ l') = Some y.
Proof.
  unfold final_yield. rewrite map_app. intros H.
  induction l as [|x l IH]; simpl; [exact H|].
  destruct (map Some l ++ map Some l') as [|z zs] eqn:E; [|exact IH].
  apply app_eq_nil in E. destruct E as [_ E].
  rewrite E in H. discriminate.
Qed.

Section LastSnapshot.

Context {T : Backend} (self : GPT_warpper) (a : Args T).

Lemma snapshot_when_due (s : LoopState T) (y0 : option (Payload T)) :
  stream_snapshot a s = Ok y0 -> snapshot_due s -> exists y, y0 = Some y.
Proof.
  unfold stream_snapshot. intros H Hdue.
  inv_bind H as c Hc.
  assert (E : c && negb (all (finish s)) = false).
  { destruct Hdue as [Hf|Hm].
    - rewrite Hf. apply andb_false_r.
    - destruct (end_idx s) as [|e [|e' r]];
        [discriminate Hc | | discriminate Hc].
      change (Ok (negb (e mod 24 =? 0)) = Ok c) in Hc.
      apply Forall_inv in Hm. cbv beta in Hm.
      rewrite Hm in Hc. injection Hc as <-. reflexivity. }
  rewrite E in H. inv_bind H as hs Hhs. inversion H. eauto.
Qed.

Lemma loop_no_visit (n i : nat) (s sf : LoopState T) :
  ended (loop self a n i s) = Ok sf ->
  visited (loop self a n i s) = [] ->
  sf = s /\ yields (loop self a n i s) = [].
Proof.
  destruct n as [|n]; simpl.
  - intros H _. inversion H. auto.
  - destruct (step self a i s) as [[[s' y] brk]|e]; simpl; [|discriminate].
    destruct brk; simpl; discriminate.
Qed.

(** When the test of line 313 lets the state the loop ends in through,
    the last thing the loop yields is the snapshot of that state. *)
Lemma loop_final_step_yields (n i : nat) (s sf : LoopState T) :
  stream a = true ->
  ended (loop self a n i s) = Ok sf ->
  visited (loop self a n i s) <> [] ->
  snapshot_due sf ->
  exists y, stream_snapshot a sf = Ok (Some y) /\
            final_yield (yields (loop self a n i s)) = Some y.
Proof.
  intros Hst. revert i s. induction n as [|n IH]; intros i s; simpl.
  - intros _ H. contradiction H. reflexivity.
  - destruct (step self a i s) as [[[s' y0] brk]|e] eqn:Hstep; simpl;
      [|discriminate].
    pose proof (step_inv _ _ _ _ _ _ _ Hstep) as Hinv.
    destruct Hinv as [rows [_ [_ [_ [_ [_ [_ [_ [_ [_ [_ [_ [_ [_ Hy]]]]]]]]]]]]]].
    rewrite Hst in Hy.
    destruct brk; simpl.
    + intros H _ Hdue. inversion H; subst sf.
      destruct (snapshot_when_due s' y0 Hy Hdue) as [y ->].
      exists y. split; [exact Hy | reflexivity].
    + intros He _ Hdue.
      destruct (visited (loop self a n (S i) s')) as [|v vs] eqn:Hv.
      * destruct (loop_no_visit n (S i) s' sf He Hv) as [-> Hys].
        rewrite Hys, app_nil_r.
        destruct (snapshot_when_due s' y0 Hy Hdue) as [y ->].
        exists y. split; [exact Hy | reflexivity].
      * destruct (IH (S i) s' He) as [y [H1 H2]];
          [rewrite Hv; discriminate | exact Hdue |].
        exists y. split; [exact H1|]. apply final_yield_app_last. exact H2.
Qed.

Lemma loop_yields_visited (n i : nat) (s : LoopState T) :
  visited (loop self a n i s) = [] -> yields (loop self a n i s) = [].
Proof.
  destruct n as [|n]; simpl; [reflexivity|].
  destruct (step self a i s) as [[[s' y] brk]|e]; simpl; [|reflexivity].
  destruct brk; simpl; discriminate.
Qed.

End LastSnapshot.

Section Returning.

Context {T : Backend} (self : GPT_warpper) (a : Args T) (g : rng T).

(** A call that ends normally, taken apart. *)
Lemma generate_returns_inv :
  raised (generate self a g) = None ->
  exists s0 sf q lg,
    init_state a g = Ok s0 /\
    ended (loop self a (max_new_token a) 0 s0) = Ok sf /\
    final_payload a sf = Ok (q, lg) /\
    yielded (generate self a g)
    = yields (loop self a (max_new_token a) 0 s0) ++ [q] /\
    trace (generate self a g) = visited (loop self a (max_new_token a) 0 s0).
Proof.
  unfold generate.
  destruct (init_state a g) as [s0|e] eqn:H0; [|discriminate].
  destruct (ended (loop self a (max_new_token a) 0 s0)) as [sf|e] eqn:He;
    [|discriminate].
  destruct (final_payload a sf) as [[q lg]|e] eqn:Hq; [|discriminate].
  intros _. exists s0, sf, q, lg. simpl. repeat split; auto.
Qed.

End Returning.

(** C6, as the code has it: when a streaming call ends normally, so does
    the plain call on the same arguments and generator state, and the last
    payload the streaming call yields, the one of lines 332-348, is the
    payload of the plain call; with a step to run the batch has one row.
    The last snapshot of lines 312-325 is another payload: when the test
    of line 313 lets the state the loop ends in through, it has the ids
    and the attentions of the plain payload, and its hidden states with
    [return_hidden]; without, it carries [[[]]] where the plain payload
    carries the empty list. *)
Theorem streaming_payloads_against_plain {T : Backend} (self : GPT_warpper)
  (a : Args T) (g : rng T) :
  raised (generate self (with_stream true a) g) = None ->
  exists p sf,
    raised (generate self (with_stream false a) g) = None /\
    yielded (generate self (with_stream false a) g) = [p] /\
    yielded (generate self (with_stream true a) g)
    = snapshots (generate self (with_stream true a) g) ++ [p] /\
    (0 < max_new_token a -> length (arg_inputs_ids a) = 1) /\
    nth_error (history self (with_stream true a) g)
              (length (trace (generate self (with_stream true a) g)))
    = Some sf /\
    (forall y,
       final_yield (snapshots (generate self (with_stream true a) g)) = Some y ->
       snapshot_due sf ->
       ids y = ids p /\ p_attentions y = p_attentions p /\
       p_hiddens y = if return_hidden a then p_hiddens p else [[]]) /\
    (return_hidden a = false -> p_hiddens p = []).
Proof.
  intros Hr.
  destruct (proj1 (stream_last_yield_is_plain self a g) Hr)
    as [Hplain [p [Hlast Hp]]].
  destruct (generate_returns_inv self (with_stream true a) g Hr)
    as [s0 [sf [q [lg [H0 [He [Hq [Hy Ht]]]]]]]].
  assert (Eq : q = p).
  { rewrite Hy, final_yield_app in Hlast. congruence. }
  subst q.
  assert (Hsn : snapshots (generate self (with_stream true a) g)
                = yields (loop self (with_stream true a)
                            (max_new_token (with_stream true a)) 0 s0)).
  { unfold snapshots. rewrite Hr, Hy. apply removelast_last. }
  assert (Hhist : history self (with_stream true a) g
                  = s0 :: visited (loop self (with_stream true a)
                                     (max_new_token (with_stream true a)) 0 s0)).
  { unfold history. rewrite H0, Ht. reflexivity. }
  assert (Hsf : nth_error (history self (with_stream true a) g)
                  (length (trace (generate self (with_stream true a) g)))
                = Some sf).
  { rewrite Hhist, Ht. apply (loop_ended_last self _ _ _ _ _ He). }
  exists p, sf.
  split; [exact Hplain|]. split; [exact Hp|].
  split; [rewrite Hsn; exact Hy|].
  split.
  { intros Hmax.
    destruct (Nat.eq_dec (length (arg_inputs_ids a)) 1) as [E|HB]; [exact E|].
    exfalso.
    pose proof (init_shaped _ g s0 H0) as Hsh.
    pose proof (init_state_inv _ g s0 H0) as [Hids _].
    assert (HB' : length (inputs_ids s0) <> 1) by (rewrite Hids; exact HB).
    destruct (stream_step_raises self (with_stream true a) 0 s0 eq_refl Hsh HB')
      as [[e Hst] _].
    change (max_new_token (with_stream true a)) with (max_new_token a) in He.
    destruct (max_new_token a) as [|n]; [lia|].
    simpl in He. rewrite Hst in He. discriminate. }
  split; [exact Hsf|]. split.
  - intros y Hfy Hdue. rewrite Hsn in Hfy.
    assert (Hv : visited (loop self (with_stream true a)
                            (max_new_token (with_stream true a)) 0 s0) <> []).
    { intros Hv. rewrite (loop_yields_visited self _ _ _ _ Hv) in Hfy.
      discriminate. }
    destruct (loop_final_step_yields self (with_stream true a) _ _ _ sf
                eq_refl He Hv Hdue) as [y' [Hsnap Hfy']].
    assert (y' = y) by congruence. subst y'.
    destruct (finishing_snapshot_is_final _ sf y p lg Hsnap Hq)
      as [Hi [Ha Hh]].
    split; [exact Hi|]. split; [exact Ha|].
    change (return_hidden (with_stream true a)) with (return_hidden a) in Hh.
    pose proof (snapshot_hiddens _ sf y Hsnap) as Hsh.
    change (return_hidden (with_stream true a)) with (return_hidden a) in Hsh.
    destruct (return_hidden a); [apply Hh; reflexivity | exact Hsh].
  - intros Hh.
    pose proof (final_payload_inv _ sf p lg Hq) as [_ Hp'].
    change (return_hidden (with_stream true a)) with (return_hidden a) in Hp'.
    rewrite Hh in Hp'. rewrite Hp'.
    pose proof (history_hiddens self (with_stream true a) g _ sf Hsf) as Hinv.
    change (return_hidden (with_stream true a)) with (return_hidden a) in Hinv.
    rewrite Hh in Hinv. exact Hinv.
Qed.

(** C6, the claim as stated, fails: one row that never draws the marker
    and twenty-five steps.  The last snapshot is taken after step 24 and
    holds 24 token rows; the plain payload holds 25. *)
Lemma final_snapshot_equals_plain_fails :
  ~ final_snapshot_equals_plain small_gpt (audio_args 1 25 0 true false)
      (repeat 0 50).
Proof.
  unfold final_snapshot_equals_plain. intros H.
  destruct (final_yield (snapshots (generate small_gpt
              (with_stream true (audio_args 1 25 0 true false)) (repeat 0 50))))
    as [y|] eqn:E; [|vm_compute in E; discriminate].
  specialize (H y eq_refl).
  apply (f_equal (map (fun p => ids_lengths (ids p)))) in H.
  assert (Ey : ids_lengths (ids y) = [24]).
  { vm_compute in E. injection E as <-. reflexivity. }
  change (map (fun p => ids_lengths (ids p)) [y])
    with [ids_lengths (ids y)] in H.
  rewrite Ey in H. vm_compute in H. discriminate.
Qed.

Lemma streaming_payloads_against_plain_witness :
  exists p sf,
    raised (generate small_gpt (with_stream false (audio_args 1 3 0 true false))
              [0; 1; 0; 2]) = None /\
    yielded (generate small_gpt (with_stream false (audio_args 1 3 0 true false))
               [0; 1; 0; 2]) = [p] /\
    yielded (generate small_gpt (with_stream true (audio_args 1 3 0 true false))
               [0; 1; 0; 2])
    = snapshots (generate small_gpt
                   (with_stream true (audio_args 1 3 0 true false))
                   [0; 1; 0; 2]) ++ [p] /\
    (0 < max_new_token (audio_args 1 3 0 true false) ->
     length (arg_inputs_ids (audio_args 1 3 0 true false)) = 1) /\
    nth_error (history small_gpt (with_stream true (audio_args 1 3 0 true false))
                 [0; 1; 0; 2])
              (length (trace (generate small_gpt
                                (with_stream true (audio_args 1 3 0 true false))
                                [0; 1; 0; 2])))
    = Some sf /\
    (forall y,
       final_yield (snapshots (generate small_gpt
                                 (with_stream true (audio_args 1 3 0 true false))
                                 [0; 1; 0; 2])) = Some y ->
       snapshot_due sf ->
       ids y = ids p /\ p_attentions y = p_attentions p /\
       p_hiddens y = if return_hidden (audio_args 1 3 0 true false)
                     then p_hiddens p else [[]]) /\
    (return_hidden (audio_args 1 3 0 true false) = false -> p_hiddens p = []).
Proof.
  apply (streaming_payloads_against_plain small_gpt
           (audio_args 1 3 0 true false) [0; 1; 0; 2]).
  vm_compute. reflexivity.
Defined.

(** * The device of the transformer *)

(** X15: whatever device is asked for, the transformer and the embedding
    tables are not placed on a device whose name contains ["mps"]; the
    requested device is kept exactly when its name does not contain it. *)
Theorem device_gpt_never_mps (device : string) :
  contains "mps" (device_gpt device) = false /\
  (device_gpt device = device <-> contains "mps" device = false).
Proof.
  unfold device_gpt. destruct (contains "mps" device) eqn:E; simpl.
  - split; [reflexivity|]. split; [|discriminate].
    intros H. rewrite <- H in E. vm_compute in E. discriminate.
  - split; [exact E|]. split; reflexivity.
Qed.

(** * [encode] *)

(** X16: [encode] reads its spectrogram only through the batch size and
    half the number of frames, rounded down: two spectrograms that agree
    on these (and on dtype and device) give the same features and the
    same ids, or the same failure, whatever their values are. *)
Theorem encode_reads_only_the_shape {F X : Type}
  (dvae : option (tensor -> meta -> X + F * itensor))
  (s1 s2 : tensor) (m : meta) :
  nth_error (shape s1) 0 = nth_error (shape s2) 0 ->
  option_map (fun frames => frames / 2) (nth_error (shape s1) 1)
  = option_map (fun frames => frames / 2) (nth_error (shape s2) 1) ->
  encode dvae s1 m = encode dvae s2 m.
Proof.
  intros H0 H1. unfold encode. destruct dvae as [q|]; [|reflexivity].
  rewrite H0. destruct (nth_error (shape s2) 0) as [B|]; [|reflexivity].
  destruct (nth_error (shape s1) 1) as [n1|],
           (nth_error (shape s2) 1) as [n2|]; unfold option_map in H1;
    try discriminate; [|reflexivity].
  assert (E : n1 / 2 = n2 / 2) by congruence.
  cbv zeta. rewrite E. reflexivity.
Qed.

(** * [examples/web/funcs.py] *)

Lemma dict_get_In {A : Type} (k : string) (d : list (string * A)) (v : A) :
  dict_get k d = Some v -> In (k, v) d.
Proof.
  induction d as [|[k' v'] d IH]; simpl; [discriminate|].
  destruct (String.eqb_spec k k') as [->|Hne].
  - intros H. inversion H. left. reflexivity.
  - intros H. right. apply IH. exact H.
Qed.

Lemma dict_get_None {A : Type} (k : string) (d : list (string * A)) :
  dict_get k d = None -> ~ In k (map fst d).
Proof.
  induction d as [|[k' v'] d IH]; simpl; [tauto|].
  destruct (String.eqb_spec k k') as [->|Hne]; [discriminate|].
  intros H [Heq|Hin]; [congruence | exact (IH H Hin)].
Qed.

Lemma In_dict_get {A : Type} (k : string) (d : list (string * A)) (v : A) :
  NoDup (map fst d) -> In (k, v) d -> dict_get k d = Some v.
Proof.
  induction d as [|[k' v'] d IH]; simpl; [contradiction|].
  intros Hnd [Heq|Hin].
  - inversion Heq; subst. rewrite String.eqb_refl. reflexivity.
  - inversion Hnd as [|x l Hx Hl]; subst.
    destruct (String.eqb_spec k k') as [->|Hne].
    + exfalso. apply Hx. apply (in_map fst) in Hin. exact Hin.
    + apply IH; assumption.
Qed.

Lemma voices_keys_distinct : NoDup (map fst voices).
Proof.
  unfold voices. simpl.
  repeat (constructor; [simpl; intuition discriminate|]). constructor.
Qed.

(** X17: [on_voice_change] returns the seed of a voice exactly for the
    names of the table; for any other name it raises a TypeError, the
    lookup having given [None]. *)
Theorem on_voice_change_known_names (name : string) :
  (forall seed, on_voice_change name = inr seed <-> In (name, seed) voices)
  /\ (forall e, on_voice_change name = inl e <->
                e = TypeError none_not_subscriptable /\
                ~ In name (map fst voices)).
Proof.
  unfold on_voice_change. split.
  - intros seed. split.
    + destruct (dict_get name voices) as [v|] eqn:E; [|discriminate].
      intros H. inversion H; subst. apply dict_get_In. exact E.
    + intros H. rewrite (In_dict_get _ _ _ voices_keys_distinct H). reflexivity.
  - intros e. destruct (dict_get name voices) as [v|] eqn:E.
    + split; [discriminate|]. intros [_ Hn]. exfalso. apply Hn.
      apply dict_get_In in E. apply (in_map fst) in E. exact E.
    + split.
      * intros H. inversion H. split; [reflexivity|].
        apply dict_get_None. exact E.
      * intros [-> _]. reflexivity.
Qed.

Section WebFacts.

Context {C N : Type} (ext : Collaborators C N).

Lemma try_register_keeps (lang : string) (make : option N)
  (warnings : list notice) (w : Web C) :
  custom_path (try_register ext lang make warnings w) = custom_path w.
Proof.
  unfold try_register. destruct make as [n|]; [|reflexivity].
  destruct (fst (register ext lang n (chat w))); reflexivity.
Qed.

Lemma load_chat_result (cust_path coef : option string) (w : Web C) :
  fst (load_chat ext cust_path coef w)
  = fst (load_models ext (load_request ext cust_path coef) (chat w)).
Proof.
  unfold load_chat.
  assert (E : chat match cust_path with
                   | Some p => say [LoggerInfo ("local model path: " ++ p)] w
                   | None => w
                   end = chat w) by (destruct cust_path; reflexivity).
  rewrite E.
  destruct (load_models ext (load_request ext cust_path coef) (chat w))
    as [[e|ret] c]; simpl; [reflexivity|].
  destruct ret; reflexivity.
Qed.

End WebFacts.

(** X18: [load_chat] returns what [chat.load_models] returns and raises
    what it raises: a normalizer that cannot be built or registered
    changes neither.  The global [custom_path] is overwritten exactly when
    a path was given and [load_models] returned, whatever it returned; and
    nothing is registered unless it returned [True]. *)
Theorem load_chat_follows_load_models {C N : Type} (ext : Collaborators C N)
  (cust_path coef : option string) (w : Web C) :
  let loaded := load_models ext (load_request ext cust_path coef) (chat w) in
  let after := load_chat ext cust_path coef w in
  fst after = fst loaded /\
  custom_path (snd after)
  = match cust_path, fst loaded with
    | Some p, inr _ => Some p
    | _, _ => custom_path w
    end /\
  (fst loaded <> inr true -> chat (snd after) = snd loaded).
Proof.
  cbv zeta. split; [apply load_chat_result|].
  unfold load_chat.
  assert (E : chat match cust_path with
                   | Some p => say [LoggerInfo ("local model path: " ++ p)] w
                   | None => w
                   end = chat w) by (destruct cust_path; reflexivity).
  rewrite E.
  destruct (load_models ext (load_request ext cust_path coef) (chat w))
    as [[e|ret] c]; simpl.
  - split; [destruct cust_path; reflexivity|]. intros _. reflexivity.
  - destruct ret; simpl.
    + split; [|intros H; contradiction H; reflexivity].
      rewrite !try_register_keeps. destruct cust_path; reflexivity.
    + split; [destruct cust_path; reflexivity|].
      intros _. destruct cust_path; reflexivity.
Qed.

(** X19: a coefficient string whose length, counted in code points as
    [len] does, is not 230 is not passed on: [reload_chat] does the same
    for any two such strings. *)
Theorem reload_chat_ignores_invalid_coef {C N : Type}
  (ext : Collaborators C N) (c1 c2 : string) (w : Web C) :
  py_len c1 <> 230 ->
  py_len c2 <> 230 ->
  reload_chat ext (Some c1) w = reload_chat ext (Some c2) w.
Proof.
  intros H1 H2. unfold reload_chat.
  apply Nat.eqb_neq in H1. apply Nat.eqb_neq in H2.
  cbv zeta. rewrite H1, H2. reflexivity.
Qed.

(** X20: once the model is unloaded, [reload_chat] on a string either
    returns [chat.coef] as it is after a load that returned [True], or
    raises: a [gr.Error], or an exception of the load that does not
    derive from [Exception], which passes through unwrapped. *)
Theorem reload_chat_outcomes {C N : Type} (ext : Collaborators C N)
  (coef : string) (w : Web C) :
  fst (unload ext (chat w)) = None ->
  match fst (reload_chat ext (Some coef) w) with
  | inr s =>
      s = chat_coef ext (chat (snd (reload_chat ext (Some coef) w))) /\
      exists call c, fst (load_models ext call c) = inr true
  | inl e =>
      (exists msg, e = GradioError msg) \/
      (exists text, e = Foreign false text)
  end.
Proof.
  intros Hu. unfold reload_chat. rewrite Hu. cbv zeta.
  set (valid := py_len coef =? 230).
  set (w2 := if valid then _ else _).
  set (coef' := if valid then _ else _).
  pose proof (load_chat_result ext (custom_path w2) coef' w2) as Hres.
  destruct (load_chat ext (custom_path w2) coef' w2) as [[e|ret] w3] eqn:Hl;
    simpl in *.
  - destruct (is_exception e) eqn:Ee; simpl.
    + left. eauto.
    + right. destruct e; simpl in Ee; try discriminate. subst. eauto.
  - destruct ret; simpl.
    + split; [reflexivity|]. eauto.
    + left. eauto.
Qed.


(** * The further properties on examples *)

Lemma sequences_grow_one_row_per_step_witness :
  exists sq0 gen,
    nth_error (arg_inputs_ids (audio_args 2 5 0 false false)) 1 = Some sq0 /\
    [[0; 0]; [0; 0]; [0; 2]]%Z = sq0 ++ gen /\
    length gen = 2 /\
    Forall (fun row => length row = num_vq small_gpt) gen.
Proof.
  eapply (sequences_grow_one_row_per_step small_gpt
            (audio_args 2 5 0 false false) tape_staggered 2 _ 1);
    vm_compute; reflexivity.
Defined.

Lemma yielded_rows_have_counter_length_witness :
  exists t s,
    nth_error (history small_gpt (audio_args 2 5 0 false false) tape_staggered) t
    = Some s /\
    t <= max_new_token (audio_args 2 5 0 false false) /\
    ids_lengths (ids staggered_payload) = end_idx s /\
    Forall (fun e => e <= t) (end_idx s).
Proof.
  apply (yielded_rows_have_counter_length small_gpt
           (audio_args 2 5 0 false false) tape_staggered staggered_payload).
  - repeat constructor.
  - intros H. discriminate H.
  - vm_compute. left. reflexivity.
Defined.

Lemma yielded_rows_free_of_marker_witness :
  clean_ids (audio_args 2 5 0 false false) (ids staggered_payload).
Proof.
  apply (yielded_rows_free_of_marker small_gpt
           (audio_args 2 5 0 false false) tape_staggered staggered_payload).
  - repeat constructor.
  - intros H. discriminate H.
  - vm_compute. left. reflexivity.
Defined.

Lemma warning_iff_unfinished_witness :
  exists sf,
    nth_error (history small_gpt (audio_args 2 5 0 false false) tape_staggered)
      (length (trace (generate small_gpt (audio_args 2 5 0 false false)
                        tape_staggered))) = Some sf /\
    (all (finish sf) = true ->
     log (generate small_gpt (audio_args 2 5 0 false false) tape_staggered) = []) /\
    (all (finish sf) = false ->
     log (generate small_gpt (audio_args 2 5 0 false false) tape_staggered)
     = [WARNING incomplete_msg (max_new_token (audio_args 2 5 0 false false))] /\
     length (trace (generate small_gpt (audio_args 2 5 0 false false)
                      tape_staggered))
     = max_new_token (audio_args 2 5 0 false false)).
Proof.
  apply (warning_iff_unfinished small_gpt (audio_args 2 5 0 false false)
           tape_staggered).
  vm_compute. reflexivity.
Defined.

Lemma plain_call_yields_once_witness :
  (raised (generate small_gpt (audio_args 2 5 0 false false) tape_staggered)
   = None ->
   exists p, yielded (generate small_gpt (audio_args 2 5 0 false false)
                        tape_staggered) = [p]) /\
  (raised (generate small_gpt (audio_args 2 5 0 false false) tape_staggered)
   <> None ->
   yielded (generate small_gpt (audio_args 2 5 0 false false) tape_staggered)
   = []).
Proof.
  apply (plain_call_yields_once small_gpt (audio_args 2 5 0 false false)
           tape_staggered).
  reflexivity.
Defined.

Lemma single_row_stream_cadence_witness :
  exists y,
    step small_gpt (audio_args 1 3 0 false true) 1
      (nth 1 (history small_gpt (audio_args 1 3 0 false true) [0; 1; 0; 2])
           first_state)
    = Ok (nth 2 (history small_gpt (audio_args 1 3 0 false true) [0; 1; 0; 2])
              first_state, y, true) /\
    (y <> None <-> true = true \/ 2 mod 24 = 0).
Proof.
  apply (single_row_stream_cadence small_gpt (audio_args 1 3 0 false true)
           [0; 1; 0; 2] 1); vm_compute; reflexivity.
Defined.

Lemma position_ids_from_mask_witness :
  exists pos,
    mi_position_ids decode_outputs = Some pos /\
    Forall2 (fun mrow prow => exists k, prow = skipn k (position_row mrow))
            [[false; true; true]] pos /\
    Forall (Forall (fun z => (0 <= z)%Z)) pos /\
    forall mrow p b, nth_error mrow p = Some b ->
      nth_error (position_row mrow) p
      = Some (if b then Z.of_nat (count_true (firstn p mrow)) else 1%Z).
Proof.
  apply (position_ids_from_mask None decode_inputs decode_outputs);
    vm_compute; reflexivity.
Defined.

Lemma decode_step_keeps_unprocessed_tokens_witness :
  prepare_inputs_for_generation None decode_inputs
  = Ok {| mi_inputs_embeds := None;
          mi_input_ids := Some (map (skipn 2) (pi_input_ids decode_inputs));
          mi_position_ids :=
            Some (map (fun mrow => skipn 2 (position_row mrow))
                      [[false; true; true]]);
          mi_cache_position := seq 2 (3 - 2);
          mi_past_key_values := Some (LegacyCache 2);
          mi_use_cache := pi_kw_use_cache decode_inputs;
          mi_attention_mask := Some [[false; true; true]] |}.
Proof.
  apply (decode_step_keeps_unprocessed_tokens None decode_inputs
           [[false; true; true]] 2 3); try reflexivity.
  - repeat constructor.
  - lia.
Defined.

Lemma position_ids_width_witness :
  Forall (fun prow => length prow
                      = if seq_len [[[2; 0]]]%Z =? 0 then 3
                        else Nat.min (seq_len [[[2; 0]]]%Z) 3)
         [[1]]%Z.
Proof.
  apply (position_ids_width None decode_inputs decode_outputs
           [[false; true; true]] [[[2; 0]]]%Z [[1]]%Z 3); try reflexivity.
  repeat constructor.
Defined.

Lemma get_emb_in_vocab_pointwise_witness :
  (forall e, get_emb number_tables 2 mixed_ids mixed_mask = Ok e <->
             same_shape mixed_mask mixed_ids = true /\
             positions_in_vocab number_tables mixed_ids mixed_mask /\
             e = emb_pointwise number_tables mixed_ids mixed_mask)
  /\ (forall err, get_emb number_tables 2 mixed_ids mixed_mask = Raise err ->
                  err = IndexError).
Proof.
  apply (get_emb_in_vocab_pointwise number_tables 2 mixed_ids mixed_mask);
    simpl; lia.
Defined.

Lemma embed_rows_is_get_emb_witness :
  embed_rows number_tables 2 false mixed_ids
  = get_emb number_tables 2 mixed_ids (const_mask false mixed_ids).
Proof.
  apply (embed_rows_is_get_emb number_tables 2 false mixed_ids); simpl; lia.
Defined.

Lemma hidden_rows_align_with_ids_witness :
  map (@length _) (p_hiddens staggered_hidden_payload)
  = ids_lengths (ids staggered_hidden_payload).
Proof.
  apply (hidden_rows_align_with_ids small_gpt (audio_args 2 2 0 true false)
           tape_staggered staggered_hidden_payload).
  - repeat constructor.
  - intros H. discriminate H.
  - reflexivity.
  - vm_compute. left. reflexivity.
Defined.

Lemma hiddens_entry_without_return_hidden_witness :
  exists snapshots final,
    yielded (generate small_gpt (audio_args 1 3 0 false true) [0; 1; 0; 2])
    = snapshots ++ [final] /\
    Forall (fun p => p_hiddens p = [[]]) snapshots /\
    p_hiddens final = [].
Proof.
  apply (hiddens_entry_without_return_hidden small_gpt
           (audio_args 1 3 0 false true) [0; 1; 0; 2]);
    vm_compute; reflexivity.
Defined.

Lemma encode_reads_only_the_shape_witness :
  encode (Some counting_quantizer) mel_four cpu_float
  = encode (Some counting_quantizer) mel_five cpu_float.
Proof.
  apply (encode_reads_only_the_shape (Some counting_quantizer)
           mel_four mel_five cpu_float); reflexivity.
Defined.

Lemma reload_chat_ignores_invalid_coef_witness :
  reload_chat toy_collaborators (Some "abc"%string) toy_web
  = reload_chat toy_collaborators (Some ""%string) toy_web.
Proof.
  apply (reload_chat_ignores_invalid_coef toy_collaborators
           "abc"%string ""%string toy_web); vm_compute; lia.
Defined.

Lemma reload_chat_outcomes_witness :
  match fst (reload_chat toy_collaborators (Some "abc"%string) toy_web) with
  | inr s =>
      s = chat_coef toy_collaborators
            (chat (snd (reload_chat toy_collaborators (Some "abc"%string)
                          toy_web))) /\
      exists call c, fst (load_models toy_collaborators call c) = inr true
  | inl e =>
      (exists msg, e = GradioError msg) \/
      (exists text, e = Foreign false text)
  end.
Proof.
  apply (reload_chat_outcomes toy_collaborators "abc"%string toy_web).
  reflexivity.
Defined.

